(** * chess_player.grasp_utilities: grasp and place candidates, retrying
      pick and place, the planning-scene tracker and the chess move
      orchestrator.

    A shallow embedding of [grasp_utilities.py].

    - Python floats are read as exact rationals ([Q]); [getPose] is also
      given over any float arithmetic, IEEE doubles among them, for what
      depends on the rounding.
    - Objects that the source shares by reference (the caller's
      [PoseStamped], the single [Grasp] or [PlaceLocation] object a generator
      keeps rewriting) live in an explicit heap; a generator is its suspended
      frame and [next()] is a step on it.
    - The control thread is a state-and-exception monad over the process
      state.  Everything that belongs to the host platform (the action
      servers, TF, the clock, the planning-scene feed) is an instance of the
      class [Platform]; [quaternion_from_euler] and the constants of
      [chess_utilities] are parameters.
    - [MotionManager] is also given as an object, the map of the names its
      constructor binds, for the one method that reads a name it lacks.
    - The waits on the feed have no bound in the source and [execute] calls
      itself through [castling_extras]: both take a bound [n] here, and
      [OutOfFuel] is the outcome of a run that needs more. *)

From Stdlib Require Import QArith Qabs ZArith Lia Ascii String Floats.
From stdpp Require Import gmap strings list pretty.

Open Scope Q_scope.

(** ** Messages *)

Record Point := { point_x : Q; point_y : Q; point_z : Q }.
Record Quaternion := { quat_x : Q; quat_y : Q; quat_z : Q; quat_w : Q }.
Record Pose := { position : Point; orientation : Quaternion }.
Record Header := { stamp : Q; frame_id : string }.
Record PoseStamped := { header : Header; pose : Pose }.

Record JointState := {
  js_name : list string;
  js_position : list Q;
  js_velocity : list Q;
  js_effort : list Q }.

Record Vector3Stamped := {
  vector_frame_id : string;
  vector_x : Q; vector_y : Q; vector_z : Q }.

Record GripperTranslation := {
  direction : Vector3Stamped;
  min_distance : Q;
  desired_distance : Q }.

(** A [Grasp] and a [PlaceLocation] hold their pose by reference in the
    source: [P] is a heap location for the live object and a [PoseStamped]
    for the value read off it (what a goal carries once it is sent). *)
Record Grasp (P : Type) := {
  grasp_id : string;
  pre_grasp_posture : JointState;
  grasp_posture : JointState;
  grasp_pose : P;
  grasp_quality : Q;
  grasp_approach : GripperTranslation;
  grasp_retreat : GripperTranslation }.

Record PlaceLocation (P : Type) := {
  place_id : string;
  place_pose : P;
  place_approach : GripperTranslation;
  place_retreat : GripperTranslation;
  post_place_posture : JointState }.

Arguments grasp_id {P} _.
Arguments pre_grasp_posture {P} _.
Arguments grasp_posture {P} _.
Arguments grasp_pose {P} _.
Arguments grasp_quality {P} _.
Arguments grasp_approach {P} _.
Arguments grasp_retreat {P} _.
Arguments place_id {P} _.
Arguments place_pose {P} _.
Arguments place_approach {P} _.
Arguments place_retreat {P} _.
Arguments post_place_posture {P} _.

Definition zero_point : Point := {| point_x := 0; point_y := 0; point_z := 0 |}.
Definition zero_quaternion : Quaternion :=
  {| quat_x := 0; quat_y := 0; quat_z := 0; quat_w := 0 |}.

(** ** Module constants *)

Definition GRIPPER_FRAME : string := "gripper_link".
Definition FIXED_FRAME : string := "base_link".
Definition PLAN_ONLY : bool := false.
Definition GRIPPER_CLOSED : Q := 0.01.
Definition GRIPPER_OPEN : Q := 0.05.

Definition joint_names : list string :=
  ["arm_lift_joint"; "arm_shoulder_pan_joint"; "arm_upperarm_roll_joint";
   "arm_shoulder_lift_joint"; "arm_elbow_flex_joint"; "arm_wrist_flex_joint";
   "arm_wrist_roll_joint"].
Definition joints_tucked : list Q :=
  [0.0; -1.57; 0.0; -1.7; 1.7; 1.57; -0.066472500808377785].
Definition joints_untucked : list Q :=
  [0.0; 0.0; 0.0; -1.57; 1.57; 1.57; -0.066472500808377785].

Definition getGripperPosture (width : Q) : JointState :=
  {| js_name := ["l_gripper_joint"; "r_gripper_joint"];
     js_position := [width; width];
     js_velocity := [0.0; 0.0];
     js_effort := [1.0; 1.0] |}.

Definition getGripperTranslation (min_dist desired axis : Q) : GripperTranslation :=
  {| direction := {| vector_frame_id := GRIPPER_FRAME;
                     vector_x := axis; vector_y := 0; vector_z := 0 |};
     min_distance := min_dist;
     desired_distance := desired |}.

(** ** [str] on floats

    [str_float] writes the decimal expansion by long division, with at least
    one digit after the point, stopping when the remainder is zero or after
    twelve digits.  On the literals of this file it gives the literal back,
    as Python's [str] does ([str(0.05)] is ['0.05'], [str(0.0)] is ['0.0']). *)

Definition digit_of (d : Z) : ascii :=
  ascii_of_nat (48 + Z.to_nat d).

Fixpoint frac_digits (n : nat) (num den : Z) : string :=
  match n with
  | O => EmptyString
  | S n' =>
      if (num =? 0)%Z then EmptyString
      else String (digit_of (num * 10 / den)%Z)
                  (frac_digits n' ((num * 10) mod den)%Z den)
  end.

Definition str_float (q : Q) : string :=
  let a := Z.abs (Qnum q) in
  let d := Zpos (Qden q) in
  let frac := frac_digits 12 (a mod d)%Z d in
  ((if (Qnum q <? 0)%Z then "-" else "")
   +:+ pretty (a / d)%Z +:+ "."
   +:+ (if decide (frac = EmptyString) then "0" else frac))%string.

(** ** The heap of shared objects *)

(** Heap locations. *)
Abbreviation loc := nat (only parsing).

Record Heap := {
  poses : gmap loc PoseStamped;
  grasps : gmap loc (Grasp loc);
  places : gmap loc (PlaceLocation loc) }.

Definition empty_heap : Heap := {| poses := ∅; grasps := ∅; places := ∅ |}.

Definition alloc_pose (ps : PoseStamped) (h : Heap) : loc * Heap :=
  let l := fresh (dom (poses h)) in
  (l, {| poses := <[l := ps]> (poses h); grasps := grasps h; places := places h |}).

Definition with_orientation (q : Quaternion) (ps : PoseStamped) : PoseStamped :=
  {| header := header ps;
     pose := {| position := position (pose ps); orientation := q |} |}.

(** [x.pose.orientation.x = q[0]; ... ; x.pose.orientation.w = q[3]] on the
    object at [lp]; [None] only for a location that was never allocated. *)
Definition set_orientation (q : Quaternion) (lp : loc) (h : Heap) : option Heap :=
  ps ← poses h !! lp;
  Some {| poses := <[lp := with_orientation q ps]> (poses h);
          grasps := grasps h; places := places h |}.

Definition put_grasp (lg : loc) (g : Grasp loc) (h : Heap) : Heap :=
  {| poses := poses h; grasps := <[lg := g]> (grasps h); places := places h |}.

Definition put_place (ll : loc) (l : PlaceLocation loc) (h : Heap) : Heap :=
  {| poses := poses h; grasps := grasps h; places := <[ll := l]> (places h) |}.

(** The value of a candidate as a reader sees it now. *)
Definition read_grasp (h : Heap) (lg : loc) : option (Grasp PoseStamped) :=
  g ← grasps h !! lg;
  ps ← poses h !! grasp_pose g;
  Some {| grasp_id := grasp_id g;
          pre_grasp_posture := pre_grasp_posture g;
          grasp_posture := grasp_posture g;
          grasp_pose := ps;
          grasp_quality := grasp_quality g;
          grasp_approach := grasp_approach g;
          grasp_retreat := grasp_retreat g |}.

Definition read_place (h : Heap) (ll : loc) : option (PlaceLocation PoseStamped) :=
  l ← places h !! ll;
  ps ← poses h !! place_pose l;
  Some {| place_id := place_id l;
          place_pose := ps;
          place_approach := place_approach l;
          place_retreat := place_retreat l;
          post_place_posture := post_place_posture l |}.

(** ** Candidate generators *)

Definition pitches : list Q := [0.05; 0.1; 0.2; 0.4].
Definition yaws : list Q := [-1.57; -0.78; 0.0; 0.78; 1.57].

(** The iterations of [for p in [...]: for y in [...]], in order. *)
Definition tilts : list (Q * Q) :=
  p ← pitches; y ← yaws; [(p, y)].

Definition tilt_id (p y : Q) : string :=
  (str_float p +:+ "+" +:+ str_float y)%string.

Definition tilt_quality (p y : Q) : Q :=
  1.0 - (1.25 * p) - Qabs y / 4.0.

(** A generator is its suspended frame: not yet started (it only holds its
    argument), suspended at a [yield] with the iterations still to run, or
    finished. *)
Inductive GraspGen :=
  | GraspStart (pose_stamped : loc)
  | GraspLoop (g : loc) (todo : list (Q * Q))
  | GraspDone.

Inductive PlaceGen :=
  | PlaceStart (pose_stamped : loc)
  | PlaceLoop (l : loc) (todo : list (Q * Q))
  | PlaceDone.

(** Calling a generator function runs none of its body. *)
Definition getGrasps (pose_stamped : loc) : GraspGen := GraspStart pose_stamped.
Definition getPlaceLocations (pose_stamped : loc) : PlaceGen := PlaceStart pose_stamped.

Section Generators.

(** [tf.transformations.quaternion_from_euler], a function of the host
    platform. *)
Variable quaternion_from_euler : Q -> Q -> Q -> Quaternion.

(** One [next()] on [getGrasps(pose_stamped)]: the outer [option] is [None]
    only on a dangling location, the inner one is [None] at
    [StopIteration]. *)
Definition getGrasps_next (gen : GraspGen) (h : Heap)
  : option (option loc * GraspGen * Heap) :=
  match gen with
  | GraspStart lp =>
      let lg := fresh (dom (grasps h)) in
      let g := {| grasp_id := "direct_overhead";
                  pre_grasp_posture := getGripperPosture GRIPPER_OPEN;
                  grasp_posture := getGripperPosture GRIPPER_CLOSED;
                  grasp_pose := lp;
                  grasp_quality := 1.0;
                  grasp_approach := getGripperTranslation 0.05 0.15 1.0;
                  grasp_retreat := getGripperTranslation 0.05 0.15 (-1.0) |} in
      h1 ← set_orientation (quaternion_from_euler 0 1.57 0) lp h;
      Some (Some lg, GraspLoop lg tilts, put_grasp lg g h1)
  | GraspLoop lg ((p, y) :: todo) =>
      g ← grasps h !! lg;
      h1 ← set_orientation (quaternion_from_euler 0 (1.57 - p) y) (grasp_pose g) h;
      let g' := {| grasp_id := tilt_id p y;
                   pre_grasp_posture := pre_grasp_posture g;
                   grasp_posture := grasp_posture g;
                   grasp_pose := grasp_pose g;
                   grasp_quality := tilt_quality p y;
                   grasp_approach := grasp_approach g;
                   grasp_retreat := grasp_retreat g |} in
      Some (Some lg, GraspLoop lg todo, put_grasp lg g' h1)
  | GraspLoop lg [] => Some (None, GraspDone, h)
  | GraspDone => Some (None, GraspDone, h)
  end.

Definition getPlaceLocations_next (gen : PlaceGen) (h : Heap)
  : option (option loc * PlaceGen * Heap) :=
  match gen with
  | PlaceStart lp =>
      let ll := fresh (dom (places h)) in
      let l := {| place_id := "direct_overhead";
                  place_pose := lp;
                  place_approach := getGripperTranslation 0.05 0.15 1.0;
                  place_retreat := getGripperTranslation 0.05 0.15 (-1.0);
                  post_place_posture := getGripperPosture GRIPPER_OPEN |} in
      h1 ← set_orientation (quaternion_from_euler 0 1.57 0) lp h;
      Some (Some ll, PlaceLoop ll tilts, put_place ll l h1)
  | PlaceLoop ll ((p, y) :: todo) =>
      l ← places h !! ll;
      h1 ← set_orientation (quaternion_from_euler 0 (1.57 - p) y) (place_pose l) h;
      let l' := {| place_id := tilt_id p y;
                   place_pose := place_pose l;
                   place_approach := place_approach l;
                   place_retreat := place_retreat l;
                   post_place_posture := post_place_posture l |} in
      Some (Some ll, PlaceLoop ll todo, put_place ll l' h1)
  | PlaceLoop ll [] => Some (None, PlaceDone, h)
  | PlaceDone => Some (None, PlaceDone, h)
  end.

(** The number of [next()] calls a generator can still answer, plus one. *)
Definition grasp_gen_size (gen : GraspGen) : nat :=
  match gen with
  | GraspStart _ => S (S (length tilts))
  | GraspLoop _ todo => S (length todo)
  | GraspDone => 1
  end.

Definition place_gen_size (gen : PlaceGen) : nat :=
  match gen with
  | PlaceStart _ => S (S (length tilts))
  | PlaceLoop _ todo => S (length todo)
  | PlaceDone => 1
  end.

(** [for g in gen: out.append(copy.deepcopy(g))]: every candidate is read
    at the moment it is yielded, as the pose-array demo of the source does. *)
Fixpoint collect_grasps (n : nat) (gen : GraspGen) (h : Heap)
  : option (list (Grasp PoseStamped) * Heap) :=
  match n with
  | O => None
  | S n' =>
      '(r, gen', h1) ← getGrasps_next gen h;
      match r with
      | None => Some ([], h1)
      | Some lg =>
          g ← read_grasp h1 lg;
          '(out, h2) ← collect_grasps n' gen' h1;
          Some (g :: out, h2)
      end
  end.

Fixpoint collect_places (n : nat) (gen : PlaceGen) (h : Heap)
  : option (list (PlaceLocation PoseStamped) * Heap) :=
  match n with
  | O => None
  | S n' =>
      '(r, gen', h1) ← getPlaceLocations_next gen h;
      match r with
      | None => Some ([], h1)
      | Some ll =>
          l ← read_place h1 ll;
          '(out, h2) ← collect_places n' gen' h1;
          Some (l :: out, h2)
      end
  end.

Definition grasp_sequence (lp : loc) (h : Heap) :=
  collect_grasps (grasp_gen_size (getGrasps lp)) (getGrasps lp) h.

Definition place_sequence (lp : loc) (h : Heap) :=
  collect_places (place_gen_size (getPlaceLocations lp)) (getPlaceLocations lp) h.

End Generators.

(** ** Goals and scene messages *)

Record PickupGoal := {
  target_name : string;
  pick_group_name : string;
  end_effector : string;
  possible_grasps : list (Grasp PoseStamped);
  pick_support_surface_name : string;
  pick_allow_gripper_support_collision : bool;
  attached_object_touch_links : list string;
  pick_allowed_planning_time : Q;
  pick_plan_only : bool }.

Record PlaceGoal := {
  place_group_name : string;
  attached_object_name : string;
  place_locations : list (PlaceLocation PoseStamped);
  place_support_surface_name : string;
  place_allow_gripper_support_collision : bool;
  place_allowed_planning_time : Q;
  place_plan_only : bool }.

Record JointConstraint := {
  joint_name : string;
  joint_position : Q;
  tolerance_above : Q;
  tolerance_below : Q;
  weight : Q }.

Record MoveGroupGoal := {
  goal_constraints : list (list JointConstraint);
  move_group_name : string;
  num_planning_attempts : Z;
  move_allowed_planning_time : Q;
  move_plan_only : bool;
  look_around : bool;
  replan : bool }.

Inductive Operation := ADD | REMOVE | APPEND | MOVE.
Inductive PrimitiveType := BOX | SPHERE | CYLINDER | CONE.

Record SolidPrimitive := { primitive_type : PrimitiveType; dimensions : list Q }.

Record CollisionObject := {
  object_header : Header;
  object_id : string;
  primitives : list SolidPrimitive;
  primitive_poses : list Pose;
  operation : Operation }.

Record AttachedCollisionObject := { link_name : string; object : CollisionObject }.

Record PlanningScene := {
  world_collision_objects : list CollisionObject;
  attached_collision_objects : list AttachedCollisionObject }.

Record ChessPiece := { piece_header : Header; piece_pose : Pose }.

(** ** ObjectManager: the tracker's two lists *)

Record ObjectManager := { om_collision : list string; om_attached : list string }.

Definition new_ObjectManager : ObjectManager :=
  {| om_collision := []; om_attached := [] |}.

(** [l.remove(x)]: drops the first entry equal to [x]; [None] is Python's
    [ValueError] when there is none. *)
Fixpoint list_remove (x : string) (l : list string) : option (list string) :=
  match l with
  | [] => None
  | a :: l' => if decide (a = x) then Some l' else cons a <$> list_remove x l'
  end.

(** The body of the [for obj in msg.world.collision_objects] loop, with its
    [try ... except ValueError: pass].  The [rospy.logdebug] lines of the
    subscriber thread are not recorded. *)
Definition sceneCb_object (c : list string) (obj : CollisionObject) : list string :=
  match operation obj with
  | ADD => c ++ [object_id obj]
  | REMOVE =>
      match list_remove (object_id obj) c with
      | Some c' => c'
      | None => c
      end
  | _ => c
  end.

Definition sceneCb (om : ObjectManager) (msg : PlanningScene) : ObjectManager :=
  {| om_collision := foldl sceneCb_object (om_collision om) (world_collision_objects msg);
     om_attached :=
       foldl (fun a obj => a ++ [object_id (object obj)]) []
             (attached_collision_objects msg) |}.

(** ** The board of [chess_utilities] *)

Inductive Side := WHITE | BLACK.

Record Board := {
  side : Side;
  toPosition : string -> Z * Z;
  getPiece : Z -> Z -> option ChessPiece }.

(** ** The host platform

    What the control thread can do to the outside and learn from it; [W] is
    the state of everything outside the process.  An action is
    [send_goal; wait_for_result; get_result().error_code.val]. *)
Class Platform (W : Type) := {
  pickup_action : PickupGoal -> W -> Z * W;
  place_action : PlaceGoal -> W -> Z * W;
  move_group_action : MoveGroupGoal -> W -> Z * W;
  transformPose : string -> PoseStamped -> W -> PoseStamped;
  time_now : W -> Q;
  publish : CollisionObject -> W -> W;
  sleep : Q -> W -> W;
  (** the planning scenes the subscriber thread has received since the
      control thread last looked, oldest first *)
  scene_feed : W -> list PlanningScene * W }.

Inductive LogLevel := LogDebug | LogInfo | LogErr.

Inductive Event :=
  | EvPickup (g : PickupGoal) (code : Z)
  | EvPlace (g : PlaceGoal) (code : Z)
  | EvMoveGroup (g : MoveGroupGoal) (code : Z)
  | EvPublish (o : CollisionObject)
  | EvSleep (d : Q)
  | EvLog (level : LogLevel) (msg : string).

(** The exceptions a run can end in.  [DanglingReference] stands for a heap
    location that was never allocated; no run of the source reaches it. *)
Inductive Exn := AttributeError | IndexError | DanglingReference.

(** ** The control thread *)

Section Control.

Variable quaternion_from_euler : Q -> Q -> Q -> Quaternion.
(** [chess_utilities.SQUARE_SIZE] and [chess_utilities.castling_extras]. *)
Variable SQUARE_SIZE : Q.
Variable castling_extras : gmap string string.
Context {W : Type} `{Platform W}.

(** The process state: the heap, the outside, the tracker's lists,
    [ArmPlanner.success], and a record of every call that left the
    process (kept for the statements only; the code never reads it). *)
Record State := {
  heap : Heap;
  world : W;
  objects : ObjectManager;
  success : bool;
  trace : list Event }.

(** How a computation ends: it returns, it raises, or the bound on waits and
    recursion is used up before it does either. *)
Inductive Result (A : Type) :=
  | Ret (a : A) (st : State)
  | Raise (e : Exn) (st : State)
  | OutOfFuel.
Arguments Ret {A} _ _.
Arguments Raise {A} _ _.
Arguments OutOfFuel {A}.

Definition M (A : Type) := State -> Result A.

Definition ret {A} (a : A) : M A := fun st => Ret a st.
Definition raise {A} (e : Exn) : M A := fun st => Raise e st.
Definition bind {A B} (m : M A) (k : A -> M B) : M B :=
  fun st =>
    match m st with
    | Ret a st1 => k a st1
    | Raise e st1 => Raise e st1
    | OutOfFuel => OutOfFuel
    end.

Notation "'let*' x ':=' m 'in' k" := (bind m (fun x => k))
  (at level 10, x pattern, m at level 100, k at level 200).
Notation "m1 ';;' m2" := (bind m1 (fun _ => m2))
  (at level 100, m2 at level 200, right associativity).

Definition set_heap (h : Heap) (st : State) : State :=
  {| heap := h; world := world st; objects := objects st;
     success := success st; trace := trace st |}.
Definition set_world (w : W) (st : State) : State :=
  {| heap := heap st; world := w; objects := objects st;
     success := success st; trace := trace st |}.
Definition set_objects (om : ObjectManager) (st : State) : State :=
  {| heap := heap st; world := world st; objects := om;
     success := success st; trace := trace st |}.
Definition set_success (b : bool) (st : State) : State :=
  {| heap := heap st; world := world st; objects := objects st;
     success := b; trace := trace st |}.
Definition record (e : Event) (st : State) : State :=
  {| heap := heap st; world := world st; objects := objects st;
     success := success st; trace := trace st ++ [e] |}.

Definition log (level : LogLevel) (msg : string) : M unit :=
  fun st => Ret tt (record (EvLog level msg) st).
Definition rospy_now : M Q := fun st => Ret (time_now (world st)) st.
Definition rospy_sleep (d : Q) : M unit :=
  fun st => Ret tt (record (EvSleep d) (set_world (sleep d (world st)) st)).
Definition pub_publish (o : CollisionObject) : M unit :=
  fun st => Ret tt (record (EvPublish o) (set_world (publish o (world st)) st)).
Definition listener_transformPose (frame : string) (ps : PoseStamped) : M PoseStamped :=
  fun st => Ret (transformPose frame ps (world st)) st.
Definition new_PoseStamped (ps : PoseStamped) : M loc :=
  fun st => let '(l, h) := alloc_pose ps (heap st) in Ret l (set_heap h st).

(** *** PickupManager and PlaceManager *)

Record PickupManager := { pick_group : string; pick_effector : string }.
Record PlaceManager := { place_group : string; place_effector : string }.

Definition PickupGoal_of (self : PickupManager) (name : string)
    (grasp : Grasp PoseStamped) : PickupGoal :=
  {| target_name := name;
     pick_group_name := pick_group self;
     end_effector := pick_effector self;
     possible_grasps := [grasp];
     pick_support_surface_name := "table";
     pick_allow_gripper_support_collision := true;
     attached_object_touch_links := [];
     pick_allowed_planning_time := 30.0;
     pick_plan_only := PLAN_ONLY |}.

Definition PlaceGoal_of (self : PlaceManager) (name : string)
    (location : PlaceLocation PoseStamped) : PlaceGoal :=
  {| place_group_name := place_group self;
     attached_object_name := name;
     place_locations := [location];
     place_support_surface_name := "table";
     place_allow_gripper_support_collision := true;
     place_allowed_planning_time := 30.0;
     place_plan_only := PLAN_ONLY |}.

(** The [for grasp in getGrasps(pose_stamped)] loop; [n] bounds the
    [next()] calls and [pickup] passes the generator's own size. *)
Fixpoint pickup_loop (n : nat) (self : PickupManager) (name : string)
    (gen : GraspGen) (i : nat) : M bool :=
  match n with
  | O => fun _ => OutOfFuel
  | S n' => fun st =>
      match getGrasps_next quaternion_from_euler gen (heap st) with
      | None => Raise DanglingReference st
      | Some (None, _, h1) => Ret false (set_heap h1 st)
      | Some (Some lg, gen', h1) =>
          match read_grasp h1 lg with
          | None => Raise DanglingReference st
          | Some grasp =>
              let g := PickupGoal_of self name grasp in
              let '(code, w1) := pickup_action g (world st) in
              let st1 := record (EvPickup g code) (set_world w1 (set_heap h1 st)) in
              if (code =? 1)%Z then
                Ret true (record (EvLog LogInfo "Pick succeeded") st1)
              else
                pickup_loop n' self name gen' (S i)
                  (record (EvLog LogInfo ("Failed Pick attempt " +:+ pretty i)) st1)
          end
      end
  end.

Definition pickup (self : PickupManager) (name : string) (pose_stamped : loc) : M bool :=
  pickup_loop (grasp_gen_size (getGrasps pose_stamped)) self name
              (getGrasps pose_stamped) 1.

Fixpoint place_loop (n : nat) (self : PlaceManager) (name : string)
    (gen : PlaceGen) (i : nat) : M bool :=
  match n with
  | O => fun _ => OutOfFuel
  | S n' => fun st =>
      match getPlaceLocations_next quaternion_from_euler gen (heap st) with
      | None => Raise DanglingReference st
      | Some (None, _, h1) => Ret false (set_heap h1 st)
      | Some (Some ll, gen', h1) =>
          match read_place h1 ll with
          | None => Raise DanglingReference st
          | Some location =>
              let g := PlaceGoal_of self name location in
              let '(code, w1) := place_action g (world st) in
              let st1 := record (EvPlace g code) (set_world w1 (set_heap h1 st)) in
              if (code =? 1)%Z then
                Ret true (record (EvLog LogInfo "Place succeeded") st1)
              else
                place_loop n' self name gen' (S i)
                  (record (EvLog LogInfo ("Failed place attempt " +:+ pretty i)) st1)
          end
      end
  end.

Definition place (self : PlaceManager) (name : string) (pose_stamped : loc) : M bool :=
  place_loop (place_gen_size (getPlaceLocations pose_stamped)) self name
             (getPlaceLocations pose_stamped) 1.

(** *** MotionManager *)

(** [for i in range(len(joints))]: one constraint per joint name;
    [positions[i]] past the end of [positions] is an [IndexError]. *)
Fixpoint joint_constraints (joints : list string) (positions : list Q) (tolerance : Q)
  : option (list JointConstraint) :=
  match joints, positions with
  | [], _ => Some []
  | _ :: _, [] => None
  | j :: joints', p :: positions' =>
      cons {| joint_name := j; joint_position := p;
              tolerance_above := tolerance; tolerance_below := tolerance;
              weight := 1.0 |}
        <$> joint_constraints joints' positions' tolerance
  end.

Definition moveToJointPosition (group : string) (joints : list string)
    (positions : list Q) (tolerance : Q) : M Z :=
  match joint_constraints joints positions tolerance with
  | None => raise IndexError
  | Some c1 => fun st =>
      let g := {| goal_constraints := [c1];
                  move_group_name := group;
                  num_planning_attempts := 1;
                  move_allowed_planning_time := 15.0;
                  move_plan_only := PLAN_ONLY;
                  look_around := false;
                  replan := false |} in
      let '(code, w1) := move_group_action g (world st) in
      Ret code (record (EvMoveGroup g code) (set_world w1 st))
  end.

(** *** ObjectManager against the feed *)

(** The subscriber thread runs [sceneCb] under the mutex whenever a scene
    arrives; the control thread sees the lists only in
    [getKnownCollisionObjects], also under the mutex, so every scene that
    arrived since the last look is applied just before this one. *)
Definition getKnownCollisionObjects : M (list string) :=
  fun st =>
    let '(msgs, w1) := scene_feed (world st) in
    let om := foldl sceneCb (objects st) msgs in
    Ret (om_collision om) (set_objects om (set_world w1 st)).

Definition getKnownAttachedObjects : M (list string) :=
  fun st =>
    let '(msgs, w1) := scene_feed (world st) in
    let om := foldl sceneCb (objects st) msgs in
    Ret (om_attached om) (set_objects om (set_world w1 st)).

(** [while not name in self.getKnownCollisionObjects(): ...] *)
Fixpoint addBox_wait (n : nat) (name : string) (o : CollisionObject) : M unit :=
  match n with
  | O => fun _ => OutOfFuel
  | S n' =>
      let* known := getKnownCollisionObjects in
      if bool_decide (name ∈ known) then ret tt
      else
        log LogDebug "Waiting for object to add";;
        pub_publish o;;
        rospy_sleep 1.0;;
        addBox_wait n' name o
  end.

Definition addBox (n : nat) (fixed_frame name : string)
    (size_x size_y size_z x y z : Q) : M unit :=
  let* t := rospy_now in
  let o := {| object_header := {| stamp := t; frame_id := fixed_frame |};
              object_id := name;
              primitives := [{| primitive_type := BOX;
                                dimensions := [size_x; size_y; size_z] |}];
              primitive_poses :=
                [{| position := {| point_x := x; point_y := y; point_z := z |};
                    orientation := {| quat_x := 0; quat_y := 0; quat_z := 0;
                                      quat_w := 1.0 |} |}];
              operation := ADD |} in
  pub_publish o;;
  addBox_wait n name o.

Definition addCube (n : nat) (fixed_frame name : string) (size x y z : Q) : M unit :=
  addBox n fixed_frame name size size size x y z.

(** [while name in self.getKnownCollisionObjects(): ...] *)
Fixpoint remove_wait (n : nat) (name : string) (o : CollisionObject) : M unit :=
  match n with
  | O => fun _ => OutOfFuel
  | S n' =>
      let* known := getKnownCollisionObjects in
      if bool_decide (name ∈ known) then
        log LogDebug "Waiting for object to remove";;
        pub_publish o;;
        rospy_sleep 1.0;;
        remove_wait n' name o
      else ret tt
  end.

Definition remove (n : nat) (fixed_frame name : string) : M unit :=
  let* t := rospy_now in
  let o := {| object_header := {| stamp := t; frame_id := fixed_frame |};
              object_id := name;
              primitives := [];
              primitive_poses := [];
              operation := REMOVE |} in
  pub_publish o;;
  remove_wait n name o.

(** *** ArmPlanner *)

Definition arm_group : string := "Arm".
Definition gripper_group : string := "Gripper".
Definition BOARD_THICKNESS : Q := 0.1.
Definition CHESS_BOARD_FRAME : string := "chess_board".

Definition arm_pick : PickupManager :=
  {| pick_group := arm_group; pick_effector := gripper_group |}.
Definition arm_place : PlaceManager :=
  {| place_group := arm_group; place_effector := gripper_group |}.

Definition tuck : M unit :=
  moveToJointPosition arm_group joint_names joints_tucked 0.01;; ret tt.

Definition untuck : M unit :=
  moveToJointPosition arm_group joint_names joints_untucked 0.01;; ret tt.

Definition board_pose (t x y z : Q) : PoseStamped :=
  {| header := {| stamp := t; frame_id := CHESS_BOARD_FRAME |};
     pose := {| position := {| point_x := x; point_y := y; point_z := z |};
                orientation := {| quat_x := 0.0; quat_y := 0.0; quat_z := 0.0;
                                  quat_w := 1.0 |} |} |}.

Definition move_piece (n : nat) (start_pose end_pose : Pose) : M bool :=
  (* update table *)
  log LogInfo "Updating table position";;
  remove n FIXED_FRAME "table";;
  let* t := rospy_now in
  let p := board_pose (t - 1.0) (SQUARE_SIZE * 4) (SQUARE_SIZE * 4)
                      (- BOARD_THICKNESS / 2.0) in
  let* pt := listener_transformPose FIXED_FRAME p in
  addBox n FIXED_FRAME "table" (SQUARE_SIZE * 8) (SQUARE_SIZE * 8) BOARD_THICKNESS
         (point_x (position (pose pt))) (point_y (position (pose pt)))
         (point_z (position (pose pt)));;
  (* remove piece for good measure *)
  log LogInfo "Updating piece position";;
  remove n FIXED_FRAME "piece";;
  (* insert piece *)
  let* t := rospy_now in
  let p := board_pose (t - 1.0) (point_x (position start_pose))
                      (point_y (position start_pose)) 0.03 in
  let* pt := listener_transformPose FIXED_FRAME p in
  addCube n FIXED_FRAME "piece" 0.015
          (point_x (position (pose pt))) (point_y (position (pose pt)))
          (point_z (position (pose pt)));;
  (* pick it up *)
  log LogInfo "Picking piece";;
  let* pt_ref := new_PoseStamped pt in
  let* picked := pickup arm_pick "piece" pt_ref in
  if negb picked then ret false
  else
    rospy_sleep 1.0;;
    (* put it down *)
    log LogInfo "Placing piece";;
    let* t := rospy_now in
    let p := board_pose (t - 1.0) (point_x (position end_pose))
                        (point_y (position end_pose)) 0.03 in
    let* pt := listener_transformPose FIXED_FRAME p in
    let* pt_ref := new_PoseStamped pt in
    place arm_place "piece" pt_ref;;
    ret true.

Definition getPose (col rank : Z) (board : Board) (z : Q) : Pose :=
  match side board with
  | WHITE =>
      {| position := {| point_x := (inject_Z col * SQUARE_SIZE) + SQUARE_SIZE / 2;
                        point_y := (inject_Z (rank - 1) * SQUARE_SIZE) + SQUARE_SIZE / 2;
                        point_z := z |};
         orientation := zero_quaternion |}
  | _ =>
      {| position := {| point_x := (inject_Z (7 - col) * SQUARE_SIZE) + SQUARE_SIZE / 2;
                        point_y := (inject_Z (8 - rank) * SQUARE_SIZE) + SQUARE_SIZE / 2;
                        point_z := z |};
         orientation := zero_quaternion |}
  end.

Definition set_failed : M unit := fun st => Ret tt (set_success false st).

(** [fr.header], [fr.pose] on the piece of the source square: an
    [AttributeError] when the square is empty ([fr] is [None]). *)
Definition attr_of (fr : option ChessPiece) : M ChessPiece :=
  match fr with
  | Some piece => ret piece
  | None => raise AttributeError
  end.

(** [n] bounds the depth of the recursion through [castling_extras] and the
    iterations of every wait on the feed. *)
Fixpoint execute (n : nat) (move : string) (board : Board) : M (option Pose) :=
  match n with
  | O => fun _ => OutOfFuel
  | S n' =>
      (* get info about move *)
      let '(col_f, rank_f) := toPosition board (String.substring 0 2 move) in
      let '(col_t, rank_t) :=
        toPosition board (String.substring 2 (String.length move - 2) move) in
      let fr := getPiece board col_f rank_f in
      let to := getPiece board col_t rank_t in
      let primary : M (option Pose) :=
        let* fr_piece := attr_of fr in
        let to_pose := getPose col_t rank_t board (point_z (position (piece_pose fr_piece))) in
        let* moved := move_piece n' (piece_pose fr_piece) to_pose in
        if negb moved then
          log LogErr "Failed to move my piece";;
          set_failed;;
          tuck;;
          ret None
        else
          match castling_extras !! move with
          | Some extra =>
              let* r := execute n' extra board in
              match r with
              | None => log LogErr "Failed to carry out castling extra"
              | Some _ => ret tt
              end
          | None => ret tt
          end;;
          tuck;;
          ret (Some to_pose) in
      (* is this a capture? *)
      match to with
      | Some to_piece =>
          let* fr_piece := attr_of fr in
          let off_board :=
            {| position := {| point_x := -2 * SQUARE_SIZE;
                              point_y := SQUARE_SIZE;
                              point_z := point_z (position (piece_pose fr_piece)) |};
               orientation := zero_quaternion |} in
          let* moved := move_piece n' (piece_pose to_piece) off_board in
          if negb moved then
            log LogErr "Failed to move captured piece";;
            set_failed;;
            tuck;;
            ret None
          else primary
      | None => primary
      end
  end.

End Control.

Arguments State W : clear implicits.
Arguments Result W A : clear implicits.
Arguments M W A : clear implicits.
Arguments Ret {W A} _ _.
Arguments Raise {W A} _ _.
Arguments OutOfFuel {W A}.

Notation "'let*' x ':=' m 'in' k" := (bind m (fun x => k))
  (at level 10, x pattern, m at level 100, k at level 200).
Notation "m1 ';;' m2" := (bind m1 (fun _ => m2))
  (at level 100, m2 at level 200, right associativity).

(** ** MotionManager as an object

    [moveToPose] is the one method of the file that reads an attribute its
    constructor never binds, so the instance is modelled by the names
    [__init__] binds on [self] and what they hold.  [listener == None] or
    not, [_listener] ends up holding a TF listener. *)
Inductive PyValue :=
  | PyStr (s : string)
  | PyActionClient (ns : string)
  | PyListener.

Definition MotionManager_init (group frame : string) : gmap string PyValue :=
  {[ "_group" := PyStr group;
     "_fixed_frame" := PyStr frame;
     "_action" := PyActionClient "move_group";
     "_listener" := PyListener ]}.

Section Attributes.
Context {W : Type} `{Platform W}.

(** [self.name]: an [AttributeError] when the instance has no such name
    (the class binds none and defines no [__getattr__]). *)
Definition getattr (self : gmap string PyValue) (name : string) : M W PyValue :=
  match self !! name with
  | Some v => ret v
  | None => raise AttributeError
  end.

(** [MotionManager.moveToPose].  After [g = MoveGroupGoal()], which touches
    nothing, the first thing evaluated is [self.listener]; [rest] is
    everything the method goes on to do with that attribute in hand. *)
Definition moveToPose (rest : PyValue -> PoseStamped -> M W Z)
    (self : gmap string PyValue) (pose_stamped : PoseStamped) : M W Z :=
  let* listener := getattr self "listener" in
  rest listener pose_stamped.

End Attributes.

(** ** [getPose] in the arithmetic of the source

    [getPose] computes in Python floats.  Here the four float operations it
    uses are left open: [of_int] is the conversion Python applies to an
    [int] operand, the others are [+], [*] and [/] on floats.  IEEE doubles
    are one instance, the exact rationals of [getPose] above another; what
    holds for every instance holds for the doubles of a run.  Of the pose
    only the position is assigned, so the position is what is returned. *)
Class FloatOps (F : Type) := {
  of_int : Z -> F;
  fadd : F -> F -> F;
  fmul : F -> F -> F;
  fdiv : F -> F -> F }.

Record PositionOf (F : Type) := { pos_x : F; pos_y : F; pos_z : F }.
Arguments pos_x {F} _.
Arguments pos_y {F} _.
Arguments pos_z {F} _.

Definition getPose_with {F : Type} `{FloatOps F} (SQUARE_SIZE : F) (col rank : Z)
    (board : Board) (z : F) : PositionOf F :=
  match side board with
  | WHITE =>
      {| pos_x := fadd (fmul (of_int col) SQUARE_SIZE) (fdiv SQUARE_SIZE (of_int 2));
         pos_y := fadd (fmul (of_int (rank - 1)) SQUARE_SIZE)
                       (fdiv SQUARE_SIZE (of_int 2));
         pos_z := z |}
  | _ =>
      {| pos_x := fadd (fmul (of_int (7 - col)) SQUARE_SIZE)
                       (fdiv SQUARE_SIZE (of_int 2));
         pos_y := fadd (fmul (of_int (8 - rank)) SQUARE_SIZE)
                       (fdiv SQUARE_SIZE (of_int 2));
         pos_z := z |}
  end.

(** The exact rationals as an instance: [getPose] is [getPose_with] there. *)
#[export] Instance Q_ops : FloatOps Q := {|
  of_int := inject_Z; fadd := Qplus; fmul := Qmult; fdiv := Qdiv |}.

(** The same board seen from the other side. *)
Definition with_side (s : Side) (board : Board) : Board :=
  {| side := s; toPosition := toPosition board; getPiece := getPiece board |}.

(** IEEE binary64, the floats of CPython, as an instance.  An [int] operand
    is converted by [of_uint63], exactly up to [2^53] in size and rounded
    above; beyond 63 bits the conversion here wraps, where Python rounds or
    raises [OverflowError], and no column or rank goes there. *)
Definition float_of_int (z : Z) : float :=
  match z with
  | Zneg p => PrimFloat.opp (PrimFloat.of_uint63 (Uint63.of_Z (Zpos p)))
  | _ => PrimFloat.of_uint63 (Uint63.of_Z z)
  end.
#[export] Instance double_ops : FloatOps float := {|
  of_int := float_of_int; fadd := PrimFloat.add; fmul := PrimFloat.mul;
  fdiv := PrimFloat.div |}.
(** The square size of the runs, [0.05715], as the double Python reads. *)
Definition double_SQUARE_SIZE : float := 0x1.d42c3c9eecbfbp-5%float.
(** ** A scripted platform

    A platform small enough to run: the scene monitor reports every published
    object once, at the next look; TF is the identity between frames; the
    clock advances only in [sleep]; the pickup and place servers answer from
    a script, one code per goal, and [-1] (planning failed) once the script
    is used up. *)

Record SimWorld := {
  sim_clock : Q;
  sim_outbox : list CollisionObject;
  sim_pick_codes : list Z;
  sim_place_codes : list Z }.

Definition sim_pickup (g : PickupGoal) (w : SimWorld) : Z * SimWorld :=
  match sim_pick_codes w with
  | [] => ((-1)%Z, w)
  | c :: cs => (c, {| sim_clock := sim_clock w; sim_outbox := sim_outbox w;
                      sim_pick_codes := cs; sim_place_codes := sim_place_codes w |})
  end.

Definition sim_place (g : PlaceGoal) (w : SimWorld) : Z * SimWorld :=
  match sim_place_codes w with
  | [] => ((-1)%Z, w)
  | c :: cs => (c, {| sim_clock := sim_clock w; sim_outbox := sim_outbox w;
                      sim_pick_codes := sim_pick_codes w; sim_place_codes := cs |})
  end.

Definition sim_feed (w : SimWorld) : list PlanningScene * SimWorld :=
  match sim_outbox w with
  | [] => ([], w)
  | objs => ([{| world_collision_objects := objs; attached_collision_objects := [] |}],
             {| sim_clock := sim_clock w; sim_outbox := [];
                sim_pick_codes := sim_pick_codes w;
                sim_place_codes := sim_place_codes w |})
  end.

#[export] Instance sim_platform : Platform SimWorld := {|
  pickup_action := sim_pickup;
  place_action := sim_place;
  move_group_action := fun _ w => (1%Z, w);
  transformPose := fun frame ps _ =>
    {| header := {| stamp := stamp (header ps); frame_id := frame |}; pose := pose ps |};
  time_now := sim_clock;
  publish := fun o w =>
    {| sim_clock := sim_clock w; sim_outbox := sim_outbox w ++ [o];
       sim_pick_codes := sim_pick_codes w; sim_place_codes := sim_place_codes w |};
  sleep := fun d w =>
    {| sim_clock := sim_clock w + d; sim_outbox := sim_outbox w;
       sim_pick_codes := sim_pick_codes w; sim_place_codes := sim_place_codes w |};
  scene_feed := sim_feed |}.

Definition sim_state (picks places : list Z) : State SimWorld :=
  {| heap := empty_heap;
     world := {| sim_clock := 10; sim_outbox := [];
                 sim_pick_codes := picks; sim_place_codes := places |};
     objects := new_ObjectManager;
     success := true;
     trace := [] |}.

(** The constants of [chess_utilities] for the runs: the square size the
    source's own test code uses for the board. *)
Definition sim_SQUARE_SIZE : Q := 0.05715.
Definition sim_castling_extras : gmap string string :=
  {[ "e1g1" := "h1f1"; "e1c1" := "a1d1"; "e8g8" := "h8f8"; "e8c8" := "a8d8" ]}.

(** A rational stand-in for [quaternion_from_euler], used only to run the
    model: it keeps the three angles apart, which is all a run needs. *)
Definition sim_quaternion (roll pitch yaw : Q) : Quaternion :=
  {| quat_x := roll; quat_y := pitch; quat_z := yaw; quat_w := 1 |}.

Definition square_of (sq : string) : Z * Z :=
  match sq with
  | String c (String r _) =>
      (Z.of_nat (nat_of_ascii c) - 97, Z.of_nat (nat_of_ascii r) - 48)%Z
  | _ => (0, 0)%Z
  end.

Definition sim_piece (col rank : Z) : ChessPiece :=
  {| piece_header := {| stamp := 0; frame_id := "chess_board" |};
     piece_pose :=
       {| position := {| point_x := sim_SQUARE_SIZE * (0.5 + inject_Z col);
                         point_y := sim_SQUARE_SIZE * (0.5 + inject_Z (rank - 1));
                         point_z := 0.03 |};
          orientation := zero_quaternion |} |}.

(** A board with pieces on the listed squares and white to move. *)
Definition sim_board (occupied : list (Z * Z)) : Board :=
  {| side := WHITE;
     toPosition := square_of;
     getPiece := fun col rank =>
       if bool_decide ((col, rank) ∈ occupied) then Some (sim_piece col rank) else None |}.

Abbreviation sim_execute :=
  (execute (W:=SimWorld) sim_quaternion sim_SQUARE_SIZE sim_castling_extras).

Definition sim_pose : PoseStamped :=
  {| header := {| stamp := 9; frame_id := FIXED_FRAME |};
     pose := {| position := {| point_x := 0.3; point_y := 0.1; point_z := 0.03 |};
                orientation := {| quat_x := 0; quat_y := 0; quat_z := 0; quat_w := 1 |} |} |}.

(** A platform whose scene feed never delivers anything. *)
#[export] Instance silent_platform : Platform unit := {|
  pickup_action := fun _ w => ((-1)%Z, w);
  place_action := fun _ w => ((-1)%Z, w);
  move_group_action := fun _ w => (1%Z, w);
  transformPose := fun frame ps _ => ps;
  time_now := fun _ => 0;
  publish := fun _ w => w;
  sleep := fun _ w => w;
  scene_feed := fun w => ([], w) |}.

(** The state a run ends in, whatever way it ends. *)
Definition final_state {A} (r : Result SimWorld A) (otherwise : State SimWorld)
  : State SimWorld :=
  match r with
  | Ret _ st => st
  | Raise _ st => st
  | OutOfFuel => otherwise
  end.

(** The same state with fresh scripts for the two servers. *)
Definition rescript (picks places : list Z) (st : State SimWorld) : State SimWorld :=
  set_world {| sim_clock := sim_clock (world st); sim_outbox := sim_outbox (world st);
               sim_pick_codes := picks; sim_place_codes := places |} st.

(** * Vocabulary of the statements *)

(** ** The tracker *)

Definition count (x : string) (l : list string) : nat :=
  length (filter (λ y, y = x) l).

(** What one event does to the number of entries equal to [x]. *)
Definition event_effect (x : string) (k : nat) (obj : CollisionObject) : nat :=
  match operation obj with
  | ADD => if decide (object_id obj = x) then S k else k
  | REMOVE => if decide (object_id obj = x) then pred k else k
  | _ => k
  end.

Definition scene_of (objs : list CollisionObject) (att : list AttachedCollisionObject)
  : PlanningScene :=
  {| world_collision_objects := objs; attached_collision_objects := att |}.

(** An object of the feed with the given operation and identifier. *)
Definition as_event (op : Operation) (x : string) (obj : CollisionObject)
  : CollisionObject :=
  {| object_header := object_header obj;
     object_id := x;
     primitives := primitives obj;
     primitive_poses := primitive_poses obj;
     operation := op |}.

(** The free-object set as the specification has it: an add event puts the
    identifier in, a remove event takes it out. *)
Definition free_set_event (s : gset string) (obj : CollisionObject) : gset string :=
  match operation obj with
  | ADD => s ∪ {[object_id obj]}
  | REMOVE => s ∖ {[object_id obj]}
  | _ => s
  end.

(** Whether the two sides' x and y coordinates of a square add up to
    [8*SQUARE_SIZE] in doubles. *)
Definition sums_to_board (S : float) (board : Board) (square : Z * Z) : bool :=
  let white := getPose_with S square.1 square.2 (with_side WHITE board) 0%float in
  let black := getPose_with S square.1 square.2 (with_side BLACK board) 0%float in
  PrimFloat.eqb (fadd (pos_x white) (pos_x black)) (fmul (of_int 8) S)
  && PrimFloat.eqb (fadd (pos_y white) (pos_y black)) (fmul (of_int 8) S).
(** The 64 squares, by 0-indexed column and rank. *)
Definition squares : list (Z * Z) :=
  c ← Z.of_nat <$> seq 0 8; r ← Z.of_nat <$> seq 1 8; [(c, r)].
(** ** The candidate sequences as values *)

Definition overhead_grasp (qfe : Q -> Q -> Q -> Quaternion) (ps : PoseStamped)
  : Grasp PoseStamped :=
  {| grasp_id := "direct_overhead";
     pre_grasp_posture := getGripperPosture GRIPPER_OPEN;
     grasp_posture := getGripperPosture GRIPPER_CLOSED;
     grasp_pose := with_orientation (qfe 0 1.57 0) ps;
     grasp_quality := 1.0;
     grasp_approach := getGripperTranslation 0.05 0.15 1.0;
     grasp_retreat := getGripperTranslation 0.05 0.15 (-1.0) |}.

Definition tilted_grasp {P} (qfe : Q -> Q -> Q -> Quaternion) (g : Grasp P)
    (ps : PoseStamped) (py : Q * Q) : Grasp PoseStamped :=
  {| grasp_id := tilt_id py.1 py.2;
     pre_grasp_posture := pre_grasp_posture g;
     grasp_posture := grasp_posture g;
     grasp_pose := with_orientation (qfe 0 (1.57 - py.1) py.2) ps;
     grasp_quality := tilt_quality py.1 py.2;
     grasp_approach := grasp_approach g;
     grasp_retreat := grasp_retreat g |}.

Definition grasp_values (qfe : Q -> Q -> Q -> Quaternion) (ps : PoseStamped)
  : list (Grasp PoseStamped) :=
  overhead_grasp qfe ps :: (tilted_grasp qfe (overhead_grasp qfe ps) ps <$> tilts).

Definition overhead_place (qfe : Q -> Q -> Q -> Quaternion) (ps : PoseStamped)
  : PlaceLocation PoseStamped :=
  {| place_id := "direct_overhead";
     place_pose := with_orientation (qfe 0 1.57 0) ps;
     place_approach := getGripperTranslation 0.05 0.15 1.0;
     place_retreat := getGripperTranslation 0.05 0.15 (-1.0);
     post_place_posture := getGripperPosture GRIPPER_OPEN |}.

Definition tilted_place {P} (qfe : Q -> Q -> Q -> Quaternion) (l : PlaceLocation P)
    (ps : PoseStamped) (py : Q * Q) : PlaceLocation PoseStamped :=
  {| place_id := tilt_id py.1 py.2;
     place_pose := with_orientation (qfe 0 (1.57 - py.1) py.2) ps;
     place_approach := place_approach l;
     place_retreat := place_retreat l;
     post_place_posture := post_place_posture l |}.

Definition place_values (qfe : Q -> Q -> Q -> Quaternion) (ps : PoseStamped)
  : list (PlaceLocation PoseStamped) :=
  overhead_place qfe ps :: (tilted_place qfe (overhead_place qfe ps) ps <$> tilts).

(** The orientation the pose is left with after the iterations [todo]. *)
Definition last_orientation (qfe : Q -> Q -> Q -> Quaternion) (todo : list (Q * Q))
    (q0 : Quaternion) : Quaternion :=
  foldl (λ _ py, qfe 0 (1.57 - py.1) py.2) q0 todo.

(** [list(getGrasps(pose_stamped))]: the references a run yields, none of
    them read before the run is over. *)
Fixpoint drain_grasps (qfe : Q -> Q -> Q -> Quaternion) (n : nat) (gen : GraspGen)
    (h : Heap) : option (list loc * Heap) :=
  match n with
  | O => None
  | S n' =>
      '(r, gen', h1) ← getGrasps_next qfe gen h;
      match r with
      | None => Some ([], h1)
      | Some lg => '(out, h2) ← drain_grasps qfe n' gen' h1; Some (lg :: out, h2)
      end
  end.

(** What a generator will yield from here on, each candidate read when it is
    yielded. *)
Definition grasp_future (qfe : Q -> Q -> Q -> Quaternion) (gen : GraspGen) (h : Heap)
  : option (list (Grasp PoseStamped)) :=
  match gen with
  | GraspStart lp => ps ← poses h !! lp; Some (grasp_values qfe ps)
  | GraspLoop lg todo =>
      g ← grasps h !! lg;
      ps ← poses h !! grasp_pose g;
      Some (tilted_grasp qfe g ps <$> todo)
  | GraspDone => Some []
  end.

(** Two generators do not share their candidate object. *)
Definition separate_grasps (ga gb : GraspGen) : Prop :=
  match ga, gb with
  | GraspLoop la _, GraspLoop lb _ => la ≠ lb
  | _, _ => True
  end.

(** Two callers advance their generators in the order [sched] ([true] is the
    first caller), each reading a candidate as it is yielded. *)
Fixpoint interleave_grasps (qfe : Q -> Q -> Q -> Quaternion) (sched : list bool)
    (ga gb : GraspGen) (h : Heap)
  : option (list (Grasp PoseStamped) * list (Grasp PoseStamped) * Heap) :=
  match sched with
  | [] => Some ([], [], h)
  | first :: sched' =>
      '(r, gen', h1) ← getGrasps_next qfe (if first then ga else gb) h;
      let ga' := if first then gen' else ga in
      let gb' := if first then gb else gen' in
      match r with
      | None => interleave_grasps qfe sched' ga' gb' h1
      | Some lg =>
          g ← read_grasp h1 lg;
          '(oa, ob, h2) ← interleave_grasps qfe sched' ga' gb' h1;
          Some (if first then (g :: oa, ob, h2) else (oa, g :: ob, h2))
      end
  end.

Definition turns (who : bool) (sched : list bool) : nat :=
  length (filter (λ b, b = who) sched).

(** [list(getPlaceLocations(pose_stamped))]: the references a run yields, none of
    them read before the run is over. *)
Fixpoint drain_places (qfe : Q -> Q -> Q -> Quaternion) (n : nat) (gen : PlaceGen)
    (h : Heap) : option (list loc * Heap) :=
  match n with
  | O => None
  | S n' =>
      '(r, gen', h1) ← getPlaceLocations_next qfe gen h;
      match r with
      | None => Some ([], h1)
      | Some lg => '(out, h2) ← drain_places qfe n' gen' h1; Some (lg :: out, h2)
      end
  end.

(** What a generator will yield from here on, each candidate read when it is
    yielded. *)
Definition place_future (qfe : Q -> Q -> Q -> Quaternion) (gen : PlaceGen) (h : Heap)
  : option (list (PlaceLocation PoseStamped)) :=
  match gen with
  | PlaceStart lp => ps ← poses h !! lp; Some (place_values qfe ps)
  | PlaceLoop lg todo =>
      g ← places h !! lg;
      ps ← poses h !! place_pose g;
      Some (tilted_place qfe g ps <$> todo)
  | PlaceDone => Some []
  end.

(** Two generators do not share their candidate object. *)
Definition separate_places (ga gb : PlaceGen) : Prop :=
  match ga, gb with
  | PlaceLoop la _, PlaceLoop lb _ => la ≠ lb
  | _, _ => True
  end.

(** Two callers advance their generators in the order [sched] ([true] is the
    first caller), each reading a candidate as it is yielded. *)
Fixpoint interleave_places (qfe : Q -> Q -> Q -> Quaternion) (sched : list bool)
    (ga gb : PlaceGen) (h : Heap)
  : option (list (PlaceLocation PoseStamped) * list (PlaceLocation PoseStamped) * Heap) :=
  match sched with
  | [] => Some ([], [], h)
  | first :: sched' =>
      '(r, gen', h1) ← getPlaceLocations_next qfe (if first then ga else gb) h;
      let ga' := if first then gen' else ga in
      let gb' := if first then gb else gen' in
      match r with
      | None => interleave_places qfe sched' ga' gb' h1
      | Some lg =>
          g ← read_place h1 lg;
          '(oa, ob, h2) ← interleave_places qfe sched' ga' gb' h1;
          Some (if first then (g :: oa, ob, h2) else (oa, g :: ob, h2))
      end
  end.

Definition candidate_ids : list string :=
  ["direct_overhead";
   "0.05+-1.57"; "0.05+-0.78"; "0.05+0.0"; "0.05+0.78"; "0.05+1.57";
   "0.1+-1.57"; "0.1+-0.78"; "0.1+0.0"; "0.1+0.78"; "0.1+1.57";
   "0.2+-1.57"; "0.2+-0.78"; "0.2+0.0"; "0.2+0.78"; "0.2+1.57";
   "0.4+-1.57"; "0.4+-0.78"; "0.4+0.0"; "0.4+0.78"; "0.4+1.57"].

(** The claim of C7 that a generator leaves the caller's pose as it was,
    for a given [quaternion_from_euler]. *)
Definition input_pose_preserved (qfe : Q -> Q -> Q -> Quaternion) : Prop :=
  ∀ (ps : PoseStamped) (h0 : Heap),
    let '(lp, h) := alloc_pose ps h0 in
    ∀ gs h', grasp_sequence qfe lp h = Some (gs, h') → poses h' !! lp = Some ps.

(** ** Retrying over the candidates *)

Definition pickup_submissions (tr : list Event) : list PickupGoal :=
  omap (λ e, match e with EvPickup g _ => Some g | _ => None end) tr.

Definition place_submissions (tr : list Event) : list PlaceGoal :=
  omap (λ e, match e with EvPlace g _ => Some g | _ => None end) tr.

Section RetrySpec.
Context {W : Type} `{Platform W}.

(** The codes the servers answer when the goals are submitted in order. *)
Fixpoint pickup_codes (goals : list PickupGoal) (w : W) : list Z :=
  match goals with
  | [] => []
  | g :: goals' =>
      let '(code, w1) := pickup_action g w in code :: pickup_codes goals' w1
  end.

Fixpoint place_codes (goals : list PlaceGoal) (w : W) : list Z :=
  match goals with
  | [] => []
  | g :: goals' =>
      let '(code, w1) := place_action g w in code :: place_codes goals' w1
  end.

(** The retry executor of the specification, over a list of goals: submit
    them in order and stop at the first answer 1.  It gives the result,
    what was sent and logged, and the world afterwards. *)
Fixpoint retry_pickups (i : nat) (goals : list PickupGoal) (w : W)
  : bool * list Event * W :=
  match goals with
  | [] => (false, [], w)
  | g :: goals' =>
      let '(code, w1) := pickup_action g w in
      if (code =? 1)%Z then
        (true, [EvPickup g code; EvLog LogInfo "Pick succeeded"], w1)
      else
        let '(b, evs, w2) := retry_pickups (S i) goals' w1 in
        (b, EvPickup g code
              :: EvLog LogInfo ("Failed Pick attempt " +:+ pretty i) :: evs, w2)
  end.

Fixpoint retry_places (i : nat) (goals : list PlaceGoal) (w : W)
  : bool * list Event * W :=
  match goals with
  | [] => (false, [], w)
  | g :: goals' =>
      let '(code, w1) := place_action g w in
      if (code =? 1)%Z then
        (true, [EvPlace g code; EvLog LogInfo "Place succeeded"], w1)
      else
        let '(b, evs, w2) := retry_places (S i) goals' w1 in
        (b, EvPlace g code
              :: EvLog LogInfo ("Failed place attempt " +:+ pretty i) :: evs, w2)
  end.

(** The state a retry leaves: only the heap, the world and the trace move. *)
Definition after_retry (st : State W) (h : Heap) (evs : list Event) (w : W) : State W :=
  {| heap := h; world := w; objects := objects st; success := success st;
     trace := trace st ++ evs |}.

End RetrySpec.

(** ** The orchestrator *)

Definition tuck_goal : MoveGroupGoal :=
  {| goal_constraints :=
       [zip_with (λ j p, {| joint_name := j; joint_position := p;
                             tolerance_above := 0.01; tolerance_below := 0.01;
                             weight := 1.0 |})
                 joint_names joints_tucked];
     move_group_name := arm_group;
     num_planning_attempts := 1;
     move_allowed_planning_time := 15.0;
     move_plan_only := PLAN_ONLY;
     look_around := false;
     replan := false |}.

Section OrchestratorSpec.
Context {W : Type} `{Platform W}.
Variable qfe : Q -> Q -> Q -> Quaternion.
Variable SQUARE_SIZE : Q.
Variable castling_extras : gmap string string.

(** A computation is steady when a run that returns leaves
    [ArmPlanner.success] as it was and only adds to the trace. *)
Definition steady {A} (m : M W A) : Prop :=
  ∀ st a st', m st = Ret a st' →
    success st' = success st ∧ trace st `prefix_of` trace st'.

(** A computation is falling when a run that returns can only clear
    [ArmPlanner.success], never set it, and only adds to the trace. *)
Definition falling {A} (m : M W A) : Prop :=
  ∀ st a st', m st = Ret a st' →
    (success st' = true → success st = true) ∧ trace st `prefix_of` trace st'.

(** [execute] from [to = ChessPiece()] on: the part both paths reach,
    after a capture and without one; [rec] is the recursive call. *)
Definition primary_move (rec : string -> Board -> M W (option Pose)) (n : nat)
    (move : string) (board : Board) (col_t rank_t : Z) (fr : option ChessPiece)
  : M W (option Pose) :=
  let* fr_piece := attr_of fr in
  let to_pose := getPose SQUARE_SIZE col_t rank_t board
                         (point_z (position (piece_pose fr_piece))) in
  let* moved := move_piece qfe SQUARE_SIZE n (piece_pose fr_piece) to_pose in
  if negb moved then
    log LogErr "Failed to move my piece";; set_failed;; tuck;; ret None
  else
    match castling_extras !! move with
    | Some extra =>
        let* r := rec extra board in
        match r with
        | None => log LogErr "Failed to carry out castling extra"
        | Some _ => ret tt
        end
    | None => ret tt
    end;;
    tuck;;
    ret (Some to_pose).

Definition off_board_pose (fr_piece : ChessPiece) : Pose :=
  {| position := {| point_x := -2 * SQUARE_SIZE;
                    point_y := SQUARE_SIZE;
                    point_z := point_z (position (piece_pose fr_piece)) |};
     orientation := zero_quaternion |}.

End OrchestratorSpec.

Arguments steady W {A} m.
Arguments falling W {A} m.

(** ** Reading a trace *)

Definition place_codes_of (tr : list Event) : list Z :=
  omap (λ e, match e with EvPlace _ code => Some code | _ => None end) tr.

Definition pickup_codes_of (tr : list Event) : list Z :=
  omap (λ e, match e with EvPickup _ code => Some code | _ => None end) tr.

Definition errors_of (tr : list Event) : list string :=
  omap (λ e, match e with EvLog LogErr msg => Some msg | _ => None end) tr.

(** ** Snapshots and waits *)

Definition attached_ids (msg : PlanningScene) : list string :=
  (λ a, object_id (object a)) <$> attached_collision_objects msg.

#[export] Instance Operation_eq_dec : EqDecision Operation.
Proof. solve_decision. Defined.

(** The add events and the remove events of a snapshot. *)
Definition adds (objs : list CollisionObject) : list CollisionObject :=
  filter (λ obj, operation obj = ADD) objs.
Definition removes (objs : list CollisionObject) : list CollisionObject :=
  filter (λ obj, operation obj = REMOVE) objs.

(** The object [addBox] builds when the clock reads [t]. *)
Definition box_object (t : Q) (fixed_frame name : string)
    (size_x size_y size_z x y z : Q) : CollisionObject :=
  {| object_header := {| stamp := t; frame_id := fixed_frame |};
     object_id := name;
     primitives := [{| primitive_type := BOX;
                       dimensions := [size_x; size_y; size_z] |}];
     primitive_poses :=
       [{| position := {| point_x := x; point_y := y; point_z := z |};
           orientation := {| quat_x := 0; quat_y := 0; quat_z := 0;
                             quat_w := 1.0 |} |}];
     operation := ADD |}.

(** The object [remove] builds when the clock reads [t]. *)
Definition removal_object (t : Q) (fixed_frame name : string) : CollisionObject :=
  {| object_header := {| stamp := t; frame_id := fixed_frame |};
     object_id := name;
     primitives := [];
     primitive_poses := [];
     operation := REMOVE |}.

(** [k] rounds of a wait loop: the debug line, the object published again,
    one second of sleep. *)
Definition wait_rounds (k : nat) (msg : string) (o : CollisionObject) : list Event :=
  concat (replicate k [EvLog LogDebug msg; EvPublish o; EvSleep 1.0]).

(** ** Classes of events *)

(** Log lines, sleeps and scene publications. *)
Definition scene_only (e : Event) : bool :=
  match e with
  | EvLog _ _ | EvSleep _ | EvPublish _ => true
  | _ => false
  end.

(** Log lines, sleeps and pickup goals. *)
Definition pick_only (e : Event) : bool :=
  match e with
  | EvLog _ _ | EvSleep _ | EvPickup _ _ => true
  | _ => false
  end.

(** Log lines, sleeps, scene publications and pickup goals: what the first
    half of [move_piece] may add to the trace. *)
Definition scene_or_pick (e : Event) : bool :=
  match e with
  | EvLog _ _ | EvSleep _ | EvPublish _ | EvPickup _ _ => true
  | _ => false
  end.

(** Log lines, sleeps and place goals: what its second half may add. *)
Definition place_only (e : Event) : bool :=
  match e with
  | EvLog _ _ | EvSleep _ | EvPlace _ _ => true
  | _ => false
  end.

Definition info_lines (tr : list Event) : list string :=
  omap (λ e, match e with EvLog LogInfo msg => Some msg | _ => None end) tr.

(** The lines [k] failed attempts leave, numbered from [i]. *)
Definition failure_lines (what : string) (i k : nat) : list string :=
  (λ j, what +:+ pretty j) <$> seq i k.

(** The goal [moveToJointPosition] sends when it gets that far: one
    constraint per joint name, paired with the position of the same index. *)
Definition joint_goal (group : string) (joints : list string) (positions : list Q)
    (tolerance : Q) : MoveGroupGoal :=
  {| goal_constraints :=
       [zip_with (λ j p, {| joint_name := j; joint_position := p;
                             tolerance_above := tolerance;
                             tolerance_below := tolerance;
                             weight := 1.0 |})
                 joints positions];
     move_group_name := group;
     num_planning_attempts := 1;
     move_allowed_planning_time := 15.0;
     move_plan_only := PLAN_ONLY;
     look_around := false;
     replan := false |}.

Section TraceSpec.
Context {W : Type} `{Platform W}.
Variable qfe : Q -> Q -> Q -> Quaternion.

(** The tracker's free-object list as the next look will find it. *)
Definition next_known (st : State W) : list string :=
  om_collision (foldl sceneCb (objects st) (scene_feed (world st)).1).

(** A computation emits [P] when a run that returns adds to the trace only
    events of the class [P]. *)
Definition emits (P : Event -> bool) {A} (m : M W A) : Prop :=
  ∀ st a st', m st = Ret a st' →
    ∃ evs, trace st' = trace st ++ evs ∧ Forall (λ e, P e = true) evs.

(** [m] splits at [R] when a run that returns first adds events of the
    class [P] only and is then in a state from which [R] leads to its
    result. *)
Definition splits (P : Event -> bool) {A} (m : M W A)
    (R : State W -> A -> State W -> Prop) : Prop :=
  ∀ st a st', m st = Ret a st' →
    ∃ st1 evs, trace st1 = trace st ++ evs ∧ Forall (λ e, P e = true) evs
               ∧ R st1 a st'.

(** [move_piece] from [rospy.loginfo('Picking piece')] on, [pt] being the
    transformed pose of the piece. *)
Definition pick_and_place (end_pose : Pose) (pt : PoseStamped) : M W bool :=
  log LogInfo "Picking piece";;
  let* pt_ref := new_PoseStamped pt in
  let* picked := pickup qfe arm_pick "piece" pt_ref in
  if negb picked then ret false
  else
    rospy_sleep 1.0;;
    log LogInfo "Placing piece";;
    let* t := rospy_now in
    let p := board_pose (t - 1.0) (point_x (position end_pose))
                        (point_y (position end_pose)) 0.03 in
    let* pt := listener_transformPose FIXED_FRAME p in
    let* pt_ref := new_PoseStamped pt in
    place qfe arm_place "piece" pt_ref;;
    ret true.

(** The state [tuck] leaves. *)
Definition tucked (st : State W) : State W :=
  record (EvMoveGroup tuck_goal (move_group_action tuck_goal (world st)).1)
         (set_world (move_group_action tuck_goal (world st)).2 st).

End TraceSpec.

Arguments emits W P {A} m.
Arguments splits W P {A} m R.

(** The scene objects a trace shows as published, in order. *)
Definition published (tr : list Event) : list CollisionObject :=
  omap (λ e, match e with EvPublish o => Some o | _ => None end) tr.

Section RaiseSpec.
Context {W : Type} `{Platform W}.

(** A computation raises only [P] when every exception a run of it ends in
    satisfies [P]. *)
Definition raises_only (P : Exn -> Prop) {A} (m : M W A) : Prop :=
  ∀ st e st', m st = Raise e st' → P e.

End RaiseSpec.

Arguments raises_only W P {A} m.

(** A pose at a point, with the orientation a fresh [Pose()] has. *)
Definition position_at (x y z : Q) : Pose :=
  {| position := {| point_x := x; point_y := y; point_z := z |};
     orientation := zero_quaternion |}.

Section SceneSpec.
Context {W : Type} `{Platform W}.
Variable SQUARE_SIZE : Q.

(** The table as [move_piece] adds it when the outside is [w]: the board
    area, [BOARD_THICKNESS] deep, centred under the middle of the board. *)
Definition table_object (w : W) : CollisionObject :=
  let t := time_now w in
  let pt := transformPose FIXED_FRAME
              (board_pose (t - 1.0) (SQUARE_SIZE * 4) (SQUARE_SIZE * 4)
                          (- BOARD_THICKNESS / 2.0)) w in
  box_object t FIXED_FRAME "table" (SQUARE_SIZE * 8) (SQUARE_SIZE * 8) BOARD_THICKNESS
             (point_x (position (pose pt))) (point_y (position (pose pt)))
             (point_z (position (pose pt))).

(** The piece as [move_piece] adds it: a cube of 15 mm over the x and y of
    [start_pose], 30 mm above the board. *)
Definition piece_object (start_pose : Pose) (w : W) : CollisionObject :=
  let t := time_now w in
  let pt := transformPose FIXED_FRAME
              (board_pose (t - 1.0) (point_x (position start_pose))
                          (point_y (position start_pose)) 0.03) w in
  box_object t FIXED_FRAME "piece" 0.015 0.015 0.015
             (point_x (position (pose pt))) (point_y (position (pose pt)))
             (point_z (position (pose pt))).

End SceneSpec.

(** The poses of the grasps, and of the place locations, a trace shows as
    sent, in order. *)
Definition grasp_poses (tr : list Event) : list PoseStamped :=
  pickup_submissions tr ≫= (λ g, grasp_pose <$> possible_grasps g).

Definition place_poses (tr : list Event) : list PoseStamped :=
  place_submissions tr ≫= (λ g, place_pose <$> place_locations g).

(** Two stamped poses at the same point of the same frame and time. *)
Definition same_place (a b : PoseStamped) : Prop :=
  header a = header b ∧ position (pose a) = position (pose b).

Section CalmSpec.
Context {W : Type} `{Platform W}.

(** A computation is calm when a run that returns logs nothing at error
    level. *)
Definition calm {A} (m : M W A) : Prop :=
  ∀ st a st', m st = Ret a st' → errors_of (trace st') = errors_of (trace st).

End CalmSpec.

Arguments calm W {A} m.

(** * Properties *)

(** ** The tracker *)

Lemma count_app x l1 l2 : count x (l1 ++ l2) = (count x l1 + count x l2)%nat.
Proof. unfold count. by rewrite filter_app, length_app. Qed.

Lemma count_cons x a l :
  count x (a :: l) = if decide (a = x) then S (count x l) else count x l.
Proof. unfold count. rewrite filter_cons. by destruct (decide (a = x)). Qed.

Lemma count_pos x l : x ∈ l ↔ (0 < count x l)%nat.
Proof.
  induction l as [|a l IH].
  { unfold count. simpl. split; [by intros ?%elem_of_nil | lia]. }
  rewrite count_cons, elem_of_cons.
  destruct (decide (a = x)) as [->|Hne]; [split; [lia | by left]|].
  rewrite <- IH. split; [intros [?|?]; [congruence | done] | by right].
Qed.

Lemma list_remove_None x l : list_remove x l = None ↔ x ∉ l.
Proof.
  induction l as [|a l IH]; simpl; [split; [intros _; inversion 1 | done]|].
  destruct (decide (a = x)) as [->|Hne].
  - split; [done | intros Hn; destruct Hn; by left].
  - rewrite not_elem_of_cons, fmap_None, IH. split; [by intros ? | by intros [_ ?]].
Qed.

Lemma list_remove_count x l l' y :
  list_remove x l = Some l' →
  count y l' = if decide (x = y) then pred (count y l) else count y l.
Proof.
  revert l'. induction l as [|a l IH]; intros l'; simpl; [done|].
  destruct (decide (a = x)) as [->|Hne].
  - intros [= ->]. rewrite count_cons. by destruct (decide (x = y)).
  - destruct (list_remove x l) as [l0|] eqn:Hr; simpl; [|done].
    intros [= <-]. rewrite !count_cons, (IH l0 eq_refl).
    destruct (decide (a = y)) as [->|?], (decide (x = y)) as [->|?]; try done.
Qed.

Lemma list_remove_length x l l' :
  list_remove x l = Some l' → length l' = pred (length l).
Proof.
  revert l'. induction l as [|a l IH]; intros l'; simpl; [done|].
  destruct (decide (a = x)); [by intros [= ->]|].
  destruct (list_remove x l) as [l0|] eqn:Hr; simpl; [|done].
  intros [= <-]. simpl. rewrite (IH l0 eq_refl).
  destruct l; [done|]. done.
Qed.

Lemma sceneCb_object_count x c obj :
  count x (sceneCb_object c obj) = event_effect x (count x c) obj.
Proof.
  unfold sceneCb_object, event_effect. destruct (operation obj); try done.
  - rewrite count_app, count_cons. change (count x []) with 0%nat.
    destruct (decide (object_id obj = x)); lia.
  - destruct (list_remove (object_id obj) c) as [c'|] eqn:Hr.
    + by rewrite (list_remove_count _ _ _ x Hr).
    + apply list_remove_None in Hr. destruct (decide (object_id obj = x)) as [<-|]; [|done].
      rewrite count_pos in Hr. lia.
Qed.

Lemma sceneCb_objects_count x objs c :
  count x (foldl sceneCb_object c objs) = foldl (event_effect x) (count x c) objs.
Proof.
  revert c. induction objs as [|obj objs IH]; intros c; simpl; [done|].
  by rewrite IH, sceneCb_object_count.
Qed.

Lemma sceneCb_attached om msg :
  om_attached (sceneCb om msg)
  = map (λ a, object_id (object a)) (attached_collision_objects msg).
Proof.
  unfold sceneCb. simpl.
  assert (Hgen : ∀ l acc,
    foldl (λ a obj, a ++ [object_id (object obj)]) acc l
    = acc ++ map (λ a, object_id (object a)) l).
  { induction l as [|a l IH]; intros acc; simpl; [by rewrite app_nil_r|].
    by rewrite IH, <- app_assoc. }
  apply (Hgen _ []).
Qed.

Lemma list_remove_elem_of_iff x l l' y :
  list_remove x l = Some l' →
  y ∈ l' ↔ y ∈ l ∧ (y ≠ x ∨ (1 < count x l)%nat).
Proof.
  intros Hr. rewrite !count_pos, (list_remove_count _ _ _ y Hr).
  destruct (decide (x = y)) as [->|Hne].
  - split; [intros ?; split; [lia | right; lia] | intros [_ [?|?]]; [done | lia]].
  - split; [intros ?; split; [done | by left] | by intros [? _]].
Qed.

(** C8 (as amended): within one snapshot the events are applied in order.
    The free objects are kept in a list, not a set.  An add event appends
    its identifier, listed already or not: it is a member afterwards and
    has one entry more.  A remove event deletes the first entry of its
    identifier and no other: the identifier is gone afterwards exactly when
    it had a single entry, and is still listed when it had more.  Read as a
    set the list follows each event, but for a remove event of an
    identifier with several entries, which leaves the set as it was.  A
    remove event for an identifier that is not listed raises [ValueError]
    inside [list.remove], which the handler swallows, leaving the list as
    it was.  The attached-object list is rebuilt from the snapshot
    alone. *)
Theorem sceneCb_events (om : ObjectManager) (pre post : list CollisionObject)
    (obj : CollisionObject) (att : list AttachedCollisionObject) :
  let before := om_collision (sceneCb om (scene_of pre att)) in
  let after := om_collision (sceneCb om (scene_of (pre ++ [obj]) att)) in
  om_collision (sceneCb om (scene_of (pre ++ obj :: post) att))
    = foldl sceneCb_object after post
  ∧ (operation obj = ADD →
       after = before ++ [object_id obj] ∧ object_id obj ∈ after
       ∧ count (object_id obj) after = S (count (object_id obj) before)
       ∧ (list_to_set after : gset string)
         = list_to_set before ∪ {[object_id obj]})
  ∧ (operation obj = REMOVE → object_id obj ∈ before →
       list_remove (object_id obj) before = Some after
       ∧ count (object_id obj) after = pred (count (object_id obj) before)
       ∧ length after = pred (length before)
       ∧ (∀ y, y ≠ object_id obj → count y after = count y before)
       ∧ (object_id obj ∈ after ↔ (1 < count (object_id obj) before)%nat)
       ∧ (count (object_id obj) before = 1%nat →
          (list_to_set after : gset string)
          = list_to_set before ∖ {[object_id obj]})
       ∧ ((1 < count (object_id obj) before)%nat →
          (list_to_set after : gset string) = list_to_set before))
  ∧ (operation obj = REMOVE → object_id obj ∉ before →
       list_remove (object_id obj) before = None ∧ after = before)
  ∧ om_attached (sceneCb om (scene_of (pre ++ obj :: post) att))
    = map (λ a, object_id (object a)) att.
Proof.
  cbv zeta. unfold sceneCb, scene_of. simpl.
  rewrite !foldl_app. simpl.
  set (before := foldl sceneCb_object (om_collision om) pre).
  split; [done|]. split; [|split; [|split]].
  - unfold sceneCb_object. intros ->. split; [done|].
    split; [apply elem_of_app; right; by apply list_elem_of_singleton|].
    split.
    + rewrite count_app, count_cons. change (count (object_id obj) []) with 0%nat.
      rewrite decide_True by done. lia.
    + rewrite list_to_set_app_L. simpl. by rewrite union_empty_r_L.
  - intros Hop Hin.
    assert (Hr : list_remove (object_id obj) before
                 = Some (sceneCb_object before obj)).
    { unfold sceneCb_object. rewrite Hop.
      destruct (list_remove (object_id obj) before) eqn:Hr; [done|].
      by apply list_remove_None in Hr. }
    pose proof (list_remove_elem_of_iff _ _ _ (object_id obj) Hr) as Hself.
    split; [done|]. split; [|split; [|split; [|split; [|split]]]].
    + rewrite (list_remove_count _ _ _ _ Hr). by rewrite decide_True.
    + by apply (list_remove_length _ _ _ Hr).
    + intros y Hy. rewrite (list_remove_count _ _ _ _ Hr). by rewrite decide_False.
    + rewrite Hself. split; [by intros [_ [?|?]] | intros ?; split; [done | by right]].
    + intros Hone. apply set_eq. intros y.
      rewrite elem_of_difference, !elem_of_list_to_set, elem_of_singleton.
      rewrite (list_remove_elem_of_iff _ _ _ y Hr).
      split; [intros [? [?|?]]; [done | lia] | intros [? ?]; split; [done | by left]].
    + intros Hmany. apply set_eq. intros y.
      rewrite !elem_of_list_to_set, (list_remove_elem_of_iff _ _ _ y Hr).
      split; [by intros [? _] | intros ?; split; [done | by right]].
  - intros Hop Hnin. apply list_remove_None in Hnin. split; [done|].
    unfold sceneCb_object. by rewrite Hop, Hnin.
  - apply (sceneCb_attached om (scene_of (pre ++ obj :: post) att)).
Qed.

(** C8, as stated, fails: from an empty tracker, a snapshot that adds
    [piece] twice and removes it once.  The specification's set is empty
    afterwards; the tracker still lists the identifier. *)
Lemma remove_event_keeps_duplicate :
  let events := [box_object 0 FIXED_FRAME "piece" 0.015 0.015 0.015 0.3 0.1 0.03;
                 box_object 1 FIXED_FRAME "piece" 0.015 0.015 0.015 0.3 0.1 0.03;
                 removal_object 2 FIXED_FRAME "piece"] in
  om_collision (sceneCb new_ObjectManager (scene_of events [])) = ["piece"]
  ∧ foldl free_set_event ∅ events = ∅
  ∧ (list_to_set (om_collision (sceneCb new_ObjectManager (scene_of events [])))
       : gset string)
    ≠ foldl free_set_event ∅ events.
Proof.
  cbv zeta. split; [reflexivity|]. split.
  - unfold free_set_event. simpl. set_solver.
  - intros Heq.
    assert (Hin : "piece" ∈ (list_to_set (om_collision (sceneCb new_ObjectManager
              (scene_of [box_object 0 FIXED_FRAME "piece" 0.015 0.015 0.015 0.3 0.1 0.03;
                 box_object 1 FIXED_FRAME "piece" 0.015 0.015 0.015 0.3 0.1 0.03;
                 removal_object 2 FIXED_FRAME "piece"] []))) : gset string)).
    { apply elem_of_list_to_set. simpl. set_solver. }
    rewrite Heq in Hin. unfold free_set_event in Hin. simpl in Hin. set_solver.
Qed.

Lemma remove_events_count x att rs om :
  count x (om_collision
             (foldl sceneCb om (map (λ r, scene_of [as_event REMOVE x r] att) rs)))
  = (count x (om_collision om) - length rs)%nat.
Proof.
  revert om. induction rs as [|r rs IH]; intros om; simpl; [lia|].
  rewrite IH. unfold sceneCb at 1. simpl. rewrite sceneCb_object_count.
  unfold event_effect. simpl. rewrite decide_True by done. lia.
Qed.

Section Waits.
Context {W : Type} `{Platform W}.

Lemma remove_wait_absent n name o (st st' : State W) :
  remove_wait n name o st = Ret tt st' → name ∉ om_collision (objects st').
Proof.
  revert st. induction n as [|n IH]; intros st; simpl; [done|].
  unfold bind at 1. unfold getKnownCollisionObjects.
  destruct (scene_feed (world st)) as [msgs w1] eqn:Hfeed.
  destruct (bool_decide _) eqn:Hin.
  - unfold bind, log, pub_publish, rospy_sleep. apply IH.
  - intros [= <-]. simpl. by apply bool_decide_eq_false in Hin.
Qed.

Lemma remove_absent n frame name (st st' : State W) :
  remove n frame name st = Ret tt st' → name ∉ om_collision (objects st').
Proof.
  unfold remove, bind, rospy_now, pub_publish. apply remove_wait_absent.
Qed.
End Waits.

(** C10: the free-object membership is a list: after two add events and
    one remove event for the same identifier (one per snapshot), the
    identifier is still reported by [getKnownCollisionObjects], with one
    entry more than before; it stays reported until as many further remove
    events as it has entries have been processed, and a call of the
    blocking [remove] that returns has found it absent. *)
Theorem duplicate_add_outlives_remove (x : string) (om : ObjectManager)
    (a1 a2 r : CollisionObject) (att : list AttachedCollisionObject) :
  let scenes := [scene_of [as_event ADD x a1] att;
                 scene_of [as_event ADD x a2] att;
                 scene_of [as_event REMOVE x r] att] in
  let om' := foldl sceneCb om scenes in
  x ∈ om_collision om'
  ∧ count x (om_collision om') = S (count x (om_collision om))
  ∧ (∀ (W : Type) (P : Platform W) (st : State W) (w1 : W),
       objects st = om → scene_feed (world st) = (scenes, w1) →
       ∃ known st', getKnownCollisionObjects st = Ret known st' ∧ x ∈ known)
  ∧ (∀ rs : list CollisionObject,
       x ∈ om_collision
             (foldl sceneCb om' (map (λ r', scene_of [as_event REMOVE x r'] att) rs))
       ↔ (length rs < count x (om_collision om'))%nat)
  ∧ (∀ (W : Type) (P : Platform W) (n : nat) (frame : string) (st st' : State W),
       remove n frame x st = Ret tt st' → x ∉ om_collision (objects st')).
Proof.
  cbv zeta.
  assert (Hcount : count x (om_collision (foldl sceneCb om
            [scene_of [as_event ADD x a1] att; scene_of [as_event ADD x a2] att;
             scene_of [as_event REMOVE x r] att])) = S (count x (om_collision om))).
  { simpl. unfold sceneCb. simpl. rewrite !sceneCb_object_count.
    unfold event_effect. simpl. by rewrite !decide_True. }
  split; [apply count_pos; lia|]. split; [done|]. split; [|split].
  - intros W P st w1 Hom Hfeed. unfold getKnownCollisionObjects.
    rewrite Hfeed, Hom. eexists _, _. split; [done|]. apply count_pos. lia.
  - intros rs. rewrite count_pos, remove_events_count. lia.
  - intros W P n frame st st'. apply remove_absent.
Qed.
(** ** The pose of a square *)

(** C9 (as amended): [getPose] for column [c], rank [r] and height [z], in
    the float arithmetic of the source whatever its rounding.  With white
    to move the position is [c*S + S/2], [(r-1)*S + S/2], [z]; otherwise it
    is [(7-c)*S + S/2], [(8-r)*S + S/2], [z].  The two layouts mirror each
    other: the square [(c, r)] seen from black's side is computed exactly
    as the square [(7-c, 9-r)] seen from white's, float for float;
    mirroring twice gives the square back and keeps the columns 0..7 and
    the ranks 1..8 on the board.  In exact arithmetic, where this is the
    position of [getPose], the two sides' x coordinates add up to [8*S] and
    so do their y coordinates. *)
Theorem getPose_mirror (F : Type) (ops : FloatOps F) (S : F) (c r : Z) (z : F)
    (board : Board) :
  let white := with_side WHITE board in
  let black := with_side BLACK board in
  getPose_with S c r white z
  = {| pos_x := fadd (fmul (of_int c) S) (fdiv S (of_int 2));
       pos_y := fadd (fmul (of_int (r - 1)) S) (fdiv S (of_int 2));
       pos_z := z |}
  ∧ getPose_with S c r black z
    = {| pos_x := fadd (fmul (of_int (7 - c)) S) (fdiv S (of_int 2));
         pos_y := fadd (fmul (of_int (8 - r)) S) (fdiv S (of_int 2));
         pos_z := z |}
  ∧ getPose_with S c r black z = getPose_with S (7 - c) (9 - r) white z
  ∧ getPose_with S c r white z = getPose_with S (7 - c) (9 - r) black z
  ∧ (7 - (7 - c) = c ∧ 9 - (9 - r) = r)%Z
  ∧ ((0 ≤ c ≤ 7)%Z → (0 ≤ 7 - c ≤ 7)%Z)
  ∧ ((1 ≤ r ≤ 8)%Z → (1 ≤ 9 - r ≤ 8)%Z)
  ∧ (∀ (SQUARE_SIZE zq : Q),
       position (getPose SQUARE_SIZE c r board zq)
       = {| point_x := pos_x (getPose_with SQUARE_SIZE c r board zq);
            point_y := pos_y (getPose_with SQUARE_SIZE c r board zq);
            point_z := pos_z (getPose_with SQUARE_SIZE c r board zq) |}
       ∧ point_x (position (getPose SQUARE_SIZE c r white zq))
         + point_x (position (getPose SQUARE_SIZE c r black zq))
         == 8 * SQUARE_SIZE
       ∧ point_y (position (getPose SQUARE_SIZE c r white zq))
         + point_y (position (getPose SQUARE_SIZE c r black zq))
         == 8 * SQUARE_SIZE).
Proof.
  cbv zeta. unfold getPose_with, with_side. simpl.
  split; [done|]. split; [done|].
  split; [by replace (9 - r - 1)%Z with (8 - r)%Z by lia|].
  split; [by replace (7 - (7 - c))%Z with c by lia;
             replace (8 - (9 - r))%Z with (r - 1)%Z by lia|].
  split; [lia|]. split; [lia|]. split; [lia|].
  intros SQUARE_SIZE zq. unfold getPose. simpl. split; [by destruct (side board)|].
  split.
  - unfold Z.sub. rewrite inject_Z_plus, inject_Z_opp. field.
  - unfold Z.sub. rewrite !inject_Z_plus, !inject_Z_opp. field.
Qed.
(** C9, as stated, fails in the doubles of the source: e4 at the square
    size [0.05715].  White's x is [0.257175] and black's [0.200025] to
    within rounding; their sum is [0.45719999999999994], one unit in the
    last place below [8*SQUARE_SIZE = 0.4572], and so is the sum of the y
    coordinates.  Of the 64 squares, 60 miss one of the two sums. *)
Lemma getPose_sums_round :
  let S := double_SQUARE_SIZE in
  let white := getPose_with S 4 4 (with_side WHITE (sim_board [])) 0%float in
  let black := getPose_with S 4 4 (with_side BLACK (sim_board [])) 0%float in
  pos_x white = 0x1.0758e219652bdp-2%float
  ∧ pos_x black = 0x1.99a6b50b0f27bp-3%float
  ∧ fadd (pos_x white) (pos_x black) = 0x1.d42c3c9eecbfap-2%float
  ∧ fadd (pos_y white) (pos_y black) = 0x1.d42c3c9eecbfap-2%float
  ∧ fmul (of_int 8) S = 0x1.d42c3c9eecbfbp-2%float
  ∧ fadd (pos_x white) (pos_x black) ≠ fmul (of_int 8) S
  ∧ fadd (pos_y white) (pos_y black) ≠ fmul (of_int 8) S
  ∧ length (filter (λ sq, sums_to_board S (sim_board []) sq = false) squares) = 60%nat.
Proof.
  cbv zeta.
  assert (Hlt : ∀ x y : float,
             PrimFloat.ltb x y = true → PrimFloat.ltb y y = false → x ≠ y)
    by (intros x y Hxy Hyy ->; congruence).
  repeat split; try (vm_compute; reflexivity);
    apply Hlt; vm_compute; reflexivity.
Qed.
(** ** The candidate sequences as values *)

Section GeneratorFacts.
Variable qfe : Q -> Q -> Q -> Quaternion.

Lemma with_orientation_twice q q' ps :
  with_orientation q (with_orientation q' ps) = with_orientation q ps.
Proof. done. Qed.

Lemma with_orientation_same ps :
  with_orientation (orientation (pose ps)) ps = ps.
Proof. by destruct ps as [hd [pos ori]]. Qed.

Lemma collect_grasps_yield n gen h lg gen' h1 g :
  getGrasps_next qfe gen h = Some (Some lg, gen', h1) →
  read_grasp h1 lg = Some g →
  collect_grasps qfe (S n) gen h
  = '(out, h2) ← collect_grasps qfe n gen' h1; Some (g :: out, h2).
Proof. intros Hnext Hread. cbn [collect_grasps]. by rewrite Hnext; simpl; rewrite Hread. Qed.

Lemma getGrasps_next_loop h lg g ps p y todo :
  grasps h !! lg = Some g →
  poses h !! grasp_pose g = Some ps →
  let g' := {| grasp_id := tilt_id p y;
               pre_grasp_posture := pre_grasp_posture g;
               grasp_posture := grasp_posture g;
               grasp_pose := grasp_pose g;
               grasp_quality := tilt_quality p y;
               grasp_approach := grasp_approach g;
               grasp_retreat := grasp_retreat g |} in
  let h1 := {| poses := <[grasp_pose g :=
                            with_orientation (qfe 0 (1.57 - p) y) ps]> (poses h);
               grasps := <[lg := g']> (grasps h);
               places := places h |} in
  getGrasps_next qfe (GraspLoop lg ((p, y) :: todo)) h
    = Some (Some lg, GraspLoop lg todo, h1)
  ∧ read_grasp h1 lg = Some (tilted_grasp qfe g ps (p, y)).
Proof.
  intros Hg Hps g' h1. split.
  - cbn [getGrasps_next]. rewrite Hg. simpl. unfold set_orientation.
    rewrite Hps. done.
  - unfold read_grasp, h1. simpl. rewrite lookup_insert_eq. simpl.
    by rewrite lookup_insert_eq.
Qed.

Lemma collect_grasps_loop todo : ∀ h lg g ps,
  grasps h !! lg = Some g →
  poses h !! grasp_pose g = Some ps →
  ∃ h', collect_grasps qfe (S (length todo)) (GraspLoop lg todo) h
          = Some ((tilted_grasp qfe g ps <$> todo), h')
        ∧ poses h' = <[grasp_pose g :=
                         with_orientation
                           (last_orientation qfe todo (orientation (pose ps))) ps]>
                       (poses h)
        ∧ places h' = places h.
Proof.
  induction todo as [|[p y] todo IH]; intros h lg g ps Hg Hps.
  - exists h. simpl. split; [done|]. split; [|done].
    rewrite with_orientation_same. by rewrite insert_id.
  - destruct (getGrasps_next_loop h lg g ps p y todo Hg Hps) as [Hnext Hread].
    cbv zeta in Hnext, Hread.
    cbn [length]. rewrite (collect_grasps_yield _ _ _ _ _ _ _ Hnext Hread).
    match type of Hnext with _ = Some (_, _, ?h1) => set (h1' := h1) in * end.
    match type of Hread with read_grasp _ _ = _ =>
      destruct (IH h1' lg
                  {| grasp_id := tilt_id p y;
                     pre_grasp_posture := pre_grasp_posture g;
                     grasp_posture := grasp_posture g;
                     grasp_pose := grasp_pose g;
                     grasp_quality := tilt_quality p y;
                     grasp_approach := grasp_approach g;
                     grasp_retreat := grasp_retreat g |}
                  (with_orientation (qfe 0 (1.57 - p) y) ps))
        as (h' & Hrun & Hposes & Hplaces)
    end.
    { unfold h1'. simpl. by rewrite lookup_insert_eq. }
    { unfold h1'. simpl. by rewrite lookup_insert_eq. }
    exists h'. rewrite Hrun. simpl. split; [|split].
    + done.
    + rewrite Hposes. unfold h1'. simpl. by rewrite insert_insert_eq.
    + by rewrite Hplaces.
Qed.

Lemma grasp_sequence_values lp h ps :
  poses h !! lp = Some ps →
  ∃ h', grasp_sequence qfe lp h = Some (grasp_values qfe ps, h')
        ∧ poses h' = <[lp := with_orientation
                                (last_orientation qfe tilts (qfe 0 1.57 0)) ps]>
                       (poses h)
        ∧ places h' = places h.
Proof.
  intros Hps. unfold grasp_sequence, getGrasps, grasp_gen_size.
  set (lg := fresh (dom (grasps h))).
  set (g := {| grasp_id := "direct_overhead"; grasp_pose := lp;
               pre_grasp_posture := getGripperPosture GRIPPER_OPEN;
               grasp_posture := getGripperPosture GRIPPER_CLOSED;
               grasp_quality := 1.0;
               grasp_approach := getGripperTranslation 0.05 0.15 1.0;
               grasp_retreat := getGripperTranslation 0.05 0.15 (-1.0) |}).
  set (h1 := {| poses := <[lp := with_orientation (qfe 0 1.57 0) ps]> (poses h);
                grasps := <[lg := g]> (grasps h);
                places := places h |}).
  assert (Hnext : getGrasps_next qfe (GraspStart lp) h
                  = Some (Some lg, GraspLoop lg tilts, h1)).
  { cbn [getGrasps_next]. unfold set_orientation. by rewrite Hps. }
  assert (Hread : read_grasp h1 lg = Some (overhead_grasp qfe ps)).
  { unfold read_grasp, h1. simpl. rewrite lookup_insert_eq. simpl.
    by rewrite lookup_insert_eq. }
  rewrite (collect_grasps_yield _ _ _ _ _ _ _ Hnext Hread).
  destruct (collect_grasps_loop tilts h1 lg g (with_orientation (qfe 0 1.57 0) ps))
    as (h' & Hrun & Hposes & Hplaces).
  { unfold h1. simpl. by rewrite lookup_insert_eq. }
  { unfold h1. simpl. by rewrite lookup_insert_eq. }
  exists h'. rewrite Hrun. simpl. split; [|split].
  - done.
  - rewrite Hposes. unfold h1. simpl. by rewrite insert_insert_eq.
  - by rewrite Hplaces.
Qed.

Lemma collect_places_yield n gen h ll gen' h1 l :
  getPlaceLocations_next qfe gen h = Some (Some ll, gen', h1) →
  read_place h1 ll = Some l →
  collect_places qfe (S n) gen h
  = '(out, h2) ← collect_places qfe n gen' h1; Some (l :: out, h2).
Proof. intros Hnext Hread. cbn [collect_places]. by rewrite Hnext; simpl; rewrite Hread. Qed.

Lemma getPlaceLocations_next_loop h ll l ps p y todo :
  places h !! ll = Some l →
  poses h !! place_pose l = Some ps →
  let l' := {| place_id := tilt_id p y;
               place_pose := place_pose l;
               place_approach := place_approach l;
               place_retreat := place_retreat l;
               post_place_posture := post_place_posture l |} in
  let h1 := {| poses := <[place_pose l :=
                            with_orientation (qfe 0 (1.57 - p) y) ps]> (poses h);
               grasps := grasps h;
               places := <[ll := l']> (places h) |} in
  getPlaceLocations_next qfe (PlaceLoop ll ((p, y) :: todo)) h
    = Some (Some ll, PlaceLoop ll todo, h1)
  ∧ read_place h1 ll = Some (tilted_place qfe l ps (p, y)).
Proof.
  intros Hl Hps l' h1. split.
  - cbn [getPlaceLocations_next]. rewrite Hl. simpl. unfold set_orientation.
    rewrite Hps. done.
  - unfold read_place, h1. simpl. rewrite lookup_insert_eq. simpl.
    by rewrite lookup_insert_eq.
Qed.

Lemma collect_places_loop todo : ∀ h ll l ps,
  places h !! ll = Some l →
  poses h !! place_pose l = Some ps →
  ∃ h', collect_places qfe (S (length todo)) (PlaceLoop ll todo) h
          = Some ((tilted_place qfe l ps <$> todo), h')
        ∧ poses h' = <[place_pose l :=
                         with_orientation
                           (last_orientation qfe todo (orientation (pose ps))) ps]>
                       (poses h)
        ∧ grasps h' = grasps h.
Proof.
  induction todo as [|[p y] todo IH]; intros h ll l ps Hl Hps.
  - exists h. simpl. split; [done|]. split; [|done].
    rewrite with_orientation_same. by rewrite insert_id.
  - destruct (getPlaceLocations_next_loop h ll l ps p y todo Hl Hps) as [Hnext Hread].
    cbv zeta in Hnext, Hread.
    cbn [length]. rewrite (collect_places_yield _ _ _ _ _ _ _ Hnext Hread).
    match type of Hnext with _ = Some (_, _, ?h1) => set (h1' := h1) in * end.
    destruct (IH h1' ll
                {| place_id := tilt_id p y;
                   place_pose := place_pose l;
                   place_approach := place_approach l;
                   place_retreat := place_retreat l;
                   post_place_posture := post_place_posture l |}
                (with_orientation (qfe 0 (1.57 - p) y) ps))
      as (h' & Hrun & Hposes & Hgrasps).
    { unfold h1'. simpl. by rewrite lookup_insert_eq. }
    { unfold h1'. simpl. by rewrite lookup_insert_eq. }
    exists h'. rewrite Hrun. simpl. split; [|split].
    + done.
    + rewrite Hposes. unfold h1'. simpl. by rewrite insert_insert_eq.
    + by rewrite Hgrasps.
Qed.

Lemma place_sequence_values lp h ps :
  poses h !! lp = Some ps →
  ∃ h', place_sequence qfe lp h = Some (place_values qfe ps, h')
        ∧ poses h' = <[lp := with_orientation
                                (last_orientation qfe tilts (qfe 0 1.57 0)) ps]>
                       (poses h)
        ∧ grasps h' = grasps h.
Proof.
  intros Hps. unfold place_sequence, getPlaceLocations, place_gen_size.
  set (ll := fresh (dom (places h))).
  set (l := {| place_id := "direct_overhead"; place_pose := lp;
               place_approach := getGripperTranslation 0.05 0.15 1.0;
               place_retreat := getGripperTranslation 0.05 0.15 (-1.0);
               post_place_posture := getGripperPosture GRIPPER_OPEN |}).
  set (h1 := {| poses := <[lp := with_orientation (qfe 0 1.57 0) ps]> (poses h);
                grasps := grasps h;
                places := <[ll := l]> (places h) |}).
  assert (Hnext : getPlaceLocations_next qfe (PlaceStart lp) h
                  = Some (Some ll, PlaceLoop ll tilts, h1)).
  { cbn [getPlaceLocations_next]. unfold set_orientation. by rewrite Hps. }
  assert (Hread : read_place h1 ll = Some (overhead_place qfe ps)).
  { unfold read_place, h1. simpl. rewrite lookup_insert_eq. simpl.
    by rewrite lookup_insert_eq. }
  rewrite (collect_places_yield _ _ _ _ _ _ _ Hnext Hread).
  destruct (collect_places_loop tilts h1 ll l (with_orientation (qfe 0 1.57 0) ps))
    as (h' & Hrun & Hposes & Hgrasps).
  { unfold h1. simpl. by rewrite lookup_insert_eq. }
  { unfold h1. simpl. by rewrite lookup_insert_eq. }
  exists h'. rewrite Hrun. simpl. split; [|split].
  - done.
  - rewrite Hposes. unfold h1. simpl. by rewrite insert_insert_eq.
  - by rewrite Hgrasps.
Qed.
End GeneratorFacts.

Section Interleaving.
Variable qfe : Q -> Q -> Q -> Quaternion.

Lemma separate_grasps_sym ga gb : separate_grasps ga gb → separate_grasps gb ga.
Proof. destruct ga, gb; simpl; auto. Qed.

(** A step of one generator leaves what another generator will yield. *)
Lemma grasp_future_frame ga gb h r gb' h1 xa :
  grasp_future qfe ga h = Some xa →
  separate_grasps ga gb →
  getGrasps_next qfe gb h = Some (r, gb', h1) →
  grasp_future qfe ga h1 = Some xa ∧ separate_grasps ga gb'.
Proof.
  intros Hfut Hsep Hnext.
  assert (Hpose : ∀ q lp h0 h2 ga0 xs,
    set_orientation q lp h0 = Some h2 →
    grasp_future qfe ga0 h0 = Some xs →
    grasp_future qfe ga0 h2 = Some xs).
  { intros q lp h0 h2 ga0 xs Hset Hf. unfold set_orientation in Hset.
    destruct (poses h0 !! lp) as [psb|] eqn:Hlp; simpl in Hset; [|done].
    injection Hset as <-.
    destruct ga0 as [lpa|la todo|]; unfold grasp_future in *; cbn [poses grasps]; [| |done].
    - destruct (decide (lpa = lp)) as [->|Hne].
      + rewrite lookup_insert_eq. rewrite Hlp in Hf. exact Hf.
      + by rewrite lookup_insert_ne.
    - destruct (grasps h0 !! la) as [g|]; [|done]. cbn [mbind option_bind] in *.
      destruct (decide (grasp_pose g = lp)) as [Heq|Hne].
      + rewrite Heq in *. rewrite lookup_insert_eq. rewrite Hlp in Hf. exact Hf.
      + by rewrite lookup_insert_ne. }
  assert (Hobject : ∀ lg g h0 ga0 xs,
    match ga0 with GraspLoop la _ => la ≠ lg | _ => True end →
    grasp_future qfe ga0 h0 = Some xs →
    grasp_future qfe ga0 (put_grasp lg g h0) = Some xs).
  { intros lg g h0 ga0 xs Hne Hf.
    destruct ga0 as [lpa|la todo|]; simpl in *; [done| |done].
    by rewrite lookup_insert_ne. }
  destruct gb as [lpb|lb [|[p y] todo]|]; simpl in Hnext.
  - destruct (set_orientation _ lpb h) as [h2|] eqn:Hset; [|done].
    injection Hnext as <- <- <-. split.
    + apply Hobject; [|by eapply Hpose].
      destruct ga as [lpa|la todoa|]; [done| |done].
      simpl in Hfut. intros ->.
      destruct (grasps h !! fresh (dom (grasps h))) as [g0|] eqn:Hg0; [|done].
      apply (is_fresh (dom (grasps h))). apply elem_of_dom. by eexists.
    + destruct ga as [lpa|la todoa|]; [done| |done].
      simpl in *. intros ->.
      destruct (grasps h !! fresh (dom (grasps h))) as [g0|] eqn:Hg0; [|done].
      apply (is_fresh (dom (grasps h))). apply elem_of_dom. by eexists.
  - injection Hnext as <- <- <-. split; [done | by destruct ga].
  - destruct (grasps h !! lb) as [g|]; [|done]. simpl in Hnext.
    destruct (set_orientation _ (grasp_pose g) h) as [h2|] eqn:Hset; [|done].
    injection Hnext as <- <- <-. split.
    + apply Hobject; [|by eapply Hpose]. by destruct ga.
    + by destruct ga.
  - injection Hnext as <- <- <-. split; [done | by destruct ga].
Qed.

(** A generator with something left yields it. *)
Lemma grasp_future_cons gen h x xs :
  grasp_future qfe gen h = Some (x :: xs) →
  ∃ lg gen' h1, getGrasps_next qfe gen h = Some (Some lg, gen', h1)
                ∧ read_grasp h1 lg = Some x
                ∧ grasp_future qfe gen' h1 = Some xs.
Proof.
  destruct gen as [lp|lg [|[p y] todo]|]; simpl; [| |  |done].
  - destruct (poses h !! lp) as [ps|] eqn:Hps; [|done]. simpl.
    intros [= <- <-]. unfold set_orientation. rewrite Hps. simpl.
    eexists _, _, _. split; [done|]. unfold read_grasp. simpl.
    rewrite !lookup_insert_eq. simpl. rewrite lookup_insert_eq. done.
  - destruct (grasps h !! lg) as [g|]; [|done]. simpl.
    by destruct (poses h !! grasp_pose g).
  - destruct (grasps h !! lg) as [g|] eqn:Hg; [|done]. simpl.
    destruct (poses h !! grasp_pose g) as [ps|] eqn:Hps; [|done]. simpl.
    intros [= <- <-]. unfold set_orientation. rewrite Hps. simpl.
    eexists _, _, _. split; [done|]. unfold read_grasp. simpl.
    rewrite !lookup_insert_eq. simpl. rewrite lookup_insert_eq. done.
Qed.

(** A generator with nothing left stops, and touches nothing. *)
Lemma grasp_future_nil gen h :
  grasp_future qfe gen h = Some [] →
  ∃ gen', getGrasps_next qfe gen h = Some (None, gen', h)
          ∧ grasp_future qfe gen' h = Some []
          ∧ ∀ other, separate_grasps gen' other.
Proof.
  destruct gen as [lp|lg [|[p y] todo]|]; simpl.
  - by destruct (poses h !! lp).
  - intros _. by exists GraspDone.
  - destruct (grasps h !! lg) as [g|]; [|done]. simpl.
    by destruct (poses h !! grasp_pose g).
  - intros _. by exists GraspDone.
Qed.

Lemma interleave_grasps_independent sched : ∀ ga gb h xa xb,
  grasp_future qfe ga h = Some xa →
  grasp_future qfe gb h = Some xb →
  separate_grasps ga gb →
  ∃ h', interleave_grasps qfe sched ga gb h
        = Some (take (turns true sched) xa, take (turns false sched) xb, h').
Proof.
  induction sched as [|first sched IH]; intros ga gb h xa xb Ha Hb Hsep.
  { exists h. by rewrite !take_0. }
  cbn [interleave_grasps]. destruct first.
  - change (turns true (true :: sched)) with (S (turns true sched)).
    change (turns false (true :: sched)) with (turns false sched).
    destruct xa as [|x xs].
    + destruct (grasp_future_nil _ _ Ha) as (ga' & Hnext & Ha' & Hsep').
      rewrite Hnext. simpl.
      destruct (IH ga' gb h [] xb Ha' Hb (Hsep' gb)) as [h' Hrun].
      exists h'. rewrite Hrun. by rewrite !take_nil.
    + destruct (grasp_future_cons _ _ _ _ Ha) as (lg & ga' & h1 & Hnext & Hread & Ha').
      destruct (grasp_future_frame gb ga h _ _ _ xb Hb (separate_grasps_sym _ _ Hsep) Hnext)
        as [Hb' Hsep'].
      rewrite Hnext. simpl. rewrite Hread. simpl.
      destruct (IH ga' gb h1 xs xb Ha' Hb' (separate_grasps_sym _ _ Hsep')) as [h' Hrun].
      exists h'. by rewrite Hrun.
  - change (turns true (false :: sched)) with (turns true sched).
    change (turns false (false :: sched)) with (S (turns false sched)).
    destruct xb as [|x xs].
    + destruct (grasp_future_nil _ _ Hb) as (gb' & Hnext & Hb' & Hsep').
      rewrite Hnext. simpl.
      destruct (IH ga gb' h xa [] Ha Hb' (separate_grasps_sym _ _ (Hsep' ga))) as [h' Hrun].
      exists h'. rewrite Hrun. by rewrite !take_nil.
    + destruct (grasp_future_cons _ _ _ _ Hb) as (lg & gb' & h1 & Hnext & Hread & Hb').
      destruct (grasp_future_frame ga gb h _ _ _ xa Ha Hsep Hnext) as [Ha' Hsep'].
      rewrite Hnext. simpl. rewrite Hread. simpl.
      destruct (IH ga gb' h1 xa xs Ha' Hb' Hsep') as [h' Hrun].
      exists h'. by rewrite Hrun.
Qed.
End Interleaving.

Section Draining.
Variable qfe : Q -> Q -> Q -> Quaternion.

Lemma drain_grasps_yield n gen h lg gen' h1 :
  getGrasps_next qfe gen h = Some (Some lg, gen', h1) →
  drain_grasps qfe (S n) gen h
  = '(out, h2) ← drain_grasps qfe n gen' h1; Some (lg :: out, h2).
Proof. intros Hnext. cbn [drain_grasps]. by rewrite Hnext. Qed.

(** Every later step yields the same object again; at the end it reads as
    the last candidate. *)
Lemma drain_grasps_loop todo : ∀ h lg g ps cur,
  grasps h !! lg = Some g →
  poses h !! grasp_pose g = Some ps →
  read_grasp h lg = Some cur →
  ∃ h', drain_grasps qfe (S (length todo)) (GraspLoop lg todo) h
          = Some (replicate (length todo) lg, h')
        ∧ read_grasp h' lg = last (cur :: (tilted_grasp qfe g ps <$> todo)).
Proof.
  induction todo as [|[p y] todo IH]; intros h lg g ps cur Hg Hps Hcur.
  - exists h. by split.
  - destruct (getGrasps_next_loop qfe h lg g ps p y todo Hg Hps) as [Hnext Hread].
    cbv zeta in Hnext, Hread.
    cbn [length]. rewrite (drain_grasps_yield _ _ _ _ _ _ Hnext).
    match type of Hnext with _ = Some (_, _, ?h1) => set (h1' := h1) in * end.
    destruct (IH h1' lg
                {| grasp_id := tilt_id p y;
                   pre_grasp_posture := pre_grasp_posture g;
                   grasp_posture := grasp_posture g;
                   grasp_pose := grasp_pose g;
                   grasp_quality := tilt_quality p y;
                   grasp_approach := grasp_approach g;
                   grasp_retreat := grasp_retreat g |}
                (with_orientation (qfe 0 (1.57 - p) y) ps)
                (tilted_grasp qfe g ps (p, y)))
      as (h' & Hrun & Hlast).
    { unfold h1'. simpl. by rewrite lookup_insert_eq. }
    { unfold h1'. simpl. by rewrite lookup_insert_eq. }
    { exact Hread. }
    exists h'. rewrite Hrun. split; [done|]. rewrite Hlast. done.
Qed.

Lemma drain_grasps_all lp h ps :
  poses h !! lp = Some ps →
  ∃ lg h', drain_grasps qfe (grasp_gen_size (getGrasps lp)) (getGrasps lp) h
             = Some (replicate 21 lg, h')
           ∧ read_grasp h' lg = last (grasp_values qfe ps).
Proof.
  intros Hps. unfold getGrasps, grasp_gen_size.
  set (lg := fresh (dom (grasps h))).
  set (g := {| grasp_id := "direct_overhead"; grasp_pose := lp;
               pre_grasp_posture := getGripperPosture GRIPPER_OPEN;
               grasp_posture := getGripperPosture GRIPPER_CLOSED;
               grasp_quality := 1.0;
               grasp_approach := getGripperTranslation 0.05 0.15 1.0;
               grasp_retreat := getGripperTranslation 0.05 0.15 (-1.0) |}).
  set (h1 := {| poses := <[lp := with_orientation (qfe 0 1.57 0) ps]> (poses h);
                grasps := <[lg := g]> (grasps h);
                places := places h |}).
  assert (Hnext : getGrasps_next qfe (GraspStart lp) h
                  = Some (Some lg, GraspLoop lg tilts, h1)).
  { cbn [getGrasps_next]. unfold set_orientation. by rewrite Hps. }
  assert (Hread : read_grasp h1 lg = Some (overhead_grasp qfe ps)).
  { unfold read_grasp, h1. simpl. rewrite lookup_insert_eq. simpl.
    by rewrite lookup_insert_eq. }
  rewrite (drain_grasps_yield _ _ _ _ _ _ Hnext).
  destruct (drain_grasps_loop tilts h1 lg g (with_orientation (qfe 0 1.57 0) ps)
              (overhead_grasp qfe ps)) as (h' & Hrun & Hlast).
  { unfold h1. simpl. by rewrite lookup_insert_eq. }
  { unfold h1. simpl. by rewrite lookup_insert_eq. }
  { exact Hread. }
  exists lg, h'. rewrite Hrun. split; [done|]. rewrite Hlast. done.
Qed.
End Draining.

Section InterleavingPlaces.
Variable qfe : Q -> Q -> Q -> Quaternion.

Lemma separate_places_sym ga gb : separate_places ga gb → separate_places gb ga.
Proof. destruct ga, gb; simpl; auto. Qed.

(** A step of one generator leaves what another generator will yield. *)
Lemma place_future_frame ga gb h r gb' h1 xa :
  place_future qfe ga h = Some xa →
  separate_places ga gb →
  getPlaceLocations_next qfe gb h = Some (r, gb', h1) →
  place_future qfe ga h1 = Some xa ∧ separate_places ga gb'.
Proof.
  intros Hfut Hsep Hnext.
  assert (Hpose : ∀ q lp h0 h2 ga0 xs,
    set_orientation q lp h0 = Some h2 →
    place_future qfe ga0 h0 = Some xs →
    place_future qfe ga0 h2 = Some xs).
  { intros q lp h0 h2 ga0 xs Hset Hf. unfold set_orientation in Hset.
    destruct (poses h0 !! lp) as [psb|] eqn:Hlp; simpl in Hset; [|done].
    injection Hset as <-.
    destruct ga0 as [lpa|la todo|]; unfold place_future in *; cbn [poses places]; [| |done].
    - destruct (decide (lpa = lp)) as [->|Hne].
      + rewrite lookup_insert_eq. rewrite Hlp in Hf. exact Hf.
      + by rewrite lookup_insert_ne.
    - destruct (places h0 !! la) as [g|]; [|done]. cbn [mbind option_bind] in *.
      destruct (decide (place_pose g = lp)) as [Heq|Hne].
      + rewrite Heq in *. rewrite lookup_insert_eq. rewrite Hlp in Hf. exact Hf.
      + by rewrite lookup_insert_ne. }
  assert (Hobject : ∀ lg g h0 ga0 xs,
    match ga0 with PlaceLoop la _ => la ≠ lg | _ => True end →
    place_future qfe ga0 h0 = Some xs →
    place_future qfe ga0 (put_place lg g h0) = Some xs).
  { intros lg g h0 ga0 xs Hne Hf.
    destruct ga0 as [lpa|la todo|]; simpl in *; [done| |done].
    by rewrite lookup_insert_ne. }
  destruct gb as [lpb|lb [|[p y] todo]|]; simpl in Hnext.
  - destruct (set_orientation _ lpb h) as [h2|] eqn:Hset; [|done].
    injection Hnext as <- <- <-. split.
    + apply Hobject; [|by eapply Hpose].
      destruct ga as [lpa|la todoa|]; [done| |done].
      simpl in Hfut. intros ->.
      destruct (places h !! fresh (dom (places h))) as [g0|] eqn:Hg0; [|done].
      apply (is_fresh (dom (places h))). apply elem_of_dom. by eexists.
    + destruct ga as [lpa|la todoa|]; [done| |done].
      simpl in *. intros ->.
      destruct (places h !! fresh (dom (places h))) as [g0|] eqn:Hg0; [|done].
      apply (is_fresh (dom (places h))). apply elem_of_dom. by eexists.
  - injection Hnext as <- <- <-. split; [done | by destruct ga].
  - destruct (places h !! lb) as [g|]; [|done]. simpl in Hnext.
    destruct (set_orientation _ (place_pose g) h) as [h2|] eqn:Hset; [|done].
    injection Hnext as <- <- <-. split.
    + apply Hobject; [|by eapply Hpose]. by destruct ga.
    + by destruct ga.
  - injection Hnext as <- <- <-. split; [done | by destruct ga].
Qed.

(** A generator with something left yields it. *)
Lemma place_future_cons gen h x xs :
  place_future qfe gen h = Some (x :: xs) →
  ∃ lg gen' h1, getPlaceLocations_next qfe gen h = Some (Some lg, gen', h1)
                ∧ read_place h1 lg = Some x
                ∧ place_future qfe gen' h1 = Some xs.
Proof.
  destruct gen as [lp|lg [|[p y] todo]|]; simpl; [| |  |done].
  - destruct (poses h !! lp) as [ps|] eqn:Hps; [|done]. simpl.
    intros [= <- <-]. unfold set_orientation. rewrite Hps. simpl.
    eexists _, _, _. split; [done|]. unfold read_place. simpl.
    rewrite !lookup_insert_eq. simpl. rewrite lookup_insert_eq. done.
  - destruct (places h !! lg) as [g|]; [|done]. simpl.
    by destruct (poses h !! place_pose g).
  - destruct (places h !! lg) as [g|] eqn:Hg; [|done]. simpl.
    destruct (poses h !! place_pose g) as [ps|] eqn:Hps; [|done]. simpl.
    intros [= <- <-]. unfold set_orientation. rewrite Hps. simpl.
    eexists _, _, _. split; [done|]. unfold read_place. simpl.
    rewrite !lookup_insert_eq. simpl. rewrite lookup_insert_eq. done.
Qed.

(** A generator with nothing left stops, and touches nothing. *)
Lemma place_future_nil gen h :
  place_future qfe gen h = Some [] →
  ∃ gen', getPlaceLocations_next qfe gen h = Some (None, gen', h)
          ∧ place_future qfe gen' h = Some []
          ∧ ∀ other, separate_places gen' other.
Proof.
  destruct gen as [lp|lg [|[p y] todo]|]; simpl.
  - by destruct (poses h !! lp).
  - intros _. by exists PlaceDone.
  - destruct (places h !! lg) as [g|]; [|done]. simpl.
    by destruct (poses h !! place_pose g).
  - intros _. by exists PlaceDone.
Qed.

Lemma interleave_places_independent sched : ∀ ga gb h xa xb,
  place_future qfe ga h = Some xa →
  place_future qfe gb h = Some xb →
  separate_places ga gb →
  ∃ h', interleave_places qfe sched ga gb h
        = Some (take (turns true sched) xa, take (turns false sched) xb, h').
Proof.
  induction sched as [|first sched IH]; intros ga gb h xa xb Ha Hb Hsep.
  { exists h. by rewrite !take_0. }
  cbn [interleave_places]. destruct first.
  - change (turns true (true :: sched)) with (S (turns true sched)).
    change (turns false (true :: sched)) with (turns false sched).
    destruct xa as [|x xs].
    + destruct (place_future_nil _ _ Ha) as (ga' & Hnext & Ha' & Hsep').
      rewrite Hnext. simpl.
      destruct (IH ga' gb h [] xb Ha' Hb (Hsep' gb)) as [h' Hrun].
      exists h'. rewrite Hrun. by rewrite !take_nil.
    + destruct (place_future_cons _ _ _ _ Ha) as (lg & ga' & h1 & Hnext & Hread & Ha').
      destruct (place_future_frame gb ga h _ _ _ xb Hb (separate_places_sym _ _ Hsep) Hnext)
        as [Hb' Hsep'].
      rewrite Hnext. simpl. rewrite Hread. simpl.
      destruct (IH ga' gb h1 xs xb Ha' Hb' (separate_places_sym _ _ Hsep')) as [h' Hrun].
      exists h'. by rewrite Hrun.
  - change (turns true (false :: sched)) with (turns true sched).
    change (turns false (false :: sched)) with (S (turns false sched)).
    destruct xb as [|x xs].
    + destruct (place_future_nil _ _ Hb) as (gb' & Hnext & Hb' & Hsep').
      rewrite Hnext. simpl.
      destruct (IH ga gb' h xa [] Ha Hb' (separate_places_sym _ _ (Hsep' ga))) as [h' Hrun].
      exists h'. rewrite Hrun. by rewrite !take_nil.
    + destruct (place_future_cons _ _ _ _ Hb) as (lg & gb' & h1 & Hnext & Hread & Hb').
      destruct (place_future_frame ga gb h _ _ _ xa Ha Hsep Hnext) as [Ha' Hsep'].
      rewrite Hnext. simpl. rewrite Hread. simpl.
      destruct (IH ga gb' h1 xa xs Ha' Hb' Hsep') as [h' Hrun].
      exists h'. by rewrite Hrun.
Qed.
End InterleavingPlaces.

Section DrainingPlaces.
Variable qfe : Q -> Q -> Q -> Quaternion.

Lemma drain_places_yield n gen h lg gen' h1 :
  getPlaceLocations_next qfe gen h = Some (Some lg, gen', h1) →
  drain_places qfe (S n) gen h
  = '(out, h2) ← drain_places qfe n gen' h1; Some (lg :: out, h2).
Proof. intros Hnext. cbn [drain_places]. by rewrite Hnext. Qed.

(** Every later step yields the same object again; at the end it reads as
    the last candidate. *)
Lemma drain_places_loop todo : ∀ h lg g ps cur,
  places h !! lg = Some g →
  poses h !! place_pose g = Some ps →
  read_place h lg = Some cur →
  ∃ h', drain_places qfe (S (length todo)) (PlaceLoop lg todo) h
          = Some (replicate (length todo) lg, h')
        ∧ read_place h' lg = last (cur :: (tilted_place qfe g ps <$> todo)).
Proof.
  induction todo as [|[p y] todo IH]; intros h lg g ps cur Hg Hps Hcur.
  - exists h. by split.
  - destruct (getPlaceLocations_next_loop qfe h lg g ps p y todo Hg Hps) as [Hnext Hread].
    cbv zeta in Hnext, Hread.
    cbn [length]. rewrite (drain_places_yield _ _ _ _ _ _ Hnext).
    match type of Hnext with _ = Some (_, _, ?h1) => set (h1' := h1) in * end.
    destruct (IH h1' lg
                {| place_id := tilt_id p y;
                   place_pose := place_pose g;
                   place_approach := place_approach g;
                   place_retreat := place_retreat g;
                   post_place_posture := post_place_posture g |}
                (with_orientation (qfe 0 (1.57 - p) y) ps)
                (tilted_place qfe g ps (p, y)))
      as (h' & Hrun & Hlast).
    { unfold h1'. simpl. by rewrite lookup_insert_eq. }
    { unfold h1'. simpl. by rewrite lookup_insert_eq. }
    { exact Hread. }
    exists h'. rewrite Hrun. split; [done|]. rewrite Hlast. done.
Qed.

Lemma drain_places_all lp h ps :
  poses h !! lp = Some ps →
  ∃ lg h', drain_places qfe (place_gen_size (getPlaceLocations lp)) (getPlaceLocations lp) h
             = Some (replicate 21 lg, h')
           ∧ read_place h' lg = last (place_values qfe ps).
Proof.
  intros Hps. unfold getPlaceLocations, place_gen_size.
  set (lg := fresh (dom (places h))).
  set (g := {| place_id := "direct_overhead"; place_pose := lp;
               place_approach := getGripperTranslation 0.05 0.15 1.0;
               place_retreat := getGripperTranslation 0.05 0.15 (-1.0);
               post_place_posture := getGripperPosture GRIPPER_OPEN |}).
  set (h1 := {| poses := <[lp := with_orientation (qfe 0 1.57 0) ps]> (poses h);
                places := <[lg := g]> (places h);
                grasps := grasps h |}).
  assert (Hnext : getPlaceLocations_next qfe (PlaceStart lp) h
                  = Some (Some lg, PlaceLoop lg tilts, h1)).
  { cbn [getPlaceLocations_next]. unfold set_orientation. by rewrite Hps. }
  assert (Hread : read_place h1 lg = Some (overhead_place qfe ps)).
  { unfold read_place, h1. simpl. rewrite lookup_insert_eq. simpl.
    by rewrite lookup_insert_eq. }
  rewrite (drain_places_yield _ _ _ _ _ _ Hnext).
  destruct (drain_places_loop tilts h1 lg g (with_orientation (qfe 0 1.57 0) ps)
              (overhead_place qfe ps)) as (h' & Hrun & Hlast).
  { unfold h1. simpl. by rewrite lookup_insert_eq. }
  { unfold h1. simpl. by rewrite lookup_insert_eq. }
  { exact Hread. }
  exists lg, h'. rewrite Hrun. split; [done|]. rewrite Hlast. done.
Qed.
End DrainingPlaces.


Lemma alloc_pose_lookup ps h0 :
  poses (alloc_pose ps h0).2 !! (alloc_pose ps h0).1 = Some ps.
Proof. unfold alloc_pose. simpl. by rewrite lookup_insert_eq. Qed.

Lemma grasp_values_ids qfe ps : grasp_id <$> grasp_values qfe ps = candidate_ids.
Proof. by vm_compute. Qed.

Lemma place_values_ids qfe ps : place_id <$> place_values qfe ps = candidate_ids.
Proof. by vm_compute. Qed.

Lemma grasp_values_tilt qfe ps i p y :
  tilts !! i = Some (p, y) →
  grasp_values qfe ps !! S i
  = Some (tilted_grasp qfe (overhead_grasp qfe ps) ps (p, y)).
Proof.
  intros Hi.
  pose proof (list_lookup_fmap (tilted_grasp qfe (overhead_grasp qfe ps) ps) tilts i) as Hl.
  rewrite Hi in Hl. exact Hl.
Qed.

Lemma grasp_values_past qfe ps i :
  tilts !! i = None → grasp_values qfe ps !! S i = None.
Proof.
  intros Hi.
  pose proof (list_lookup_fmap (tilted_grasp qfe (overhead_grasp qfe ps) ps) tilts i) as Hl.
  rewrite Hi in Hl. exact Hl.
Qed.

(** C5 (as amended): for every input pose the grasp sequence has 21
    elements; the first has identifier [direct_overhead] and quality 1.0;
    the other 20 follow the pitch offsets 0.05, 0.1, 0.2, 0.4 (outer) and the
    yaws -1.57, -0.78, 0.0, 0.78, 1.57 (inner), each with identifier
    [str(p) + '+' + str(y)], quality [1.0 - 1.25*p - |y|/4.0] and orientation
    [quaternion_from_euler(0, 1.57-p, y)]; the place sequence has 21 elements
    with the same identifiers in the same order (a [PlaceLocation] has no
    quality field). *)
Theorem candidate_sequences (qfe : Q -> Q -> Q -> Quaternion) (ps : PoseStamped)
    (h0 : Heap) :
  let '(lp, h) := alloc_pose ps h0 in
  ∃ gs hg ls hl,
    grasp_sequence qfe lp h = Some (gs, hg)
    ∧ place_sequence qfe lp h = Some (ls, hl)
    ∧ length gs = 21%nat ∧ length ls = 21%nat
    ∧ (∃ g0, gs !! 0%nat = Some g0
             ∧ grasp_id g0 = "direct_overhead" ∧ grasp_quality g0 = 1.0)
    ∧ tilts = [(0.05, -1.57); (0.05, -0.78); (0.05, 0.0); (0.05, 0.78); (0.05, 1.57);
               (0.1, -1.57); (0.1, -0.78); (0.1, 0.0); (0.1, 0.78); (0.1, 1.57);
               (0.2, -1.57); (0.2, -0.78); (0.2, 0.0); (0.2, 0.78); (0.2, 1.57);
               (0.4, -1.57); (0.4, -0.78); (0.4, 0.0); (0.4, 0.78); (0.4, 1.57)]
    ∧ (∀ i p y, tilts !! i = Some (p, y) →
         ∃ g, gs !! S i = Some g
              ∧ grasp_id g = (str_float p +:+ "+" +:+ str_float y)%string
              ∧ grasp_quality g = 1.0 - (1.25 * p) - Qabs y / 4.0
              ∧ orientation (pose (grasp_pose g)) = qfe 0 (1.57 - p) y)
    ∧ grasp_id <$> gs = candidate_ids
    ∧ place_id <$> ls = grasp_id <$> gs.
Proof.
  pose proof (alloc_pose_lookup ps h0) as Hps.
  destruct (alloc_pose ps h0) as [lp h]. simpl in Hps.
  destruct (grasp_sequence_values qfe lp h ps Hps) as (hg & Hg & _).
  destruct (place_sequence_values qfe lp h ps Hps) as (hl & Hl & _).
  exists (grasp_values qfe ps), hg, (place_values qfe ps), hl.
  split; [done|]. split; [done|].
  split; [by vm_compute|].
  split; [by vm_compute|].
  split; [by eexists|]. split; [done|]. split; [|split].
  - intros i p y Hi. eexists. split; [by apply grasp_values_tilt|]. done.
  - apply grasp_values_ids.
  - by rewrite grasp_values_ids, place_values_ids.
Qed.

(** C5, as stated, fails: the identifier of the second grasp candidate is
    [0.05+-1.57], with a plus sign between the two numbers, not the plain
    concatenation [0.05-1.57] of [str(0.05)] and [str(-1.57)]. *)
Lemma grasp_id_is_not_plain_concatenation :
  let '(lp, h) := alloc_pose sim_pose empty_heap in
  ∃ gs h' g,
    grasp_sequence sim_quaternion lp h = Some (gs, h')
    ∧ gs !! 1%nat = Some g
    ∧ grasp_id g = "0.05+-1.57"
    ∧ (str_float 0.05 +:+ str_float (-1.57))%string = "0.05-1.57"
    ∧ grasp_id g ≠ (str_float 0.05 +:+ str_float (-1.57))%string.
Proof.
  pose proof (alloc_pose_lookup sim_pose empty_heap) as Hps.
  destruct (alloc_pose sim_pose empty_heap) as [lp h]. simpl in Hps.
  destruct (grasp_sequence_values sim_quaternion lp h _ Hps) as (hg & Hg & _).
  eexists _, _, _. split; [exact Hg|]. split; [reflexivity|].
  split; [by vm_compute|]. split; [by vm_compute|]. by vm_compute.
Qed.

(** C6: the qualities are not non-increasing along the sequence: the
    second candidate ([0.05+-1.57]) has quality 0.545 and the third
    ([0.05+-0.78]) has 0.7425.  The first candidate does have the strictly
    highest quality. *)
Theorem grasp_quality_rises (qfe : Q -> Q -> Q -> Quaternion) (ps : PoseStamped)
    (h0 : Heap) :
  let '(lp, h) := alloc_pose ps h0 in
  ∃ gs h' g0 g1 g2,
    grasp_sequence qfe lp h = Some (gs, h')
    ∧ gs !! 0%nat = Some g0 ∧ gs !! 1%nat = Some g1 ∧ gs !! 2%nat = Some g2
    ∧ grasp_id g1 = "0.05+-1.57" ∧ grasp_id g2 = "0.05+-0.78"
    ∧ grasp_quality g1 == 0.545 ∧ grasp_quality g2 == 0.7425
    ∧ grasp_quality g1 < grasp_quality g2
    ∧ ∀ i g, gs !! S i = Some g → grasp_quality g < grasp_quality g0.
Proof.
  pose proof (alloc_pose_lookup ps h0) as Hps.
  destruct (alloc_pose ps h0) as [lp h]. simpl in Hps.
  destruct (grasp_sequence_values qfe lp h ps Hps) as (hg & Hg & _).
  eexists _, _, _, _, _. split; [exact Hg|].
  split; [reflexivity|]. split; [reflexivity|]. split; [reflexivity|].
  split; [by vm_compute|]. split; [by vm_compute|].
  split; [by vm_compute|]. split; [by vm_compute|]. split; [by vm_compute|].
  intros i g.
  destruct (tilts !! i) as [[p y]|] eqn:Hi.
  - rewrite (grasp_values_tilt _ _ _ _ _ Hi). intros [= <-].
    apply list_elem_of_lookup_2 in Hi.
    assert (Hall : Forall (λ py, tilt_quality py.1 py.2 < 1.0) tilts)
      by (by repeat constructor).
    rewrite Forall_forall in Hall. apply (Hall (p, y) Hi).
  - by rewrite (grasp_values_past _ _ _ Hi).
Qed.
Lemma grasp_values_frame qfe ps ps' :
  header ps' = header ps → position (pose ps') = position (pose ps) →
  grasp_values qfe ps' = grasp_values qfe ps.
Proof.
  destruct ps as [hd [pos ori]], ps' as [hd' [pos' ori']]. simpl.
  by intros -> ->.
Qed.

Lemma place_values_frame qfe ps ps' :
  header ps' = header ps → position (pose ps') = position (pose ps) →
  place_values qfe ps' = place_values qfe ps.
Proof.
  destruct ps as [hd [pos ori]], ps' as [hd' [pos' ori']]. simpl.
  by intros -> ->.
Qed.

(** C7 (as amended): the candidates a generator yields, each read when it is
    yielded, are a function of the input pose's header and position and of
    fixed constants: a call yields [grasp_values] (resp. [place_values]), and
    so does a second call on the same pose object.  Two callers, each with a
    generator of its own, over the same pose object or over different ones,
    can advance them in any order, and each is yielded its own sequence.
    The caller's pose object is written to: its header and position are
    kept, and its orientation is left at that of the last candidate,
    [quaternion_from_euler(0, 1.57-0.4, 1.57)].  A generator yields one
    object, rewritten before each yield: the 21 references of a run are the
    same, and after the run all of them read as the last candidate. *)
Theorem generators_repeatable (qfe : Q -> Q -> Q -> Quaternion) (ps : PoseStamped)
    (h0 : Heap) :
  let '(lp, h) := alloc_pose ps h0 in
  ∃ hg hg2 hl hl2,
    grasp_sequence qfe lp h = Some (grasp_values qfe ps, hg)
    ∧ grasp_sequence qfe lp hg = Some (grasp_values qfe ps, hg2)
    ∧ place_sequence qfe lp h = Some (place_values qfe ps, hl)
    ∧ place_sequence qfe lp hl = Some (place_values qfe ps, hl2)
    ∧ poses hg !! lp = Some (with_orientation (qfe 0 (1.57 - 0.4) 1.57) ps)
    ∧ poses hl !! lp = Some (with_orientation (qfe 0 (1.57 - 0.4) 1.57) ps)
    ∧ (∀ ps', header ps' = header ps → position (pose ps') = position (pose ps) →
         grasp_values qfe ps' = grasp_values qfe ps
         ∧ place_values qfe ps' = place_values qfe ps)
    ∧ (∀ sched lp2 ps2, poses h !! lp2 = Some ps2 →
         (∃ h', interleave_grasps qfe sched (getGrasps lp) (getGrasps lp2) h
                = Some (take (turns true sched) (grasp_values qfe ps),
                        take (turns false sched) (grasp_values qfe ps2), h'))
         ∧ (∃ h', interleave_places qfe sched (getPlaceLocations lp)
                                    (getPlaceLocations lp2) h
                  = Some (take (turns true sched) (place_values qfe ps),
                          take (turns false sched) (place_values qfe ps2), h')))
    ∧ (∃ lg hd last_grasp,
         drain_grasps qfe (grasp_gen_size (getGrasps lp)) (getGrasps lp) h
         = Some (replicate 21 lg, hd)
         ∧ read_grasp hd lg = Some last_grasp
         ∧ last (grasp_values qfe ps) = Some last_grasp
         ∧ grasp_id last_grasp = "0.4+1.57")
    ∧ (∃ ll hd last_place,
         drain_places qfe (place_gen_size (getPlaceLocations lp)) (getPlaceLocations lp) h
         = Some (replicate 21 ll, hd)
         ∧ read_place hd ll = Some last_place
         ∧ last (place_values qfe ps) = Some last_place
         ∧ place_id last_place = "0.4+1.57").
Proof.
  pose proof (alloc_pose_lookup ps h0) as Hps.
  destruct (alloc_pose ps h0) as [lp h]. simpl in Hps.
  destruct (grasp_sequence_values qfe lp h ps Hps) as (hg & Hg & Hgp & _).
  destruct (place_sequence_values qfe lp h ps Hps) as (hl & Hl & Hlp & _).
  assert (Hps1 : poses hg !! lp
                 = Some (with_orientation (qfe 0 (1.57 - 0.4) 1.57) ps)).
  { rewrite Hgp. by rewrite lookup_insert_eq. }
  assert (Hps2 : poses hl !! lp
                 = Some (with_orientation (qfe 0 (1.57 - 0.4) 1.57) ps)).
  { rewrite Hlp. by rewrite lookup_insert_eq. }
  destruct (grasp_sequence_values qfe lp hg _ Hps1) as (hg2 & Hg2 & _).
  destruct (place_sequence_values qfe lp hl _ Hps2) as (hl2 & Hl2 & _).
  exists hg, hg2, hl, hl2.
  split; [done|]. split; [done|]. split; [done|]. split; [done|].
  split; [done|]. split; [done|].
  split; [|split; [|split]].
  - intros ps' Hh Hp. split; [by apply grasp_values_frame | by apply place_values_frame].
  - intros sched lp2 ps2 Hps2'. split.
    + apply interleave_grasps_independent; simpl; [by rewrite Hps | by rewrite Hps2' | done].
    + apply interleave_places_independent; simpl; [by rewrite Hps | by rewrite Hps2' | done].
  - destruct (drain_grasps_all qfe lp h ps Hps) as (lg & hd & Hrun & Hlast).
    exists lg, hd. eexists. split; [exact Hrun|]. split; [exact Hlast|].
    split; [reflexivity | by vm_compute].
  - destruct (drain_places_all qfe lp h ps Hps) as (ll & hd & Hrun & Hlast).
    exists ll, hd. eexists. split; [exact Hrun|]. split; [exact Hlast|].
    split; [reflexivity | by vm_compute].
Qed.

(** C7, as stated, fails: whatever [quaternion_from_euler] is, a generator
    writes to the caller's pose.  After a full run the pose's orientation is
    that of the last candidate, so of two input poses that differ in their
    orientation at least one has been changed. *)
Lemma getGrasps_mutates_input : ¬ ∃ qfe, input_pose_preserved qfe.
Proof.
  intros [qfe Hkeep].
  set (other := with_orientation {| quat_x := 1; quat_y := 0; quat_z := 0; quat_w := 0 |}
                                 sim_pose).
  assert (Hfinal : ∀ ps, with_orientation (qfe 0 (1.57 - 0.4) 1.57) ps = ps).
  { intros ps. specialize (Hkeep ps empty_heap).
    pose proof (alloc_pose_lookup ps empty_heap) as Hps.
    destruct (alloc_pose ps empty_heap) as [lp h]. simpl in Hps.
    destruct (grasp_sequence_values qfe lp h ps Hps) as (hg & Hg & Hgp & _).
    specialize (Hkeep _ _ Hg). rewrite Hgp, lookup_insert_eq in Hkeep.
    by injection Hkeep. }
  pose proof (Hfinal sim_pose) as Ha. pose proof (Hfinal other) as Hb.
  unfold other, with_orientation, sim_pose in Ha, Hb. simpl in Ha, Hb.
  congruence.
Qed.
(** ** Retrying over the candidates *)

Section Retry.
Context {W : Type} `{Platform W}.

Lemma retry_pickups_first_success goals : ∀ i w k,
  pickup_codes goals w !! k = Some 1%Z →
  (∀ j, (j < k)%nat → pickup_codes goals w !! j ≠ Some 1%Z) →
  (retry_pickups i goals w).1.1 = true
  ∧ pickup_submissions (retry_pickups i goals w).1.2 = take (S k) goals.
Proof.
  induction goals as [|g goals IH]; intros i w k Hk Hbefore; [done|].
  simpl in *. destruct (pickup_action g w) as [code w1].
  destruct k as [|k]; simpl in Hk.
  - injection Hk as ->. simpl. split; [done|]. by rewrite take_0.
  - destruct (code =? 1)%Z eqn:Hcode.
    + apply Z.eqb_eq in Hcode. subst code.
      by destruct (Hbefore 0%nat ltac:(lia)).
    + destruct (IH (S i) w1 k Hk) as [Hres Hsub].
      { intros j Hj. apply (Hbefore (S j)). lia. }
      destruct (retry_pickups (S i) goals w1) as [[b evs] w2]. simpl in *.
      split; [done|]. by rewrite Hsub.
Qed.

Lemma retry_pickups_all_fail goals : ∀ i w,
  (∀ c, c ∈ pickup_codes goals w → c ≠ 1%Z) →
  (retry_pickups i goals w).1.1 = false
  ∧ pickup_submissions (retry_pickups i goals w).1.2 = goals.
Proof.
  induction goals as [|g goals IH]; intros i w Hall; [done|].
  simpl in *. destruct (pickup_action g w) as [code w1].
  destruct (code =? 1)%Z eqn:Hcode.
  - apply Z.eqb_eq in Hcode. destruct (Hall code); [by left | done].
  - destruct (IH (S i) w1) as [Hres Hsub].
    { intros c Hc. apply Hall. by right. }
    destruct (retry_pickups (S i) goals w1) as [[b evs] w2]. simpl in *.
    split; [done|]. by rewrite Hsub.
Qed.

Lemma retry_places_first_success goals : ∀ i w k,
  place_codes goals w !! k = Some 1%Z →
  (∀ j, (j < k)%nat → place_codes goals w !! j ≠ Some 1%Z) →
  (retry_places i goals w).1.1 = true
  ∧ place_submissions (retry_places i goals w).1.2 = take (S k) goals.
Proof.
  induction goals as [|g goals IH]; intros i w k Hk Hbefore; [done|].
  simpl in *. destruct (place_action g w) as [code w1].
  destruct k as [|k]; simpl in Hk.
  - injection Hk as ->. simpl. split; [done|]. by rewrite take_0.
  - destruct (code =? 1)%Z eqn:Hcode.
    + apply Z.eqb_eq in Hcode. subst code.
      by destruct (Hbefore 0%nat ltac:(lia)).
    + destruct (IH (S i) w1 k Hk) as [Hres Hsub].
      { intros j Hj. apply (Hbefore (S j)). lia. }
      destruct (retry_places (S i) goals w1) as [[b evs] w2]. simpl in *.
      split; [done|]. by rewrite Hsub.
Qed.

Lemma retry_places_all_fail goals : ∀ i w,
  (∀ c, c ∈ place_codes goals w → c ≠ 1%Z) →
  (retry_places i goals w).1.1 = false
  ∧ place_submissions (retry_places i goals w).1.2 = goals.
Proof.
  induction goals as [|g goals IH]; intros i w Hall; [done|].
  simpl in *. destruct (place_action g w) as [code w1].
  destruct (code =? 1)%Z eqn:Hcode.
  - apply Z.eqb_eq in Hcode. destruct (Hall code); [by left | done].
  - destruct (IH (S i) w1) as [Hres Hsub].
    { intros c Hc. apply Hall. by right. }
    destruct (retry_places (S i) goals w1) as [[b evs] w2]. simpl in *.
    split; [done|]. by rewrite Hsub.
Qed.

Variable qfe : Q -> Q -> Q -> Quaternion.

Lemma pickup_loop_yield n self name gen i (st : State W) lg gen' h1 grasp :
  getGrasps_next qfe gen (heap st) = Some (Some lg, gen', h1) →
  read_grasp h1 lg = Some grasp →
  pickup_loop qfe (S n) self name gen i st
  = let g := PickupGoal_of self name grasp in
    let st1 := record (EvPickup g (pickup_action g (world st)).1)
                 (set_world (pickup_action g (world st)).2 (set_heap h1 st)) in
    if ((pickup_action g (world st)).1 =? 1)%Z then
      Ret true (record (EvLog LogInfo "Pick succeeded") st1)
    else
      pickup_loop qfe n self name gen' (S i)
        (record (EvLog LogInfo ("Failed Pick attempt " +:+ pretty i)) st1).
Proof.
  intros Hnext Hread. cbn [pickup_loop]. rewrite Hnext, Hread.
  by destruct (pickup_action _ (world st)).
Qed.

Lemma pickup_loop_refines self name todo : ∀ lg g ps i (st : State W),
  grasps (heap st) !! lg = Some g →
  poses (heap st) !! grasp_pose g = Some ps →
  let goals := PickupGoal_of self name <$> (tilted_grasp qfe g ps <$> todo) in
  ∃ h', pickup_loop qfe (S (length todo)) self name (GraspLoop lg todo) i st
        = Ret (retry_pickups i goals (world st)).1.1
              (after_retry st h' (retry_pickups i goals (world st)).1.2
                           (retry_pickups i goals (world st)).2).
Proof.
  induction todo as [|[p y] todo IH]; intros lg g ps i st Hg Hps.
  - simpl. exists (heap st). unfold after_retry, set_heap. simpl.
    by rewrite app_nil_r.
  - destruct (getGrasps_next_loop qfe (heap st) lg g ps p y todo Hg Hps)
      as [Hnext Hread]. cbv zeta in Hnext, Hread.
    cbn [length]. rewrite (pickup_loop_yield _ _ _ _ _ _ _ _ _ _ Hnext Hread).
    cbv zeta. cbn [fmap list_fmap retry_pickups].
    destruct (pickup_action _ (world st)) as [code w1] eqn:Hact.
    cbn [fst snd].
    destruct (code =? 1)%Z.
    + eexists. unfold after_retry, record, set_world, set_heap. simpl.
      by rewrite <- app_assoc.
    + match goal with |- context [pickup_loop _ _ _ _ _ _ ?st1] =>
        set (st1' := st1) end.
      destruct (IH lg
                  {| grasp_id := tilt_id p y;
                     pre_grasp_posture := pre_grasp_posture g;
                     grasp_posture := grasp_posture g;
                     grasp_pose := grasp_pose g;
                     grasp_quality := tilt_quality p y;
                     grasp_approach := grasp_approach g;
                     grasp_retreat := grasp_retreat g |}
                  (with_orientation (qfe 0 (1.57 - p) y) ps) (S i) st1')
        as [h' IH'].
      { unfold st1'. simpl. by rewrite lookup_insert_eq. }
      { unfold st1'. simpl. by rewrite lookup_insert_eq. }
      exists h'. rewrite IH'. clear IH'.
      change (world st1') with w1.
      match goal with |- context [retry_pickups (S i) ?gs w1] =>
        change gs with (PickupGoal_of self name <$> (tilted_grasp qfe g ps <$> todo)) end.
      destruct (retry_pickups (S i) _ w1) as [[b evs] w2].
      unfold after_retry, st1'. simpl. by rewrite <- !app_assoc.
Qed.

Lemma pickup_refines self name lp ps (st : State W) :
  poses (heap st) !! lp = Some ps →
  let goals := PickupGoal_of self name <$> grasp_values qfe ps in
  ∃ h', pickup qfe self name lp st
        = Ret (retry_pickups 1 goals (world st)).1.1
              (after_retry st h' (retry_pickups 1 goals (world st)).1.2
                           (retry_pickups 1 goals (world st)).2).
Proof.
  intros Hps. unfold pickup, getGrasps, grasp_gen_size.
  set (lg := fresh (dom (grasps (heap st)))).
  set (g := {| grasp_id := "direct_overhead"; grasp_pose := lp;
               pre_grasp_posture := getGripperPosture GRIPPER_OPEN;
               grasp_posture := getGripperPosture GRIPPER_CLOSED;
               grasp_quality := 1.0;
               grasp_approach := getGripperTranslation 0.05 0.15 1.0;
               grasp_retreat := getGripperTranslation 0.05 0.15 (-1.0) |}).
  set (h1 := {| poses := <[lp := with_orientation (qfe 0 1.57 0) ps]> (poses (heap st));
                grasps := <[lg := g]> (grasps (heap st));
                places := places (heap st) |}).
  assert (Hnext : getGrasps_next qfe (GraspStart lp) (heap st)
                  = Some (Some lg, GraspLoop lg tilts, h1)).
  { cbn [getGrasps_next]. unfold set_orientation. by rewrite Hps. }
  assert (Hread : read_grasp h1 lg = Some (overhead_grasp qfe ps)).
  { unfold read_grasp, h1. simpl. rewrite lookup_insert_eq. simpl.
    by rewrite lookup_insert_eq. }
  rewrite (pickup_loop_yield _ _ _ _ _ _ _ _ _ _ Hnext Hread).
  cbv zeta. unfold grasp_values. cbn [fmap list_fmap retry_pickups].
  destruct (pickup_action _ (world st)) as [code w1] eqn:Hact.
  cbn [fst snd].
  destruct (code =? 1)%Z.
  - eexists. unfold after_retry, record, set_world, set_heap. simpl.
    by rewrite <- app_assoc.
  - match goal with |- context [pickup_loop _ _ _ _ _ _ ?st1] =>
      set (st1' := st1) end.
    destruct (pickup_loop_refines self name tilts lg g
                (with_orientation (qfe 0 1.57 0) ps) 2 st1') as [h' Hloop].
    { unfold st1'. simpl. by rewrite lookup_insert_eq. }
    { unfold st1'. simpl. by rewrite lookup_insert_eq. }
    exists h'. rewrite Hloop. clear Hloop.
    change (world st1') with w1.
    match goal with |- context [retry_pickups 2 ?gs w1] =>
      change gs with (PickupGoal_of self name
                        <$> (tilted_grasp qfe (overhead_grasp qfe ps) ps <$> tilts)) end.
    destruct (retry_pickups 2 _ w1) as [[b evs] w2].
    unfold after_retry, st1'. simpl. by rewrite <- !app_assoc.
Qed.

Lemma place_loop_yield n self name gen i (st : State W) ll gen' h1 location :
  getPlaceLocations_next qfe gen (heap st) = Some (Some ll, gen', h1) →
  read_place h1 ll = Some location →
  place_loop qfe (S n) self name gen i st
  = let g := PlaceGoal_of self name location in
    let st1 := record (EvPlace g (place_action g (world st)).1)
                 (set_world (place_action g (world st)).2 (set_heap h1 st)) in
    if ((place_action g (world st)).1 =? 1)%Z then
      Ret true (record (EvLog LogInfo "Place succeeded") st1)
    else
      place_loop qfe n self name gen' (S i)
        (record (EvLog LogInfo ("Failed place attempt " +:+ pretty i)) st1).
Proof.
  intros Hnext Hread. cbn [place_loop]. rewrite Hnext, Hread.
  by destruct (place_action _ (world st)).
Qed.

Lemma place_loop_refines self name todo : ∀ ll l ps i (st : State W),
  places (heap st) !! ll = Some l →
  poses (heap st) !! place_pose l = Some ps →
  let goals := PlaceGoal_of self name <$> (tilted_place qfe l ps <$> todo) in
  ∃ h', place_loop qfe (S (length todo)) self name (PlaceLoop ll todo) i st
        = Ret (retry_places i goals (world st)).1.1
              (after_retry st h' (retry_places i goals (world st)).1.2
                           (retry_places i goals (world st)).2).
Proof.
  induction todo as [|[p y] todo IH]; intros ll l ps i st Hl Hps.
  - simpl. exists (heap st). unfold after_retry, set_heap. simpl.
    by rewrite app_nil_r.
  - destruct (getPlaceLocations_next_loop qfe (heap st) ll l ps p y todo Hl Hps)
      as [Hnext Hread]. cbv zeta in Hnext, Hread.
    cbn [length]. rewrite (place_loop_yield _ _ _ _ _ _ _ _ _ _ Hnext Hread).
    cbv zeta. cbn [fmap list_fmap retry_places].
    destruct (place_action _ (world st)) as [code w1] eqn:Hact.
    cbn [fst snd].
    destruct (code =? 1)%Z.
    + eexists. unfold after_retry, record, set_world, set_heap. simpl.
      by rewrite <- app_assoc.
    + match goal with |- context [place_loop _ _ _ _ _ _ ?st1] =>
        set (st1' := st1) end.
      destruct (IH ll
                  {| place_id := tilt_id p y;
                     place_pose := place_pose l;
                     place_approach := place_approach l;
                     place_retreat := place_retreat l;
                     post_place_posture := post_place_posture l |}
                  (with_orientation (qfe 0 (1.57 - p) y) ps) (S i) st1')
        as [h' IH'].
      { unfold st1'. simpl. by rewrite lookup_insert_eq. }
      { unfold st1'. simpl. by rewrite lookup_insert_eq. }
      exists h'. rewrite IH'. clear IH'.
      change (world st1') with w1.
      match goal with |- context [retry_places (S i) ?gs w1] =>
        change gs with (PlaceGoal_of self name <$> (tilted_place qfe l ps <$> todo)) end.
      destruct (retry_places (S i) _ w1) as [[b evs] w2].
      unfold after_retry, st1'. simpl. by rewrite <- !app_assoc.
Qed.

Lemma place_refines self name lp ps (st : State W) :
  poses (heap st) !! lp = Some ps →
  let goals := PlaceGoal_of self name <$> place_values qfe ps in
  ∃ h', place qfe self name lp st
        = Ret (retry_places 1 goals (world st)).1.1
              (after_retry st h' (retry_places 1 goals (world st)).1.2
                           (retry_places 1 goals (world st)).2).
Proof.
  intros Hps. unfold place, getPlaceLocations, place_gen_size.
  set (ll := fresh (dom (places (heap st)))).
  set (l := {| place_id := "direct_overhead"; place_pose := lp;
               place_approach := getGripperTranslation 0.05 0.15 1.0;
               place_retreat := getGripperTranslation 0.05 0.15 (-1.0);
               post_place_posture := getGripperPosture GRIPPER_OPEN |}).
  set (h1 := {| poses := <[lp := with_orientation (qfe 0 1.57 0) ps]> (poses (heap st));
                grasps := grasps (heap st);
                places := <[ll := l]> (places (heap st)) |}).
  assert (Hnext : getPlaceLocations_next qfe (PlaceStart lp) (heap st)
                  = Some (Some ll, PlaceLoop ll tilts, h1)).
  { cbn [getPlaceLocations_next]. unfold set_orientation. by rewrite Hps. }
  assert (Hread : read_place h1 ll = Some (overhead_place qfe ps)).
  { unfold read_place, h1. simpl. rewrite lookup_insert_eq. simpl.
    by rewrite lookup_insert_eq. }
  rewrite (place_loop_yield _ _ _ _ _ _ _ _ _ _ Hnext Hread).
  cbv zeta. unfold place_values. cbn [fmap list_fmap retry_places].
  destruct (place_action _ (world st)) as [code w1] eqn:Hact.
  cbn [fst snd].
  destruct (code =? 1)%Z.
  - eexists. unfold after_retry, record, set_world, set_heap. simpl.
    by rewrite <- app_assoc.
  - match goal with |- context [place_loop _ _ _ _ _ _ ?st1] =>
      set (st1' := st1) end.
    destruct (place_loop_refines self name tilts ll l
                (with_orientation (qfe 0 1.57 0) ps) 2 st1') as [h' Hloop].
    { unfold st1'. simpl. by rewrite lookup_insert_eq. }
    { unfold st1'. simpl. by rewrite lookup_insert_eq. }
    exists h'. rewrite Hloop. clear Hloop.
    change (world st1') with w1.
    match goal with |- context [retry_places 2 ?gs w1] =>
      change gs with (PlaceGoal_of self name
                        <$> (tilted_place qfe (overhead_place qfe ps) ps <$> tilts)) end.
    destruct (retry_places 2 _ w1) as [[b evs] w2].
    unfold after_retry, st1'. simpl. by rewrite <- !app_assoc.
Qed.
End Retry.
Lemma pickup_submissions_app tr1 tr2 :
  pickup_submissions (tr1 ++ tr2) = pickup_submissions tr1 ++ pickup_submissions tr2.
Proof. apply omap_app. Qed.

Lemma place_submissions_app tr1 tr2 :
  place_submissions (tr1 ++ tr2) = place_submissions tr1 ++ place_submissions tr2.
Proof. apply omap_app. Qed.

Lemma candidate_ids_NoDup : NoDup candidate_ids.
Proof. apply (bool_decide_unpack _). by vm_compute. Qed.

Lemma pickup_goals_NoDup qfe self name ps :
  NoDup (PickupGoal_of self name <$> grasp_values qfe ps).
Proof.
  apply (NoDup_fmap_1 (λ g, grasp_id <$> possible_grasps g)).
  rewrite <- list_fmap_compose.
  change ((λ g, grasp_id <$> possible_grasps g) ∘ PickupGoal_of self name)
    with ((λ x : string, [x]) ∘ (@grasp_id PoseStamped)).
  rewrite list_fmap_compose, grasp_values_ids.
  apply NoDup_fmap_2; [by intros x y [= ->] | apply candidate_ids_NoDup].
Qed.

Lemma place_goals_NoDup qfe self name ps :
  NoDup (PlaceGoal_of self name <$> place_values qfe ps).
Proof.
  apply (NoDup_fmap_1 (λ g, place_id <$> place_locations g)).
  rewrite <- list_fmap_compose.
  change ((λ g, place_id <$> place_locations g) ∘ PlaceGoal_of self name)
    with ((λ x : string, [x]) ∘ (@place_id PoseStamped)).
  rewrite list_fmap_compose, place_values_ids.
  apply NoDup_fmap_2; [by intros x y [= ->] | apply candidate_ids_NoDup].
Qed.

(** C2: [pickup] and [place] against any action server.  The goals are
    the 21 candidates of the generator, one per goal, pairwise different.
    If the server, fed these goals in order, answers 1 for the first time
    at index [k] (the [k+1]-th candidate), the call returns [True] after
    submitting exactly the first [k+1] goals, in generator order; if it
    answers 1 to none of the 21, the call returns [False] after submitting
    all 21, in order. *)
Theorem retry_until_first_success (W : Type) (P : Platform W)
    (qfe : Q -> Q -> Q -> Quaternion) (picker : PickupManager) (placer : PlaceManager)
    (name : string) (ps : PoseStamped) (st0 : State W) :
  let '(lp, h) := alloc_pose ps (heap st0) in
  let st := set_heap h st0 in
  let pick_goals := PickupGoal_of picker name <$> grasp_values qfe ps in
  let place_goals := PlaceGoal_of placer name <$> place_values qfe ps in
  length pick_goals = 21%nat ∧ NoDup pick_goals
  ∧ length place_goals = 21%nat ∧ NoDup place_goals
  ∧ (∀ k, pickup_codes pick_goals (world st) !! k = Some 1%Z →
          (∀ j, (j < k)%nat → pickup_codes pick_goals (world st) !! j ≠ Some 1%Z) →
          ∃ st', pickup qfe picker name lp st = Ret true st'
                 ∧ pickup_submissions (trace st')
                   = pickup_submissions (trace st) ++ take (S k) pick_goals
                 ∧ length (take (S k) pick_goals) = S k)
  ∧ ((∀ c, c ∈ pickup_codes pick_goals (world st) → c ≠ 1%Z) →
          ∃ st', pickup qfe picker name lp st = Ret false st'
                 ∧ pickup_submissions (trace st')
                   = pickup_submissions (trace st) ++ pick_goals)
  ∧ (∀ k, place_codes place_goals (world st) !! k = Some 1%Z →
          (∀ j, (j < k)%nat → place_codes place_goals (world st) !! j ≠ Some 1%Z) →
          ∃ st', place qfe placer name lp st = Ret true st'
                 ∧ place_submissions (trace st')
                   = place_submissions (trace st) ++ take (S k) place_goals
                 ∧ length (take (S k) place_goals) = S k)
  ∧ ((∀ c, c ∈ place_codes place_goals (world st) → c ≠ 1%Z) →
          ∃ st', place qfe placer name lp st = Ret false st'
                 ∧ place_submissions (trace st')
                   = place_submissions (trace st) ++ place_goals).
Proof.
  pose proof (alloc_pose_lookup ps (heap st0)) as Hps.
  destruct (alloc_pose ps (heap st0)) as [lp h]. simpl in Hps. cbv zeta.
  set (st := set_heap h st0).
  destruct (pickup_refines qfe picker name lp ps st Hps) as [hg Hpick].
  destruct (place_refines qfe placer name lp ps st Hps) as [hl Hplace].
  cbv zeta in Hpick, Hplace.
  assert (Hlen_codes : ∀ goals w, length (pickup_codes goals w) = length goals).
  { induction goals as [|g goals IH]; intros w; simpl; [done|].
    destruct (pickup_action g w). simpl. by rewrite IH. }
  assert (Hlen_codes' : ∀ goals w, length (place_codes goals w) = length goals).
  { induction goals as [|g goals IH]; intros w; simpl; [done|].
    destruct (place_action g w). simpl. by rewrite IH. }
  split; [by vm_compute|]. split; [apply pickup_goals_NoDup|].
  split; [by vm_compute|]. split; [apply place_goals_NoDup|].
  split; [|split; [|split]].
  - intros k Hk Hbefore.
    destruct (retry_pickups_first_success _ 1%nat _ k Hk Hbefore) as [Hres Hsub].
    eexists. split; [by rewrite Hpick, Hres|]. unfold after_retry; cbn [trace].
    rewrite pickup_submissions_app, Hsub. split; [done|].
    apply lookup_lt_Some in Hk. rewrite Hlen_codes in Hk.
    rewrite length_take. lia.
  - intros Hall.
    destruct (retry_pickups_all_fail _ 1%nat _ Hall) as [Hres Hsub].
    eexists. split; [by rewrite Hpick, Hres|]. unfold after_retry; cbn [trace].
    by rewrite pickup_submissions_app, Hsub.
  - intros k Hk Hbefore.
    destruct (retry_places_first_success _ 1%nat _ k Hk Hbefore) as [Hres Hsub].
    eexists. split; [by rewrite Hplace, Hres|]. unfold after_retry; cbn [trace].
    rewrite place_submissions_app, Hsub. split; [done|].
    apply lookup_lt_Some in Hk. rewrite Hlen_codes' in Hk.
    rewrite length_take. lia.
  - intros Hall.
    destruct (retry_places_all_fail _ 1%nat _ Hall) as [Hres Hsub].
    eexists. split; [by rewrite Hplace, Hres|]. unfold after_retry; cbn [trace].
    by rewrite place_submissions_app, Hsub.
Qed.
(** C2 at work: the pickup server refuses the first two candidates and
    accepts the third; [pickup] returns [True] after exactly three goals. *)
Lemma retry_until_first_success_witness :
  let st0 := sim_state [(-1)%Z; (-1)%Z; 1%Z] [] in
  let '(lp, h) := alloc_pose sim_pose (heap st0) in
  ∃ st', pickup sim_quaternion arm_pick "piece" lp (set_heap h st0) = Ret true st'
         ∧ pickup_submissions (trace st')
           = take 3 (PickupGoal_of arm_pick "piece" <$> grasp_values sim_quaternion sim_pose).
Proof.
  cbv zeta.
  pose proof (retry_until_first_success SimWorld sim_platform sim_quaternion
                arm_pick arm_place "piece" sim_pose
                (sim_state [(-1)%Z; (-1)%Z; 1%Z] [])) as T.
  destruct (alloc_pose sim_pose (heap (sim_state [(-1)%Z; (-1)%Z; 1%Z] []))) as [lp h].
  destruct T as (_ & _ & _ & _ & Hfirst & _).
  destruct (Hfirst 2%nat) as (st' & Hrun & Hsub & _).
  - vm_compute. reflexivity.
  - intros [|[|j]] Hj; [vm_compute; discriminate | vm_compute; discriminate | lia].
  - exists st'. split; [exact Hrun|]. exact Hsub.
Defined.
(** ** The orchestrator *)

Section Orchestrator.
Context {W : Type} `{Platform W}.
Variable qfe : Q -> Q -> Q -> Quaternion.
Variable SQUARE_SIZE : Q.
Variable castling_extras : gmap string string.

Lemma bind_Ret {A B} (m : M W A) (k : A -> M W B) st b st' :
  bind m k st = Ret b st' → ∃ a st1, m st = Ret a st1 ∧ k a st1 = Ret b st'.
Proof.
  unfold bind. destruct (m st) as [a st1| |]; [|done..]. intros Hk. by exists a, st1.
Qed.

Lemma steady_ret {A} (a : A) : steady W (ret a).
Proof. intros st a' st' [= <- <-]. done. Qed.

Lemma steady_bind {A B} (m : M W A) (k : A -> M W B) :
  steady W m → (∀ a, steady W (k a)) → steady W (bind m k).
Proof.
  intros Hm Hk st b st' Hrun. apply bind_Ret in Hrun as (a & st1 & Hm1 & Hk1).
  apply Hm in Hm1 as [Hs1 Ht1]. apply Hk in Hk1 as [Hs2 Ht2].
  split; [congruence | by etrans].
Qed.

Lemma steady_log level msg : steady W (log level msg).
Proof. intros st a st' [= <- <-]. simpl. split; [done | by apply prefix_app_r]. Qed.

Lemma steady_rospy_now : steady W rospy_now.
Proof. intros st a st' [= <- <-]. done. Qed.

Lemma steady_rospy_sleep d : steady W (rospy_sleep d).
Proof. intros st a st' [= <- <-]. simpl. split; [done | by apply prefix_app_r]. Qed.

Lemma steady_pub_publish o : steady W (pub_publish o).
Proof. intros st a st' [= <- <-]. simpl. split; [done | by apply prefix_app_r]. Qed.

Lemma steady_listener_transformPose frame ps : steady W (listener_transformPose frame ps).
Proof. intros st a st' [= <- <-]. done. Qed.

Lemma steady_new_PoseStamped ps : steady W (new_PoseStamped ps).
Proof.
  intros st a st'. unfold new_PoseStamped. destruct (alloc_pose ps (heap st)).
  intros [= <- <-]. done.
Qed.

Lemma steady_getKnownCollisionObjects : steady W getKnownCollisionObjects.
Proof.
  intros st a st'. unfold getKnownCollisionObjects.
  destruct (scene_feed (world st)). intros [= <- <-]. done.
Qed.

Create HintDb steady.
#[local] Hint Resolve steady_ret steady_log steady_rospy_now steady_rospy_sleep
  steady_pub_publish steady_listener_transformPose steady_new_PoseStamped
  steady_getKnownCollisionObjects : steady.

Ltac steady_step :=
  solve [auto with steady] || (apply steady_bind; [|intros ?]).

Lemma steady_remove_wait n name o : steady W (remove_wait n name o).
Proof.
  induction n as [|n IH]; [by intros st a st'|].
  cbn [remove_wait]. steady_step; [steady_step|].
  destruct (bool_decide _); [|steady_step].
  repeat steady_step.
Qed.

Lemma steady_addBox_wait n name o : steady W (addBox_wait n name o).
Proof.
  induction n as [|n IH]; [by intros st a st'|].
  cbn [addBox_wait]. steady_step; [steady_step|].
  destruct (bool_decide _); [steady_step|].
  repeat steady_step.
Qed.

Lemma steady_remove n frame name : steady W (remove n frame name).
Proof. unfold remove. repeat steady_step. apply steady_remove_wait. Qed.

Lemma steady_addBox n frame name sx sy sz x y z :
  steady W (addBox n frame name sx sy sz x y z).
Proof. unfold addBox. repeat steady_step. apply steady_addBox_wait. Qed.

Lemma steady_pickup_loop n self name : ∀ gen i,
  steady W (pickup_loop qfe n self name gen i).
Proof.
  induction n as [|n IH]; intros gen i st a st'; [done|].
  cbn [pickup_loop].
  destruct (getGrasps_next qfe gen (heap st)) as [[[[lg|] gen'] h1]|]; [| |done].
  - destruct (read_grasp h1 lg) as [grasp|]; [|done].
    destruct (pickup_action _ (world st)) as [code w1].
    destruct (code =? 1)%Z.
    + intros [= <- <-]. simpl. split; [done|].
      rewrite <- app_assoc. by apply prefix_app_r.
    + intros Hrec. apply IH in Hrec as [Hs Ht]. simpl in *. split; [done|].
      etrans; [|exact Ht]. rewrite <- app_assoc. by apply prefix_app_r.
  - intros [= <- <-]. done.
Qed.

Lemma steady_place_loop n self name : ∀ gen i,
  steady W (place_loop qfe n self name gen i).
Proof.
  induction n as [|n IH]; intros gen i st a st'; [done|].
  cbn [place_loop].
  destruct (getPlaceLocations_next qfe gen (heap st)) as [[[[ll|] gen'] h1]|]; [| |done].
  - destruct (read_place h1 ll) as [location|]; [|done].
    destruct (place_action _ (world st)) as [code w1].
    destruct (code =? 1)%Z.
    + intros [= <- <-]. simpl. split; [done|].
      rewrite <- app_assoc. by apply prefix_app_r.
    + intros Hrec. apply IH in Hrec as [Hs Ht]. simpl in *. split; [done|].
      etrans; [|exact Ht]. rewrite <- app_assoc. by apply prefix_app_r.
  - intros [= <- <-]. done.
Qed.

Lemma steady_moveToJointPosition group joints positions tolerance :
  steady W (moveToJointPosition group joints positions tolerance).
Proof.
  unfold moveToJointPosition.
  destruct (joint_constraints joints positions tolerance) as [c1|]; [|done].
  intros st a st'. destruct (move_group_action _ (world st)) as [code w1].
  intros [= <- <-]. simpl. split; [done | by apply prefix_app_r].
Qed.

Lemma steady_tuck : steady W tuck.
Proof. unfold tuck. steady_step; [apply steady_moveToJointPosition | steady_step]. Qed.

Lemma steady_move_piece n start_pose end_pose :
  steady W (move_piece qfe SQUARE_SIZE n start_pose end_pose).
Proof.
  unfold move_piece, addCube.
  repeat first
    [ apply steady_remove | apply steady_addBox | apply steady_pickup_loop
    | apply steady_place_loop
    | match goal with |- steady W (if ?b then _ else _) => destruct b end
    | steady_step ].
Qed.

Lemma steady_falling {A} (m : M W A) : steady W m → falling W m.
Proof. intros Hm st a st' Hrun. apply Hm in Hrun as [-> ?]. done. Qed.

Lemma falling_bind {A B} (m : M W A) (k : A -> M W B) :
  falling W m → (∀ a, falling W (k a)) → falling W (bind m k).
Proof.
  intros Hm Hk st b st' Hrun. apply bind_Ret in Hrun as (a & st1 & Hm1 & Hk1).
  apply Hm in Hm1 as [Hs1 Ht1]. apply Hk in Hk1 as [Hs2 Ht2].
  split; [auto | by etrans].
Qed.

Lemma falling_set_failed : falling W set_failed.
Proof. intros st a st' [= <- <-]. done. Qed.

Lemma falling_attr_of fr : falling W (attr_of fr).
Proof. destruct fr; [apply steady_falling, steady_ret | done]. Qed.

Ltac falling_step :=
  first
    [ apply falling_set_failed
    | apply falling_attr_of
    | apply steady_falling;
      first [ apply steady_move_piece | apply steady_tuck | solve [auto with steady] ]
    | apply falling_bind; [|intros ?] ].

Lemma execute_S n move board :
  execute qfe SQUARE_SIZE castling_extras (S n) move board
  = let '(col_f, rank_f) := toPosition board (String.substring 0 2 move) in
    let '(col_t, rank_t) :=
      toPosition board (String.substring 2 (String.length move - 2) move) in
    let fr := getPiece board col_f rank_f in
    let rest := primary_move qfe SQUARE_SIZE castling_extras (execute qfe SQUARE_SIZE castling_extras n) n
                             move board col_t rank_t fr in
    match getPiece board col_t rank_t with
    | Some to_piece =>
        let* fr_piece := attr_of fr in
        let* moved := move_piece qfe SQUARE_SIZE n (piece_pose to_piece)
                                 (off_board_pose SQUARE_SIZE fr_piece) in
        if negb moved then
          log LogErr "Failed to move captured piece";; set_failed;; tuck;; ret None
        else rest
    | None => rest
    end.
Proof. reflexivity. Qed.

Lemma falling_primary_move rec n move board col_t rank_t fr :
  (∀ move' board', falling W (rec move' board')) →
  falling W (primary_move qfe SQUARE_SIZE castling_extras rec n move board col_t rank_t fr).
Proof.
  intros Hrec. unfold primary_move.
  falling_step; [falling_step|]. falling_step; [falling_step|].
  destruct (negb _); [repeat falling_step|].
  falling_step; [|repeat falling_step].
  destruct (castling_extras !! move); [|falling_step].
  falling_step; [apply Hrec|]. destruct a1; falling_step.
Qed.

Lemma falling_execute n : ∀ move board,
  falling W (execute qfe SQUARE_SIZE castling_extras n move board).
Proof.
  induction n as [|n IH]; intros move board; [by intros st a st'|].
  rewrite execute_S.
  destruct (toPosition board (String.substring 0 2 move)) as [col_f rank_f].
  destruct (toPosition board _) as [col_t rank_t]. cbv zeta.
  destruct (getPiece board col_t rank_t) as [to_piece|].
  - falling_step; [falling_step|]. falling_step; [falling_step|].
    destruct (negb _); [repeat falling_step|]. by apply falling_primary_move.
  - by apply falling_primary_move.
Qed.

Lemma tuck_run (st : State W) :
  tuck st = Ret tt (record (EvMoveGroup tuck_goal (move_group_action tuck_goal (world st)).1)
                      (set_world (move_group_action tuck_goal (world st)).2 st)).
Proof.
  unfold tuck, bind, moveToJointPosition, tuck_goal. simpl.
  by destruct (move_group_action _ (world st)).
Qed.

Lemma abort_run msg (st : State W) :
  (log LogErr msg;; set_failed;; tuck;; ret None) st
  = Ret (@None Pose)
        (record (EvMoveGroup tuck_goal (move_group_action tuck_goal (world st)).1)
           (set_world (move_group_action tuck_goal (world st)).2
              (set_success false (record (EvLog LogErr msg) st)))).
Proof. unfold bind at 1 2 3. unfold log, set_failed. by rewrite tuck_run. Qed.

(** X23: a move onto an occupied square whose relocation reports failure.
    The captured piece is moved first: every event of a run that returns
    comes after those of the relocation.  If [move_piece] returns [False]
    for it, [execute] returns [None]; after the relocation it only logs the
    error and sends the tuck goal (no pickup or place goal of the primary
    sub-move is ever sent), and it leaves [success] cleared, which no later
    [execute] sets again. *)
Theorem capture_failure_aborts (n : nat) (move : string) (board : Board)
    (st st1 : State W) (col_f rank_f col_t rank_t : Z) (fr captured : ChessPiece)
    (moved : bool) :
  toPosition board (String.substring 0 2 move) = (col_f, rank_f) →
  toPosition board (String.substring 2 (String.length move - 2) move)
    = (col_t, rank_t) →
  getPiece board col_f rank_f = Some fr →
  getPiece board col_t rank_t = Some captured →
  move_piece qfe SQUARE_SIZE n (piece_pose captured) (off_board_pose SQUARE_SIZE fr) st
    = Ret moved st1 →
  (∀ r st3, execute qfe SQUARE_SIZE castling_extras (S n) move board st = Ret r st3 →
     trace st `prefix_of` trace st1 ∧ trace st1 `prefix_of` trace st3)
  ∧ (moved = false →
     ∃ st3, execute qfe SQUARE_SIZE castling_extras (S n) move board st = Ret None st3
       ∧ success st3 = false
       ∧ trace st3
         = trace st1 ++ [EvLog LogErr "Failed to move captured piece";
                         EvMoveGroup tuck_goal
                           (move_group_action tuck_goal (world st1)).1]
       ∧ pickup_submissions (trace st3) = pickup_submissions (trace st1)
       ∧ place_submissions (trace st3) = place_submissions (trace st1)
       ∧ ∀ n' move' board' r st4,
           execute qfe SQUARE_SIZE castling_extras n' move' board' st3 = Ret r st4 →
           success st4 = false).
Proof.
  intros Hfrom Hto Hfr Hcap Hmove.
  pose proof (steady_move_piece _ _ _ _ _ _ Hmove) as [_ Hpre].
  assert (Hunfold : execute qfe SQUARE_SIZE castling_extras (S n) move board st
            = (if negb moved then
                 log LogErr "Failed to move captured piece";; set_failed;; tuck;; ret None
               else primary_move qfe SQUARE_SIZE castling_extras (execute qfe SQUARE_SIZE castling_extras n) n
                      move board col_t rank_t (Some fr)) st1).
  { rewrite execute_S, Hfrom, Hto. cbv zeta. rewrite Hfr, Hcap.
    unfold bind at 1. cbn [attr_of ret]. unfold bind at 1. by rewrite Hmove. }
  split.
  - intros r st3 Hrun. split; [done|]. rewrite Hunfold in Hrun.
    destruct moved; simpl in Hrun.
    + eapply falling_primary_move; [|exact Hrun]. apply falling_execute.
    + rewrite abort_run in Hrun. injection Hrun as _ <-. simpl.
      rewrite <- app_assoc. by apply prefix_app_r.
  - intros ->. simpl in Hunfold. rewrite abort_run in Hunfold.
    eexists. split; [exact Hunfold|]. simpl.
    split; [done|]. split; [by rewrite <- app_assoc|].
    split; [by rewrite <- app_assoc, pickup_submissions_app, app_nil_r|].
    split; [by rewrite <- app_assoc, place_submissions_app, app_nil_r|].
    intros n' move' board' r st4 Hlater.
    apply falling_execute in Hlater as [Hkeep _]. simpl in Hkeep.
    destruct (success st4); [by discriminate Hkeep|done].
Qed.

(** A call of [execute] that returns [None] has cleared [success]. *)
Lemma execute_None_failed n move board (st st' : State W) :
  execute qfe SQUARE_SIZE castling_extras n move board st = Ret None st' →
  success st' = false.
Proof.
  destruct n as [|n]; [done|]. rewrite execute_S.
  destruct (toPosition board (String.substring 0 2 move)) as [col_f rank_f].
  destruct (toPosition board _) as [col_t rank_t]. cbv zeta.
  assert (Hprimary : ∀ st0,
    primary_move qfe SQUARE_SIZE castling_extras (execute qfe SQUARE_SIZE castling_extras n) n move board
                 col_t rank_t (getPiece board col_f rank_f) st0 = Ret None st' →
    success st' = false).
  { intros st0. unfold primary_move. intros Hrun.
    apply bind_Ret in Hrun as (fr_piece & s1 & _ & Hrun).
    apply bind_Ret in Hrun as (moved & s2 & _ & Hrun).
    destruct moved; simpl in Hrun.
    - apply bind_Ret in Hrun as (? & s3 & _ & Hrun).
      apply bind_Ret in Hrun as (? & s4 & _ & Hrun). done.
    - rewrite abort_run in Hrun. by injection Hrun as <-. }
  destruct (getPiece board col_t rank_t) as [to_piece|]; [|apply Hprimary].
  intros Hrun.
  apply bind_Ret in Hrun as (fr_piece & s1 & _ & Hrun).
  apply bind_Ret in Hrun as (moved & s2 & _ & Hrun).
  destruct moved; simpl in Hrun; [by eapply Hprimary|].
  rewrite abort_run in Hrun. by injection Hrun as <-.
Qed.

End Orchestrator.
(** ** Runs on the scripted platform *)

(** X23 at work: white takes on d5 and no grasp of the captured piece
    succeeds; the call returns [None] with [success] cleared, after 21
    pickup goals and no place goal. *)
Lemma capture_failure_aborts_witness :
  ∃ st3, sim_execute 3 "e4d5" (sim_board [(4, 4); (3, 5)]%Z) (sim_state [] []) = Ret None st3
         ∧ success st3 = false
         ∧ length (pickup_submissions (trace st3)) = 21%nat
         ∧ place_submissions (trace st3) = [].
Proof.
  edestruct (capture_failure_aborts (W:=SimWorld) sim_quaternion sim_SQUARE_SIZE
               sim_castling_extras 2 "e4d5" (sim_board [(4, 4); (3, 5)]%Z)
               (sim_state [] [])) as [_ Hfail].
  - vm_compute. reflexivity.
  - vm_compute. reflexivity.
  - vm_compute. reflexivity.
  - vm_compute. reflexivity.
  - vm_compute. reflexivity.
  - destruct (Hfail eq_refl) as (st3 & Hrun & Hflag & _ & Hpick & Hplace & _).
    exists st3. split; [exact Hrun|]. split; [exact Hflag|].
    rewrite Hpick, Hplace. split; vm_compute; reflexivity.
Defined.

(** C3, as stated, fails: in this run the rook's sub-move fails, the call
    still returns the king's destination pose, and the overall operation is
    marked failed all the same: [success] was [True] before the call and is
    [False] after it. *)
Lemma castling_extra_failure_clears_success :
  let st0 := sim_state [1%Z] [1%Z] in
  ∃ p st3, sim_execute 3 "e1g1" (sim_board [(4, 1); (7, 1)]%Z) st0 = Ret (Some p) st3
           ∧ errors_of (trace st3)
             = ["Failed to move my piece"; "Failed to carry out castling extra"]
           ∧ success st0 = true
           ∧ success st3 = false.
Proof.
  cbv zeta. eexists _, _. split; [vm_compute; reflexivity|].
  split; [vm_compute; reflexivity|]. split; reflexivity.
Qed.

(** C4: white takes on d5.  The pick of the captured piece is accepted and
    every one of its 21 place locations is refused, so the relocation has
    failed; [execute] does not abort.  It goes on to the primary sub-move
    (the second pickup goal is for the piece on e4), logs no error, leaves
    [success] set and returns the pose of d5.  The same dropped result of
    [place] as in C1. *)
Theorem capture_place_failure_goes_on :
  let st0 := sim_state [1%Z; 1%Z] [] in
  let board := sim_board [(4, 4); (3, 5)]%Z in
  ∃ st3, sim_execute 3 "e4d5" board st0
         = Ret (Some (getPose sim_SQUARE_SIZE 3 5 board 0.03)) st3
         ∧ pickup_codes_of (trace st3) = [1%Z; 1%Z]
         ∧ place_codes_of (trace st3) = replicate 42 (-1)%Z
         ∧ (λ g, (λ x, position (pose (grasp_pose x))) <$> possible_grasps g)
             <$> pickup_submissions (trace st3)
           = [[position (piece_pose (sim_piece 3 5))];
              [position (piece_pose (sim_piece 4 4))]]
         ∧ errors_of (trace st3) = []
         ∧ success st3 = true.
Proof.
  cbv zeta. eexists. split; [vm_compute; reflexivity|].
  repeat split; vm_compute; reflexivity.
Qed.

(** C1: the pick of the pawn on e2 succeeds and every one of the 21 place
    candidates is rejected; [execute] logs no error, leaves [success] set
    and returns the pose of e4 as if the move had been carried out. *)
Theorem place_failure_goes_unreported :
  let st0 := sim_state [1%Z] [] in
  let board := sim_board [(4, 2)%Z] in
  ∃ st3, sim_execute 3 "e2e4" board st0
         = Ret (Some (getPose sim_SQUARE_SIZE 4 4 board 0.03)) st3
         ∧ pickup_codes_of (trace st3) = [1%Z]
         ∧ place_codes_of (trace st3) = replicate 21 (-1)%Z
         ∧ errors_of (trace st3) = []
         ∧ success st3 = true.
Proof.
  cbv zeta. eexists. split; [vm_compute; reflexivity|].
  repeat split; vm_compute; reflexivity.
Qed.

(** ** Further properties of the orchestrator and the tracker *)

Section Stall.
Context {W : Type} `{Platform W}.

(** X1: with a feed that stays silent, [remove] of an identifier the
    tracker lists never returns: whatever the bound, the wait is still going
    on. *)
Theorem remove_stalls (n : nat) (frame name : string) (st : State W) :
  (∀ w, (scene_feed w).1 = []) →
  name ∈ om_collision (objects st) →
  remove n frame name st = OutOfFuel.
Proof.
  intros Hsilent Hin.
  assert (Hwait : ∀ o (st0 : State W), name ∈ om_collision (objects st0) →
            remove_wait n name o st0 = OutOfFuel).
  { intros o. induction n as [|n' IH]; intros st0 Hin0; [done|].
    cbn [remove_wait]. unfold bind at 1. unfold getKnownCollisionObjects.
    pose proof (Hsilent (world st0)) as Hfeed.
    destruct (scene_feed (world st0)) as [msgs w1]. simpl in Hfeed. subst msgs.
    simpl. rewrite bool_decide_eq_true_2 by done.
    unfold bind, log, pub_publish, rospy_sleep. by apply IH. }
  unfold remove, bind, rospy_now, pub_publish. by apply Hwait.
Qed.
End Stall.

(** The stall at work: the tracker lists [table] and nothing is ever heard
    from the planning scene. *)
Lemma remove_stalls_witness :
  remove (H:=silent_platform) 1000 FIXED_FRAME "table"
    {| heap := empty_heap; world := tt;
       objects := {| om_collision := ["table"]; om_attached := [] |};
       success := true; trace := [] |} = OutOfFuel.
Proof. apply remove_stalls; [done | set_solver]. Defined.

Section Plain.
Context {W : Type} `{Platform W}.
Variable qfe : Q -> Q -> Q -> Quaternion.
Variable SQUARE_SIZE : Q.
Variable castling_extras : gmap string string.

(** X2: a move to an empty square that is not a castling move: one
    sub-move and the tuck; the call returns the pose of the destination
    square as [getPose] gives it and leaves [success] as it was. *)
Theorem plain_move_returns_pose (n : nat) (move : string) (board : Board)
    (st st1 : State W) (col_f rank_f col_t rank_t : Z) (fr : ChessPiece) :
  toPosition board (String.substring 0 2 move) = (col_f, rank_f) →
  toPosition board (String.substring 2 (String.length move - 2) move)
    = (col_t, rank_t) →
  getPiece board col_f rank_f = Some fr →
  getPiece board col_t rank_t = None →
  castling_extras !! move = None →
  let to_pose := getPose SQUARE_SIZE col_t rank_t board
                         (point_z (position (piece_pose fr))) in
  move_piece qfe SQUARE_SIZE n (piece_pose fr) to_pose st = Ret true st1 →
  ∃ st3, execute qfe SQUARE_SIZE castling_extras (S n) move board st
         = Ret (Some to_pose) st3
    ∧ trace st3
      = trace st1 ++ [EvMoveGroup tuck_goal (move_group_action tuck_goal (world st1)).1]
    ∧ success st3 = success st.
Proof.
  intros Hfrom Hto Hfr Hempty Hextra to_pose Hmove.
  pose proof (steady_move_piece _ _ _ _ _ _ _ _ Hmove) as [Hflag _].
  eexists. split.
  - rewrite execute_S, Hfrom, Hto. cbv zeta. rewrite Hfr, Hempty.
    unfold primary_move. unfold bind at 1. cbn [attr_of ret].
    unfold bind at 1. fold to_pose. rewrite Hmove. cbn [negb]. rewrite Hextra.
    unfold bind at 1. unfold bind at 1. cbn [ret]. rewrite tuck_run. done.
  - simpl. split; [done | exact Hflag].
Qed.

(** X3: [success] is never set again: once a call has cleared it, every
    later call that returns, whatever it returns, leaves it cleared. *)
Theorem success_stays_cleared (n : nat) (move : string) (board : Board)
    (st st' : State W) (r : option Pose) :
  success st = false →
  execute qfe SQUARE_SIZE castling_extras n move board st = Ret r st' →
  success st' = false.
Proof.
  intros Hflag Hrun. apply falling_execute in Hrun as [Hkeep _].
  destruct (success st'); [|done]. rewrite Hflag in Hkeep. symmetry. by apply Hkeep.
Qed.
End Plain.

(** A plain move at work: e2 to e4, the first grasp and the first place
    location are accepted. *)
Lemma plain_move_returns_pose_witness :
  ∃ st3, sim_execute 3 "e2e4" (sim_board [(4, 2)%Z]) (sim_state [1%Z] [1%Z])
         = Ret (Some (getPose sim_SQUARE_SIZE 4 4 (sim_board [(4, 2)%Z]) 0.03)) st3
         ∧ success st3 = true.
Proof.
  edestruct (plain_move_returns_pose (W:=SimWorld) sim_quaternion sim_SQUARE_SIZE
               sim_castling_extras 2 "e2e4" (sim_board [(4, 2)%Z])
               (sim_state [1%Z] [1%Z])) as (st3 & Hrun & _ & Hflag).
  - vm_compute. reflexivity.
  - vm_compute. reflexivity.
  - vm_compute. reflexivity.
  - vm_compute. reflexivity.
  - vm_compute. reflexivity.
  - vm_compute. reflexivity.
  - exists st3. split; [exact Hrun | exact Hflag].
Defined.

(** The flag at work: after a move whose grasps all failed, a move that
    succeeds still leaves [success] cleared. *)
Lemma success_stays_cleared_witness :
  let board := sim_board [(4, 2)%Z] in
  let st1 := final_state (sim_execute 3 "e2e4" board (sim_state [] [])) (sim_state [] []) in
  ∃ p st2,
    sim_execute 3 "e2e4" board (rescript [1%Z] [1%Z] st1) = Ret (Some p) st2
    ∧ success st2 = false.
Proof.
  cbv zeta.
  assert (Hrun : ∃ p st2,
    sim_execute 3 "e2e4" (sim_board [(4, 2)%Z])
      (rescript [1%Z] [1%Z]
         (final_state (sim_execute 3 "e2e4" (sim_board [(4, 2)%Z]) (sim_state [] []))
                      (sim_state [] [])))
    = Ret (Some p) st2).
  { eexists _, _. vm_compute. reflexivity. }
  destruct Hrun as (p & st2 & Hrun). exists p, st2. split; [exact Hrun|].
  apply (success_stays_cleared (W:=SimWorld) sim_quaternion sim_SQUARE_SIZE
           sim_castling_extras 3 "e2e4" (sim_board [(4, 2)%Z])
           (rescript [1%Z] [1%Z]
              (final_state (sim_execute 3 "e2e4" (sim_board [(4, 2)%Z]) (sim_state [] []))
                           (sim_state [] [])))
           st2 (Some p)).
  - vm_compute. reflexivity.
  - exact Hrun.
Defined.

Section Dropped.
Context {W : Type} `{Platform W}.
Variable qfe : Q -> Q -> Q -> Quaternion.
Variable SQUARE_SIZE : Q.

(** X4: [move_piece] returns what its call of [pickup] returned.  When that
    is [False] it stops there; when it is [True] it goes on to call [place]
    and ends in the state [place] leaves, whatever [place] returned: the
    result of [place] is dropped. *)
Theorem move_piece_drops_place_result (n : nat) (start_pose end_pose : Pose)
    (st st' : State W) (b : bool) :
  move_piece qfe SQUARE_SIZE n start_pose end_pose st = Ret b st' →
  ∃ lp st0 st_p,
    pickup qfe arm_pick "piece" lp st0 = Ret b st_p
    ∧ (b = false → st' = st_p)
    ∧ (b = true →
       ∃ placed lp' st1, place qfe arm_place "piece" lp' st1 = Ret placed st').
Proof.
  unfold move_piece. intros Hrun.
  do 12 (apply bind_Ret in Hrun as (? & ? & _ & Hrun)).
  apply bind_Ret in Hrun as (picked & st_p & Hpick & Hrun).
  eexists _, _, st_p. destruct picked; simpl in Hrun.
  - do 5 (apply bind_Ret in Hrun as (? & ? & _ & Hrun)).
    apply bind_Ret in Hrun as (placed & st2 & Hplace & Hrun).
    injection Hrun as <- <-.
    split; [exact Hpick|]. split; [done|]. intros _. by eexists _, _, _.
  - injection Hrun as <- <-. split; [exact Hpick|]. by split.
Qed.
End Dropped.

(** The dropped result at work: e2 to e4 with every place location
    rejected. *)
Lemma move_piece_drops_place_result_witness :
  ∃ st',
    move_piece (W:=SimWorld) sim_quaternion sim_SQUARE_SIZE 2
      (piece_pose (sim_piece 4 2))
      (getPose sim_SQUARE_SIZE 4 4 (sim_board [(4, 2)%Z]) 0.03) (sim_state [1%Z] []) = Ret true st'
    ∧ ∃ lp st0 st_p,
        pickup sim_quaternion arm_pick "piece" lp st0 = Ret true st_p
        ∧ (true = false → st' = st_p)
        ∧ (true = true →
           ∃ placed lp' st1,
             place sim_quaternion arm_place "piece" lp' st1 = Ret placed st').
Proof.
  assert (Hrun : ∃ st',
    move_piece (W:=SimWorld) sim_quaternion sim_SQUARE_SIZE 2
      (piece_pose (sim_piece 4 2))
      (getPose sim_SQUARE_SIZE 4 4 (sim_board [(4, 2)%Z]) 0.03)
      (sim_state [1%Z] []) = Ret true st').
  { eexists. vm_compute. reflexivity. }
  destruct Hrun as [st' Hrun]. exists st'. split; [exact Hrun|].
  exact (move_piece_drops_place_result (W:=SimWorld) sim_quaternion
           sim_SQUARE_SIZE 2 (piece_pose (sim_piece 4 2))
           (getPose sim_SQUARE_SIZE 4 4 (sim_board [(4, 2)%Z]) 0.03)
           (sim_state [1%Z] []) st' true Hrun).
Defined.

(** ** More on the tracker *)


Lemma list_remove_first x l1 l2 :
  x ∉ l1 → list_remove x (l1 ++ x :: l2) = Some (l1 ++ l2).
Proof.
  induction l1 as [|a l1 IH]; simpl.
  - intros _. by rewrite decide_True.
  - intros [Hne Hnin]%not_elem_of_cons. rewrite decide_False by done.
    by rewrite IH.
Qed.

(** X5: an add event and a remove event for the same identifier in one
    snapshot.  Add first: the list is a permutation of what it was; it is
    unchanged when the identifier was not listed, and otherwise the entry
    that goes is the first one, not the one just appended.  Remove first:
    an identifier that was not listed is listed afterwards.  So the two
    orders agree exactly when the identifier was listed before. *)
Theorem add_and_remove_in_one_scene (om : ObjectManager) (x : string)
    (a r : CollisionObject) (att : list AttachedCollisionObject) :
  let c := om_collision om in
  let add_first :=
    om_collision (sceneCb om (scene_of [as_event ADD x a; as_event REMOVE x r] att)) in
  let remove_first :=
    om_collision (sceneCb om (scene_of [as_event REMOVE x r; as_event ADD x a] att)) in
  add_first ≡ₚ c
  ∧ (x ∉ c → add_first = c ∧ remove_first = c ++ [x])
  ∧ (∀ l1 l2, c = l1 ++ x :: l2 → x ∉ l1 →
       add_first = l1 ++ l2 ++ [x] ∧ remove_first = l1 ++ l2 ++ [x]).
Proof.
  cbv zeta. unfold sceneCb, scene_of, as_event. simpl.
  unfold sceneCb_object. simpl.
  assert (Hsplit : ∀ l1 l2, om_collision om = l1 ++ x :: l2 → x ∉ l1 →
    list_remove x (om_collision om ++ [x]) = Some (l1 ++ l2 ++ [x])
    ∧ list_remove x (om_collision om) = Some (l1 ++ l2)).
  { intros l1 l2 -> Hnin. rewrite <- app_assoc. simpl.
    by rewrite !list_remove_first. }
  assert (Hfresh : x ∉ om_collision om →
    list_remove x (om_collision om ++ [x]) = Some (om_collision om)
    ∧ list_remove x (om_collision om) = None).
  { intros Hnin. split; [|by apply list_remove_None].
    rewrite (list_remove_first x _ [] Hnin). by rewrite app_nil_r. }
  split; [|split].
  - destruct (decide (x ∈ om_collision om)) as [Hin|Hnin].
    + apply list_elem_of_split_l in Hin as (l1 & l2 & Hc & Hnin).
      destruct (Hsplit l1 l2 Hc Hnin) as [-> _]. rewrite Hc.
      apply Permutation_app_head. symmetry. apply Permutation_cons_append.
    + by destruct (Hfresh Hnin) as [-> _].
  - intros Hnin. by destruct (Hfresh Hnin) as [-> ->].
  - intros l1 l2 Hc Hnin. destruct (Hsplit l1 l2 Hc Hnin) as [-> ->].
    by rewrite <- app_assoc.
Qed.

Lemma list_remove_elem_of x l l' y :
  list_remove x l = Some l' → y ∈ l' → y ∈ l.
Proof.
  revert l'. induction l as [|a l IH]; intros l'; simpl; [done|].
  destruct (decide (a = x)) as [->|Hne].
  - intros [= ->] Hy. by right.
  - destruct (list_remove x l) as [l0|]; simpl; [|done].
    intros [= <-] [->|Hy]%elem_of_cons; [by left | right; by apply (IH l0)].
Qed.

Lemma list_remove_keeps x l l' y :
  list_remove x l = Some l' → y ∈ l → y ≠ x → y ∈ l'.
Proof.
  revert l'. induction l as [|a l IH]; intros l'; simpl; [done|].
  destruct (decide (a = x)) as [->|Hne].
  - intros [= ->] [->|Hy]%elem_of_cons Hyx; done.
  - destruct (list_remove x l) as [l0|]; simpl; [|done].
    intros [= <-] [->|Hy]%elem_of_cons Hyx; [by left | right; by apply (IH l0)].
Qed.

Lemma list_remove_filter (P : string → Prop) `{∀ y, Decision (P y)} x l l' :
  list_remove x l = Some l' → ¬ P x → filter P l' = filter P l.
Proof.
  revert l'. induction l as [|a l IH]; intros l'; simpl; [done|].
  destruct (decide (a = x)) as [->|Hne].
  - intros [= ->] Hx. by rewrite filter_cons_False.
  - destruct (list_remove x l) as [l0|]; simpl; [|done].
    intros [= <-] Hx. rewrite !filter_cons, (IH l0 eq_refl Hx). done.
Qed.

(** X6: what one snapshot can do to the free-object list.  An identifier
    listed afterwards was listed before or is named by an add event of the
    snapshot; one that was listed and is not any more is named by a remove
    event; the entries of identifiers the snapshot does not name stay, in
    their order; the length moves by at most the number of remove events
    down and the number of add events up. *)
Theorem sceneCb_provenance (om : ObjectManager) (msg : PlanningScene) :
  let objs := world_collision_objects msg in
  let before := om_collision om in
  let after := om_collision (sceneCb om msg) in
  (∀ x, x ∈ after → x ∈ before ∨ x ∈ object_id <$> adds objs)
  ∧ (∀ x, x ∈ before → x ∈ after ∨ x ∈ object_id <$> removes objs)
  ∧ filter (λ y, y ∉ object_id <$> objs) after
    = filter (λ y, y ∉ object_id <$> objs) before
  ∧ (length before - length (removes objs) ≤ length after
     ≤ length before + length (adds objs))%nat.
Proof.
  cbv zeta. unfold sceneCb. simpl.
  generalize (world_collision_objects msg) as objs.
  generalize (om_collision om) as c. clear om msg.
  assert (Hin : ∀ objs c x, x ∈ foldl sceneCb_object c objs →
            x ∈ c ∨ x ∈ object_id <$> adds objs).
  { induction objs as [|obj objs IH]; intros c x; simpl; [by left|].
    intros [Hx|Hx]%IH.
    - unfold sceneCb_object in Hx. unfold adds. rewrite filter_cons.
      destruct (operation obj) eqn:Hop.
      + rewrite decide_True by done.
        apply elem_of_app in Hx as [Hx|Hx%list_elem_of_singleton]; [by left|].
        right. rewrite fmap_cons. subst x. by left.
      + rewrite decide_False by done.
        destruct (list_remove (object_id obj) c) as [c'|] eqn:Hr; [|by left].
        left. by eapply list_remove_elem_of.
      + rewrite decide_False by done. by left.
      + rewrite decide_False by done. by left.
    - right. unfold adds in *. rewrite filter_cons.
      destruct (decide (operation obj = ADD)); [|done].
      rewrite fmap_cons. by right. }
  assert (Hout : ∀ objs c x, x ∈ c →
            x ∈ foldl sceneCb_object c objs ∨ x ∈ object_id <$> removes objs).
  { induction objs as [|obj objs IH]; intros c x Hx; simpl; [by left|].
    unfold removes. rewrite filter_cons. fold (removes objs).
    destruct (decide (x ∈ sceneCb_object c obj)) as [Hkeep|Hgone].
    - destruct (IH _ _ Hkeep) as [?|?]; [by left|right].
      destruct (decide (operation obj = REMOVE)); [|done].
      rewrite fmap_cons. by right.
    - right. unfold sceneCb_object in Hgone.
      destruct (operation obj) eqn:Hop; try done.
      + destruct Hgone. apply elem_of_app. by left.
      + rewrite decide_True by done. rewrite fmap_cons.
        destruct (decide (x = object_id obj)) as [->|Hne]; [by left|].
        destruct (list_remove (object_id obj) c) as [c'|] eqn:Hr; [|done].
        destruct Hgone. by eapply list_remove_keeps. }
  assert (Hkeep : ∀ (P : string → Prop) `{∀ y, Decision (P y)} objs c,
            (∀ obj, obj ∈ objs → ¬ P (object_id obj)) →
            filter P (foldl sceneCb_object c objs) = filter P c).
  { intros P HP. induction objs as [|obj objs IH]; intros c Hall; simpl; [done|].
    rewrite IH by (intros o Ho; apply Hall; by right).
    assert (Hobj : ¬ P (object_id obj)) by (apply Hall; by left).
    unfold sceneCb_object. destruct (operation obj); try done.
    - rewrite filter_app, (filter_cons_False P _ _ Hobj). by rewrite filter_nil, app_nil_r.
    - destruct (list_remove (object_id obj) c) as [c'|] eqn:Hr; [|done].
      by apply (list_remove_filter P _ _ _ Hr). }
  assert (Hlen : ∀ objs c,
            (length c - length (removes objs) ≤ length (foldl sceneCb_object c objs)
             ≤ length c + length (adds objs))%nat).
  { induction objs as [|obj objs IH]; intros c; simpl; [lia|].
    specialize (IH (sceneCb_object c obj)).
    assert (Hone : (match operation obj with
                    | ADD => length (sceneCb_object c obj) = S (length c)
                    | REMOVE => length c - 1 ≤ length (sceneCb_object c obj) ≤ length c
                    | _ => length (sceneCb_object c obj) = length c
                    end)%nat).
    { unfold sceneCb_object. destruct (operation obj); try done.
      - rewrite length_app. simpl. lia.
      - destruct (list_remove (object_id obj) c) as [c'|] eqn:Hr; [|lia].
        apply list_remove_length in Hr. lia. }
    unfold adds, removes in *. rewrite !filter_cons.
    destruct (operation obj); repeat case_decide; try done; simpl; lia. }
  intros c objs. split; [apply Hin|]. split; [apply Hout|]. split; [|apply Hlen].
  apply Hkeep. intros obj Hobj Hn. apply Hn. by apply list_elem_of_fmap_2.
Qed.

Section Batches.
Context {W : Type} `{Platform W}.

(** X7: several snapshots between two looks.  For the free-object list
    they count as one snapshot with all their events in order; the
    attached-object list is that of the last snapshot alone, and is left as
    it was when none arrived.  [getKnownCollisionObjects] and
    [getKnownAttachedObjects] return these lists. *)
Theorem scenes_compose (st : State W) :
  let msgs := (scene_feed (world st)).1 in
  let om := foldl sceneCb (objects st) msgs in
  om_collision om
  = foldl sceneCb_object (om_collision (objects st)) (msgs ≫= world_collision_objects)
  ∧ om_attached om
    = match last msgs with
      | Some msg => attached_ids msg
      | None => om_attached (objects st)
      end
  ∧ (∃ st', getKnownCollisionObjects st = Ret (om_collision om) st' ∧ objects st' = om)
  ∧ (∃ st', getKnownAttachedObjects st = Ret (om_attached om) st' ∧ objects st' = om).
Proof.
  cbv zeta.
  assert (Hc : ∀ msgs om, om_collision (foldl sceneCb om msgs)
            = foldl sceneCb_object (om_collision om) (msgs ≫= world_collision_objects)).
  { induction msgs as [|msg msgs IH]; intros om; [done|].
    cbn [foldl]. rewrite IH. rewrite bind_cons, foldl_app. done. }
  assert (Ha : ∀ msgs om, om_attached (foldl sceneCb om msgs)
            = match last msgs with
              | Some msg => attached_ids msg
              | None => om_attached om
              end).
  { induction msgs as [|msg msgs IH]; intros om; [done|].
    cbn [foldl]. rewrite IH. destruct msgs as [|msg' msgs].
    - exact (sceneCb_attached om msg).
    - rewrite last_cons_cons. destruct (last (msg' :: msgs)) eqn:Hl; [done|].
      by apply last_None in Hl. }
  split; [apply Hc|]. split; [apply Ha|].
  unfold getKnownCollisionObjects, getKnownAttachedObjects.
  destruct (scene_feed (world st)) as [msgs w1]. simpl.
  split; by eexists.
Qed.
End Batches.

(** ** The blocking calls of the tracker *)

Section ScenePosts.
Context {W : Type} `{Platform W}.

Lemma addBox_wait_run n name o : ∀ (st st' : State W),
  addBox_wait n name o st = Ret tt st' →
  name ∈ om_collision (objects st')
  ∧ heap st' = heap st ∧ success st' = success st
  ∧ ∃ k, (k < n)%nat
      ∧ trace st' = trace st ++ wait_rounds k "Waiting for object to add" o
      ∧ (k = 0%nat ↔ name ∈ next_known st).
Proof.
  induction n as [|n IH]; intros st st'; [done|].
  cbn [addBox_wait]. unfold bind at 1. unfold getKnownCollisionObjects, next_known.
  destruct (scene_feed (world st)) as [msgs w1]. cbn [fst].
  destruct (bool_decide _) eqn:Hin.
  - apply bool_decide_eq_true in Hin. intros [= <-]. simpl.
    split; [done|]. split; [done|]. split; [done|].
    exists 0%nat. split; [lia|]. split; [by rewrite app_nil_r | done].
  - apply bool_decide_eq_false in Hin.
    unfold bind, log, pub_publish, rospy_sleep. intros Hrun.
    apply IH in Hrun as (Hlisted & Hheap & Hflag & k & Hk & Htrace & _).
    simpl in *. split; [done|]. split; [done|]. split; [done|].
    exists (S k). split; [lia|]. split; [|split; [done | by intros ?]].
    rewrite Htrace. unfold wait_rounds. simpl. by rewrite <- !app_assoc.
Qed.

Lemma remove_wait_run n name o : ∀ (st st' : State W),
  remove_wait n name o st = Ret tt st' →
  (name ∉ om_collision (objects st'))
  ∧ heap st' = heap st ∧ success st' = success st
  ∧ ∃ k, (k < n)%nat
      ∧ trace st' = trace st ++ wait_rounds k "Waiting for object to remove" o
      ∧ (k = 0%nat ↔ name ∉ next_known st).
Proof.
  induction n as [|n IH]; intros st st'; [done|].
  cbn [remove_wait]. unfold bind at 1. unfold getKnownCollisionObjects, next_known.
  destruct (scene_feed (world st)) as [msgs w1]. cbn [fst].
  destruct (bool_decide _) eqn:Hin.
  - apply bool_decide_eq_true in Hin.
    unfold bind, log, pub_publish, rospy_sleep. intros Hrun.
    apply IH in Hrun as (Hlisted & Hheap & Hflag & k & Hk & Htrace & _).
    simpl in *. split; [done|]. split; [done|]. split; [done|].
    exists (S k). split; [lia|]. split; [|split; [done | by intros ?]].
    rewrite Htrace. unfold wait_rounds. simpl. by rewrite <- !app_assoc.
  - apply bool_decide_eq_false in Hin. intros [= <-]. simpl.
    split; [done|]. split; [done|]. split; [done|].
    exists 0%nat. split; [lia|]. split; [by rewrite app_nil_r | done].
Qed.

(** X8: a call of [addBox] that returns.  The tracker lists the name; the
    call published the object once and then once more per round of waiting,
    always the object built at the start, stamped with the time of the
    call; it waited no round exactly when the first look already found the
    name listed, be it from an earlier add. *)
Theorem addBox_returns_listed (n : nat) (fixed_frame name : string)
    (size_x size_y size_z x y z : Q) (st st' : State W) :
  addBox n fixed_frame name size_x size_y size_z x y z st = Ret tt st' →
  let o := box_object (time_now (world st)) fixed_frame name
                      size_x size_y size_z x y z in
  name ∈ om_collision (objects st')
  ∧ heap st' = heap st ∧ success st' = success st
  ∧ ∃ k, (k < n)%nat
      ∧ trace st'
        = trace st ++ EvPublish o :: wait_rounds k "Waiting for object to add" o
      ∧ (k = 0%nat ↔
         name ∈ next_known (set_world (publish o (world st)) st)).
Proof.
  unfold addBox, bind, rospy_now, pub_publish. intros Hrun. cbv zeta.
  apply addBox_wait_run in Hrun as (Hlisted & Hheap & Hflag & k & Hk & Htrace & Hzero).
  simpl in *. split; [done|]. split; [done|]. split; [done|].
  exists k. split; [done|]. split; [by rewrite Htrace, <- app_assoc|].
  exact Hzero.
Qed.

(** X9: a call of [remove] that returns.  The tracker does not list the
    name; the call published the removal once and then once more per round
    of waiting; for a name the first look does not find it publishes once
    and returns without sleeping. *)
Theorem remove_returns_unlisted (n : nat) (fixed_frame name : string)
    (st st' : State W) :
  remove n fixed_frame name st = Ret tt st' →
  let o := removal_object (time_now (world st)) fixed_frame name in
  (name ∉ om_collision (objects st'))
  ∧ heap st' = heap st ∧ success st' = success st
  ∧ ∃ k, (k < n)%nat
      ∧ trace st'
        = trace st ++ EvPublish o :: wait_rounds k "Waiting for object to remove" o
      ∧ (k = 0%nat ↔
         name ∉ next_known (set_world (publish o (world st)) st)).
Proof.
  unfold remove, bind, rospy_now, pub_publish. intros Hrun. cbv zeta.
  apply remove_wait_run in Hrun as (Hlisted & Hheap & Hflag & k & Hk & Htrace & Hzero).
  simpl in *. split; [done|]. split; [done|]. split; [done|].
  exists k. split; [done|]. split; [by rewrite Htrace, <- app_assoc|].
  exact Hzero.
Qed.
(** X10: with a feed that stays silent, [addBox] of a name the tracker
    does not list never returns: whatever the bound, the wait is still
    going on. *)
Theorem addBox_stalls (n : nat) (fixed_frame name : string)
    (size_x size_y size_z x y z : Q) (st : State W) :
  (∀ w, (scene_feed w).1 = []) →
  name ∉ om_collision (objects st) →
  addBox n fixed_frame name size_x size_y size_z x y z st = OutOfFuel.
Proof.
  intros Hsilent Hnin.
  assert (Hwait : ∀ o (st0 : State W), name ∉ om_collision (objects st0) →
            addBox_wait n name o st0 = OutOfFuel).
  { intros o. induction n as [|n' IH]; intros st0 Hnin0; [done|].
    cbn [addBox_wait]. unfold bind at 1. unfold getKnownCollisionObjects.
    pose proof (Hsilent (world st0)) as Hfeed.
    destruct (scene_feed (world st0)) as [msgs w1]. simpl in Hfeed. subst msgs.
    simpl. rewrite bool_decide_eq_false_2 by done.
    unfold bind, log, pub_publish, rospy_sleep. by apply IH. }
  unfold addBox, bind, rospy_now, pub_publish. by apply Hwait.
Qed.
End ScenePosts.

(** ** The two halves of a sub-move *)

Section Emits.
Context {W : Type} `{Platform W}.
Variable qfe : Q -> Q -> Q -> Quaternion.
Variable P : Event -> bool.
Hypothesis P_log : ∀ level msg, P (EvLog level msg) = true.
Hypothesis P_sleep : ∀ d, P (EvSleep d) = true.

Lemma emits_nothing {A} (m : M W A) :
  (∀ st a st', m st = Ret a st' → trace st' = trace st) → emits W P m.
Proof.
  intros Hm st a st' Hrun. exists []. rewrite app_nil_r. split; [by eapply Hm | done].
Qed.

Lemma emits_bind {A B} (m : M W A) (k : A -> M W B) :
  emits W P m → (∀ a, emits W P (k a)) → emits W P (bind m k).
Proof.
  intros Hm Hk st b st' Hrun. apply bind_Ret in Hrun as (a & st1 & Hm1 & Hk1).
  apply Hm in Hm1 as (e1 & Ht1 & Hp1). apply Hk in Hk1 as (e2 & Ht2 & Hp2).
  exists (e1 ++ e2). split; [by rewrite Ht2, Ht1, app_assoc | by apply Forall_app].
Qed.

Lemma emits_one {A} (m : M W A) e :
  P e = true → (∀ st a st', m st = Ret a st' → trace st' = trace st ++ [e]) →
  emits W P m.
Proof.
  intros He Hm st a st' Hrun. exists [e]. split; [by eapply Hm | by constructor].
Qed.

Lemma emits_ret {A} (a : A) : emits W P (ret a).
Proof. apply emits_nothing. by intros st a' st' [= <- <-]. Qed.

Lemma emits_log level msg : emits W P (log level msg).
Proof. eapply emits_one; [apply P_log|]. by intros st a st' [= <- <-]. Qed.

Lemma emits_rospy_sleep d : emits W P (rospy_sleep d).
Proof. eapply emits_one; [apply P_sleep|]. by intros st a st' [= <- <-]. Qed.

Lemma emits_rospy_now : emits W P rospy_now.
Proof. apply emits_nothing. by intros st a' st' [= <- <-]. Qed.

Lemma emits_listener_transformPose frame ps :
  emits W P (listener_transformPose frame ps).
Proof. apply emits_nothing. by intros st a' st' [= <- <-]. Qed.

Lemma emits_new_PoseStamped ps : emits W P (new_PoseStamped ps).
Proof.
  apply emits_nothing. intros st a st'. unfold new_PoseStamped.
  destruct (alloc_pose ps (heap st)). by intros [= <- <-].
Qed.

Lemma emits_getKnownCollisionObjects : emits W P getKnownCollisionObjects.
Proof.
  apply emits_nothing. intros st a st'. unfold getKnownCollisionObjects.
  destruct (scene_feed (world st)). by intros [= <- <-].
Qed.

Lemma emits_pub_publish o : P (EvPublish o) = true → emits W P (pub_publish o).
Proof. intros Ho. eapply emits_one; [exact Ho|]. by intros st a st' [= <- <-]. Qed.

Lemma emits_remove_wait n name o :
  P (EvPublish o) = true → emits W P (remove_wait n name o).
Proof.
  intros Hpub. induction n as [|n IH]; [by intros st a st'|].
  cbn [remove_wait].
  apply emits_bind; [apply emits_getKnownCollisionObjects | intros known].
  destruct (bool_decide _); [|apply emits_ret].
  apply emits_bind; [apply emits_log | intros _].
  apply emits_bind; [by apply emits_pub_publish | intros _].
  apply emits_bind; [apply emits_rospy_sleep | intros _]. exact IH.
Qed.

Lemma emits_addBox_wait n name o :
  P (EvPublish o) = true → emits W P (addBox_wait n name o).
Proof.
  intros Hpub. induction n as [|n IH]; [by intros st a st'|].
  cbn [addBox_wait].
  apply emits_bind; [apply emits_getKnownCollisionObjects | intros known].
  destruct (bool_decide _); [apply emits_ret|].
  apply emits_bind; [apply emits_log | intros _].
  apply emits_bind; [by apply emits_pub_publish | intros _].
  apply emits_bind; [apply emits_rospy_sleep | intros _]. exact IH.
Qed.

Lemma emits_remove n frame name :
  (∀ o, P (EvPublish o) = true) → emits W P (remove n frame name).
Proof.
  intros Hpub. unfold remove.
  apply emits_bind; [apply emits_rospy_now | intros t].
  apply emits_bind; [by apply emits_pub_publish | intros _].
  by apply emits_remove_wait.
Qed.

Lemma emits_addBox n frame name sx sy sz x y z :
  (∀ o, P (EvPublish o) = true) → emits W P (addBox n frame name sx sy sz x y z).
Proof.
  intros Hpub. unfold addBox.
  apply emits_bind; [apply emits_rospy_now | intros t].
  apply emits_bind; [by apply emits_pub_publish | intros _].
  by apply emits_addBox_wait.
Qed.

Lemma emits_pickup_loop n self name :
  (∀ g code, P (EvPickup g code) = true) →
  ∀ gen i, emits W P (pickup_loop qfe n self name gen i).
Proof.
  intros Hpick. induction n as [|n IH]; intros gen i st a st'; [done|].
  cbn [pickup_loop].
  destruct (getGrasps_next qfe gen (heap st)) as [[[[lg|] gen'] h1]|]; [| |done].
  - destruct (read_grasp h1 lg) as [grasp|]; [|done].
    destruct (pickup_action _ (world st)) as [code w1].
    destruct (code =? 1)%Z.
    + intros [= <- <-]. simpl. eexists [_; _]. split; [by rewrite <- app_assoc|].
      repeat constructor; [apply Hpick | apply P_log].
    + intros Hrec. apply IH in Hrec as (evs & Ht & Hp). simpl in Ht.
      eexists (_ :: _ :: evs). split; [by rewrite Ht, <- !app_assoc|].
      repeat constructor; [apply Hpick | apply P_log | exact Hp].
  - intros [= <- <-]. exists []. by rewrite app_nil_r.
Qed.

Lemma emits_place_loop n self name :
  (∀ g code, P (EvPlace g code) = true) →
  ∀ gen i, emits W P (place_loop qfe n self name gen i).
Proof.
  intros Hplace. induction n as [|n IH]; intros gen i st a st'; [done|].
  cbn [place_loop].
  destruct (getPlaceLocations_next qfe gen (heap st)) as [[[[ll|] gen'] h1]|]; [| |done].
  - destruct (read_place h1 ll) as [location|]; [|done].
    destruct (place_action _ (world st)) as [code w1].
    destruct (code =? 1)%Z.
    + intros [= <- <-]. simpl. eexists [_; _]. split; [by rewrite <- app_assoc|].
      repeat constructor; [apply Hplace | apply P_log].
    + intros Hrec. apply IH in Hrec as (evs & Ht & Hp). simpl in Ht.
      eexists (_ :: _ :: evs). split; [by rewrite Ht, <- !app_assoc|].
      repeat constructor; [apply Hplace | apply P_log | exact Hp].
  - intros [= <- <-]. exists []. by rewrite app_nil_r.
Qed.
End Emits.

Section Counts.
Context {W : Type} `{Platform W}.

Lemma retry_pickups_count goals : ∀ i w,
  let r := retry_pickups i goals w in
  (length (pickup_submissions r.1.2) ≤ length goals)%nat
  ∧ (goals ≠ [] → 1 ≤ length (pickup_submissions r.1.2))%nat
  ∧ (r.1.1 = false → pickup_submissions r.1.2 = goals).
Proof.
  induction goals as [|g goals IH]; intros i w; [done|].
  cbn [retry_pickups]. destruct (pickup_action g w) as [code w1].
  destruct (code =? 1)%Z; simpl.
  - split; [lia|]. split; [lia | done].
  - specialize (IH (S i) w1). cbv zeta in IH.
    destruct (retry_pickups (S i) goals w1) as [[b evs] w2]. simpl in *.
    destruct IH as (Hle & _ & Hall). split; [lia|]. split; [lia|].
    intros Hb. by rewrite Hall.
Qed.

Lemma retry_places_count goals : ∀ i w,
  let r := retry_places i goals w in
  (length (place_submissions r.1.2) ≤ length goals)%nat
  ∧ (goals ≠ [] → 1 ≤ length (place_submissions r.1.2))%nat
  ∧ (r.1.1 = false → place_submissions r.1.2 = goals).
Proof.
  induction goals as [|g goals IH]; intros i w; [done|].
  cbn [retry_places]. destruct (place_action g w) as [code w1].
  destruct (code =? 1)%Z; simpl.
  - split; [lia|]. split; [lia | done].
  - specialize (IH (S i) w1). cbv zeta in IH.
    destruct (retry_places (S i) goals w1) as [[b evs] w2]. simpl in *.
    destruct IH as (Hle & _ & Hall). split; [lia|]. split; [lia|].
    intros Hb. by rewrite Hall.
Qed.
End Counts.

Section Halves.
Context {W : Type} `{Platform W}.
Variable qfe : Q -> Q -> Q -> Quaternion.
Variable SQUARE_SIZE : Q.

Lemma pickup_fresh_run self name pt (st st' : State W) b :
  (let* pt_ref := new_PoseStamped pt in pickup qfe self name pt_ref) st = Ret b st' →
  ∃ evs, trace st' = trace st ++ evs
    ∧ Forall (λ e, pick_only e = true) evs
    ∧ (1 ≤ length (pickup_submissions evs) ≤ 21)%nat
    ∧ (b = false → length (pickup_submissions evs) = 21%nat).
Proof.
  unfold bind, new_PoseStamped.
  pose proof (alloc_pose_lookup pt (heap st)) as Hps.
  destruct (alloc_pose pt (heap st)) as [lp h]. simpl in Hps.
  intros Hrun.
  pose proof (emits_pickup_loop qfe pick_only (λ _ _, eq_refl)
                _ self name (λ _ _, eq_refl) _ _ _ _ _ Hrun) as (evs & Ht & Hp).
  destruct (pickup_refines qfe self name lp pt (set_heap h st) Hps) as [h' Href].
  cbv zeta in Href. rewrite Href in Hrun. injection Hrun as Hb Hst.
  pose proof (retry_pickups_count (PickupGoal_of self name <$> grasp_values qfe pt)
                1 (world (set_heap h st))) as (Hle & Hge & Hall).
  cbv zeta in Hle, Hge, Hall.
  assert (Hevs : evs = (retry_pickups 1 (PickupGoal_of self name <$> grasp_values qfe pt)
                          (world (set_heap h st))).1.2).
  { rewrite <- Hst in Ht. simpl in Ht. by apply app_inv_head in Ht. }
  exists evs. simpl in Ht. split; [done|]. split; [done|]. rewrite Hevs.
  split; [split; [by apply Hge | exact Hle]|].
  intros ->. by rewrite Hall.
Qed.

Lemma place_fresh_run self name pt (st st' : State W) b :
  (let* pt_ref := new_PoseStamped pt in place qfe self name pt_ref) st = Ret b st' →
  ∃ evs, trace st' = trace st ++ evs
    ∧ Forall (λ e, place_only e = true) evs
    ∧ (1 ≤ length (place_submissions evs) ≤ 21)%nat
    ∧ (b = false → length (place_submissions evs) = 21%nat).
Proof.
  unfold bind, new_PoseStamped.
  pose proof (alloc_pose_lookup pt (heap st)) as Hps.
  destruct (alloc_pose pt (heap st)) as [lp h]. simpl in Hps.
  intros Hrun.
  pose proof (emits_place_loop qfe place_only (λ _ _, eq_refl)
                _ self name (λ _ _, eq_refl) _ _ _ _ _ Hrun) as (evs & Ht & Hp).
  destruct (place_refines qfe self name lp pt (set_heap h st) Hps) as [h' Href].
  cbv zeta in Href. rewrite Href in Hrun. injection Hrun as Hb Hst.
  pose proof (retry_places_count (PlaceGoal_of self name <$> place_values qfe pt)
                1 (world (set_heap h st))) as (Hle & Hge & Hall).
  cbv zeta in Hle, Hge, Hall.
  assert (Hevs : evs = (retry_places 1 (PlaceGoal_of self name <$> place_values qfe pt)
                          (world (set_heap h st))).1.2).
  { rewrite <- Hst in Ht. simpl in Ht. by apply app_inv_head in Ht. }
  exists evs. simpl in Ht. split; [done|]. split; [done|]. rewrite Hevs.
  split; [split; [by apply Hge | exact Hle]|].
  intros ->. by rewrite Hall.
Qed.

Lemma scene_only_submissions evs :
  Forall (λ e, scene_only e = true) evs →
  pickup_submissions evs = [] ∧ place_submissions evs = []
  ∧ Forall (λ e, scene_or_pick e = true) evs.
Proof.
  induction 1 as [|e evs He _ (IH1 & IH2 & IH3)]; [done|].
  destruct e; try done; by repeat split; try constructor.
Qed.

Lemma pick_only_submissions evs :
  Forall (λ e, pick_only e = true) evs →
  place_submissions evs = [] ∧ Forall (λ e, scene_or_pick e = true) evs.
Proof.
  induction 1 as [|e evs He _ (IH1 & IH2)]; [done|].
  destruct e; try done; by repeat split; try constructor.
Qed.

Lemma place_only_submissions evs :
  Forall (λ e, place_only e = true) evs → pickup_submissions evs = [].
Proof. induction 1 as [|e evs He _ IH]; [done|]. by destruct e. Qed.

Lemma pick_and_place_run end_pose pt (st st' : State W) b :
  pick_and_place qfe end_pose pt st = Ret b st' →
  ∃ e1 e2, trace st' = trace st ++ e1 ++ e2
    ∧ Forall (λ e, pick_only e = true) e1
    ∧ Forall (λ e, place_only e = true) e2
    ∧ (1 ≤ length (pickup_submissions e1) ≤ 21)%nat
    ∧ if b then (1 ≤ length (place_submissions e2) ≤ 21)%nat
      else e2 = [] ∧ length (pickup_submissions e1) = 21%nat.
Proof.
  unfold pick_and_place. intros Hrun.
  apply bind_Ret in Hrun as ([] & s0 & [= <-] & Hrun).
  change (bind (new_PoseStamped pt) ?k) with
    (bind (bind (new_PoseStamped pt) (pickup qfe arm_pick "piece"))
          (λ picked : bool, if negb picked then ret false else
             rospy_sleep 1.0;; log LogInfo "Placing piece";;
             let* t := rospy_now in
             let* pt0 := listener_transformPose FIXED_FRAME
                           (board_pose (t - 1.0) (point_x (position end_pose))
                              (point_y (position end_pose)) 0.03) in
             bind (bind (new_PoseStamped pt0) (place qfe arm_place "piece"))
                  (λ _, ret true))) in Hrun.
  apply bind_Ret in Hrun as (picked & st_p & Hpick & Hrun).
  apply pickup_fresh_run in Hpick as (e1 & Ht1 & Hp1 & Hc1 & Hall1).
  simpl in Ht1. destruct picked; simpl in Hrun.
  - apply bind_Ret in Hrun as ([] & s1 & [= <-] & Hrun).
    apply bind_Ret in Hrun as ([] & s2 & [= <-] & Hrun).
    apply bind_Ret in Hrun as (t & s3 & [= <- <-] & Hrun).
    apply bind_Ret in Hrun as (pt0 & s4 & [= <- <-] & Hrun).
    apply bind_Ret in Hrun as (placed & s5 & Hplace & [= <- <-]).
    apply place_fresh_run in Hplace as (e2 & Ht2 & Hp2 & Hc2 & _).
    simpl in Ht2.
    exists (EvLog LogInfo "Picking piece" :: e1),
           (EvSleep 1.0 :: EvLog LogInfo "Placing piece" :: e2).
    split; [by rewrite Ht2, Ht1, <- !app_assoc|].
    split; [by constructor|]. split; [by repeat constructor|]. done.
  - injection Hrun as <- <-.
    exists (EvLog LogInfo "Picking piece" :: e1), [].
    split; [by rewrite Ht1, app_nil_r, <- app_assoc|].
    split; [by constructor|]. split; [done|]. split; [done|].
    split; [done | by apply Hall1].
Qed.

Lemma splits_bind P {A B} (m : M W A) (k : A -> M W B) R :
  emits W P m → (∀ a, splits W P (k a) R) → splits W P (bind m k) R.
Proof.
  intros Hm Hk st b st' Hrun. apply bind_Ret in Hrun as (a & st1 & Hm1 & Hk1).
  apply Hm in Hm1 as (e1 & Ht1 & Hp1).
  apply Hk in Hk1 as (st2 & e2 & Ht2 & Hp2 & HR).
  exists st2, (e1 ++ e2). split; [by rewrite Ht2, Ht1, app_assoc|].
  split; [by apply Forall_app | done].
Qed.

Lemma splits_here P {A} (m : M W A) :
  splits W P m (λ st1 a st', m st1 = Ret a st').
Proof. intros st a st' Hrun. exists st, []. by rewrite app_nil_r. Qed.

Lemma move_piece_split n start_pose end_pose :
  splits W scene_only (move_piece qfe SQUARE_SIZE n start_pose end_pose)
         (λ st1 b st', ∃ pt, pick_and_place qfe end_pose pt st1 = Ret b st').
Proof.
  unfold move_piece, addCube.
  apply splits_bind; [by apply emits_log | intros _].
  apply splits_bind; [by apply emits_remove | intros _].
  apply splits_bind; [by apply emits_rospy_now | intros t].
  apply splits_bind; [by apply emits_listener_transformPose | intros pt].
  apply splits_bind; [by apply emits_addBox | intros _].
  apply splits_bind; [by apply emits_log | intros _].
  apply splits_bind; [by apply emits_remove | intros _].
  apply splits_bind; [by apply emits_rospy_now | intros t'].
  apply splits_bind; [by apply emits_listener_transformPose | intros pt'].
  apply splits_bind; [by apply emits_addBox | intros _].
  intros st b st' Hrun. exists st, []. rewrite app_nil_r.
  split; [done|]. split; [done|]. by exists pt'.
Qed.

(** X11: the order of a call of [move_piece] that returns.  What it adds
    to the trace falls in two parts.  The first holds only log lines,
    sleeps, scene publications and pickup goals, between 1 and 21 of the
    last; the second holds only log lines, sleeps and place goals.  So
    every pickup goal and every scene publication comes before every place
    goal, and no move_group goal is sent at all.  When the call returns
    [False] all 21 grasps were tried and the second part is empty; when it
    returns [True] between 1 and 21 place goals were sent. *)
Theorem move_piece_picks_before_placing (n : nat) (start_pose end_pose : Pose)
    (st st' : State W) (b : bool) :
  move_piece qfe SQUARE_SIZE n start_pose end_pose st = Ret b st' →
  ∃ e1 e2, trace st' = trace st ++ e1 ++ e2
    ∧ Forall (λ e, scene_or_pick e = true) e1
    ∧ Forall (λ e, place_only e = true) e2
    ∧ (1 ≤ length (pickup_submissions e1) ≤ 21)%nat
    ∧ if b then (1 ≤ length (place_submissions e2) ≤ 21)%nat
      else e2 = [] ∧ length (pickup_submissions e1) = 21%nat.
Proof.
  intros Hrun.
  apply move_piece_split in Hrun as (st1 & e0 & Ht0 & Hp0 & pt & Hrun).
  apply pick_and_place_run in Hrun as (e1 & e2 & Ht & Hp1 & Hp2 & Hc & Hb).
  apply scene_only_submissions in Hp0 as (Hnone & _ & Hp0).
  apply pick_only_submissions in Hp1 as (_ & Hp1).
  exists (e0 ++ e1), e2. split; [by rewrite Ht, Ht0, <- !app_assoc|].
  split; [by apply Forall_app|]. split; [done|].
  rewrite pickup_submissions_app, Hnone. done.
Qed.
End Halves.

(** ** The scene updates of a sub-move *)

Section SceneUpdates.
Context {W : Type} `{Platform W}.
Variable qfe : Q -> Q -> Q -> Quaternion.
Variable SQUARE_SIZE : Q.

Lemma published_app tr1 tr2 : published (tr1 ++ tr2) = published tr1 ++ published tr2.
Proof. apply omap_app. Qed.

Lemma published_wait k msg o : published (wait_rounds k msg o) = replicate k o.
Proof.
  unfold wait_rounds. induction k as [|k IH]; [done|]. simpl. by rewrite <- IH.
Qed.

Lemma published_pick_only evs :
  Forall (λ e, pick_only e = true) evs → published evs = [].
Proof. induction 1 as [|e evs He _ IH]; [done|]. by destruct e. Qed.

Lemma published_place_only evs :
  Forall (λ e, place_only e = true) evs → published evs = [].
Proof. induction 1 as [|e evs He _ IH]; [done|]. by destruct e. Qed.

(** X19: what a sub-move tells the planning scene.  In a call of
    [move_piece] that returns, the objects published are, in this order
    and each at least once: the removal of [table]; the table, a box over
    the whole board area, re-read from TF; the removal of [piece]; the
    piece, a 15 mm cube over the start square.  Nothing else is published
    during the call. *)
Theorem move_piece_scene_updates (n : nat) (start_pose end_pose : Pose)
    (st st' : State W) (b : bool) :
  move_piece qfe SQUARE_SIZE n start_pose end_pose st = Ret b st' →
  ∃ evs w2 w3 w4 k1 k2 k3 k4,
    trace st' = trace st ++ evs
    ∧ published evs
      = replicate (S k1) (removal_object (time_now (world st)) FIXED_FRAME "table")
        ++ replicate (S k2) (table_object SQUARE_SIZE w2)
        ++ replicate (S k3) (removal_object (time_now w3) FIXED_FRAME "piece")
        ++ replicate (S k4) (piece_object start_pose w4).
Proof.
  unfold move_piece, addCube. intros Hrun.
  apply bind_Ret in Hrun as ([] & s1 & [= <-] & Hrun).
  apply bind_Ret in Hrun as ([] & s2 & Hrm1 & Hrun).
  apply remove_returns_unlisted in Hrm1 as (_ & _ & _ & k1 & _ & Ht1 & _).
  apply bind_Ret in Hrun as (t2 & s3 & [= <- <-] & Hrun).
  apply bind_Ret in Hrun as (pt2 & s4 & [= <- <-] & Hrun).
  apply bind_Ret in Hrun as ([] & s5 & Hadd1 & Hrun).
  apply addBox_returns_listed in Hadd1 as (_ & _ & _ & k2 & _ & Ht2 & _).
  apply bind_Ret in Hrun as ([] & s6 & [= <-] & Hrun).
  apply bind_Ret in Hrun as ([] & s7 & Hrm2 & Hrun).
  apply remove_returns_unlisted in Hrm2 as (_ & _ & _ & k3 & _ & Ht3 & _).
  apply bind_Ret in Hrun as (t4 & s8 & [= <- <-] & Hrun).
  apply bind_Ret in Hrun as (pt4 & s9 & [= <- <-] & Hrun).
  apply bind_Ret in Hrun as ([] & s10 & Hadd2 & Hrun).
  apply addBox_returns_listed in Hadd2 as (_ & _ & _ & k4 & _ & Ht4 & _).
  change (pick_and_place qfe end_pose
            (transformPose FIXED_FRAME
               (board_pose (time_now (world s7) - 1.0) (point_x (position start_pose))
                  (point_y (position start_pose)) 0.03) (world s7)) s10
          = Ret b st') in Hrun.
  apply pick_and_place_run in Hrun as (e1 & e2 & Ht5 & Hp1 & Hp2 & _).
  cbv zeta in *. simpl in Ht1, Ht3.
  eexists _, (world s2), (world s5), (world s7), k1, k2, k3, k4.
  split.
  - rewrite Ht5, Ht4, Ht3, Ht2, Ht1. rewrite <- !app_assoc. reflexivity.
  - rewrite !published_app. simpl.
    rewrite (published_pick_only _ Hp1), (published_place_only _ Hp2), !app_nil_r.
    by rewrite !published_wait.
Qed.
End SceneUpdates.

(** ** What a sub-move reads of its poses *)

Section Heights.
Context {W : Type} `{Platform W}.
Variable qfe : Q -> Q -> Q -> Quaternion.
Variable SQUARE_SIZE : Q.

(** X20: [move_piece] reads only the x and the y of the two poses it is
    given.  Their height and orientation never reach the scene or a goal:
    the piece is added, picked and put down at 30 mm above the board
    whatever [execute] passes as [z]. *)
Theorem move_piece_ignores_height (n : nat) (start_pose end_pose start_pose' end_pose' : Pose)
    (st : State W) :
  point_x (position start_pose') = point_x (position start_pose) →
  point_y (position start_pose') = point_y (position start_pose) →
  point_x (position end_pose') = point_x (position end_pose) →
  point_y (position end_pose') = point_y (position end_pose) →
  move_piece qfe SQUARE_SIZE n start_pose' end_pose' st
  = move_piece qfe SQUARE_SIZE n start_pose end_pose st.
Proof.
  intros Hsx Hsy Hex Hey. unfold move_piece. by rewrite Hsx, Hsy, Hex, Hey.
Qed.
End Heights.

(** ** The caller's pose after a retry *)

Section Aliasing.
Context {W : Type} `{Platform W}.
Variable qfe : Q -> Q -> Q -> Quaternion.

Lemma same_place_with_orientation q a b :
  same_place a b → same_place (with_orientation q a) b.
Proof. by intros [? ?]. Qed.

Lemma pickup_loop_pose self name todo : ∀ lg g ps i (st st' : State W) b,
  grasps (heap st) !! lg = Some g →
  poses (heap st) !! grasp_pose g = Some ps →
  pickup_loop qfe (S (length todo)) self name (GraspLoop lg todo) i st = Ret b st' →
  ∃ evs, trace st' = trace st ++ evs
    ∧ poses (heap st') !! grasp_pose g = Some (default ps (last (grasp_poses evs)))
    ∧ same_place (default ps (last (grasp_poses evs))) ps.
Proof.
  induction todo as [|[p y] todo IH]; intros lg g ps i st st' b Hg Hps.
  - simpl. intros [= <- <-]. exists []. by rewrite app_nil_r.
  - destruct (getGrasps_next_loop qfe (heap st) lg g ps p y todo Hg Hps)
      as [Hnext Hread]. cbv zeta in Hnext, Hread.
    cbn [length]. rewrite (pickup_loop_yield qfe _ _ _ _ _ _ _ _ _ _ Hnext Hread).
    cbv zeta. destruct (pickup_action _ (world st)) as [code w1]. cbn [fst snd].
    destruct (code =? 1)%Z.
    + intros [= <- <-]. eexists [_; _]. simpl.
      split; [by rewrite <- app_assoc|]. rewrite lookup_insert_eq. done.
    + intros Hrun.
      apply (IH lg {| grasp_id := tilt_id p y;
                      pre_grasp_posture := pre_grasp_posture g;
                      grasp_posture := grasp_posture g;
                      grasp_pose := grasp_pose g;
                      grasp_quality := tilt_quality p y;
                      grasp_approach := grasp_approach g;
                      grasp_retreat := grasp_retreat g |}
                   (with_orientation (qfe 0 (1.57 - p) y) ps)) in Hrun
        as (evs & Ht & Hpose & Hsame).
      * simpl in Ht, Hpose. eexists (_ :: _ :: evs).
        split; [by rewrite Ht, <- !app_assoc|].
        unfold grasp_poses in *. simpl. rewrite last_cons.
        destruct (last _) as [x|]; simpl in *; [done|].
        split; [done|]. by apply same_place_with_orientation.
      * simpl. by rewrite lookup_insert_eq.
      * simpl. by rewrite lookup_insert_eq.
Qed.
Lemma place_loop_pose self name todo : ∀ lg g ps i (st st' : State W) b,
  places (heap st) !! lg = Some g →
  poses (heap st) !! place_pose g = Some ps →
  place_loop qfe (S (length todo)) self name (PlaceLoop lg todo) i st = Ret b st' →
  ∃ evs, trace st' = trace st ++ evs
    ∧ poses (heap st') !! place_pose g = Some (default ps (last (place_poses evs)))
    ∧ same_place (default ps (last (place_poses evs))) ps.
Proof.
  induction todo as [|[p y] todo IH]; intros lg g ps i st st' b Hg Hps.
  - simpl. intros [= <- <-]. exists []. by rewrite app_nil_r.
  - destruct (getPlaceLocations_next_loop qfe (heap st) lg g ps p y todo Hg Hps)
      as [Hnext Hread]. cbv zeta in Hnext, Hread.
    cbn [length]. rewrite (place_loop_yield qfe _ _ _ _ _ _ _ _ _ _ Hnext Hread).
    cbv zeta. destruct (place_action _ (world st)) as [code w1]. cbn [fst snd].
    destruct (code =? 1)%Z.
    + intros [= <- <-]. eexists [_; _]. simpl.
      split; [by rewrite <- app_assoc|]. rewrite lookup_insert_eq. done.
    + intros Hrun.
      apply (IH lg {| place_id := tilt_id p y;
                      place_pose := place_pose g;
                      place_approach := place_approach g;
                      place_retreat := place_retreat g;
                      post_place_posture := post_place_posture g |}
                   (with_orientation (qfe 0 (1.57 - p) y) ps)) in Hrun
        as (evs & Ht & Hpose & Hsame).
      * simpl in Ht, Hpose. eexists (_ :: _ :: evs).
        split; [by rewrite Ht, <- !app_assoc|].
        unfold place_poses in *. simpl. rewrite last_cons.
        destruct (last _) as [x|]; simpl in *; [done|].
        split; [done|]. by apply same_place_with_orientation.
      * simpl. by rewrite lookup_insert_eq.
      * simpl. by rewrite lookup_insert_eq.
Qed.

(** X22: [pickup] and [place] write into the pose they are given.  The
    generator keeps the caller's [PoseStamped] as the pose of its one
    candidate, so when the call returns that object holds the pose of the
    last goal sent: its header and position are the caller's, its
    orientation is the last candidate's. *)
Theorem caller_pose_is_overwritten (picker : PickupManager) (placer : PlaceManager)
    (name : string) (lp : nat) (ps : PoseStamped) (st st' : State W) (b : bool) :
  poses (heap st) !! lp = Some ps →
  (pickup qfe picker name lp st = Ret b st' →
   ∃ evs sent, trace st' = trace st ++ evs
     ∧ last (grasp_poses evs) = Some sent
     ∧ poses (heap st') !! lp = Some sent
     ∧ same_place sent ps)
  ∧ (place qfe placer name lp st = Ret b st' →
   ∃ evs sent, trace st' = trace st ++ evs
     ∧ last (place_poses evs) = Some sent
     ∧ poses (heap st') !! lp = Some sent
     ∧ same_place sent ps).
Proof.
  intros Hps. split.
  - unfold pickup, getGrasps, grasp_gen_size.
    set (lg := fresh (dom (grasps (heap st)))).
    set (g := {| grasp_id := "direct_overhead"; grasp_pose := lp;
                 pre_grasp_posture := getGripperPosture GRIPPER_OPEN;
                 grasp_posture := getGripperPosture GRIPPER_CLOSED;
                 grasp_quality := 1.0;
                 grasp_approach := getGripperTranslation 0.05 0.15 1.0;
                 grasp_retreat := getGripperTranslation 0.05 0.15 (-1.0) |}).
    set (h1 := {| poses := <[lp := with_orientation (qfe 0 1.57 0) ps]> (poses (heap st));
                  grasps := <[lg := g]> (grasps (heap st));
                  places := places (heap st) |}).
    assert (Hnext : getGrasps_next qfe (GraspStart lp) (heap st)
                    = Some (Some lg, GraspLoop lg tilts, h1)).
    { cbn [getGrasps_next]. unfold set_orientation. by rewrite Hps. }
    assert (Hread : read_grasp h1 lg = Some (overhead_grasp qfe ps)).
    { unfold read_grasp, h1. simpl. rewrite lookup_insert_eq. simpl.
      by rewrite lookup_insert_eq. }
    rewrite (pickup_loop_yield qfe _ _ _ _ _ _ _ _ _ _ Hnext Hread).
    cbv zeta. destruct (pickup_action _ (world st)) as [code w1]. cbn [fst snd].
    destruct (code =? 1)%Z.
    + intros [= <- <-]. eexists [_; _], _. simpl.
      split; [by rewrite <- app_assoc|]. split; [reflexivity|].
      rewrite lookup_insert_eq. split; [done|]. by apply same_place_with_orientation.
    + intros Hrun.
      apply (pickup_loop_pose picker name tilts lg g (with_orientation (qfe 0 1.57 0) ps))
        in Hrun as (evs & Ht & Hpose & Hsame).
      * simpl in Ht, Hpose.
        eexists (_ :: _ :: evs),
          (default (with_orientation (qfe 0 1.57 0) ps) (last (grasp_poses evs))).
        split; [by rewrite Ht, <- !app_assoc|].
        split; [|split; [exact Hpose | by destruct Hsame]].
        unfold grasp_poses. simpl. rewrite last_cons. by destruct (last _).
      * simpl. by rewrite lookup_insert_eq.
      * simpl. by rewrite lookup_insert_eq.
  - unfold place, getPlaceLocations, place_gen_size.
    set (ll := fresh (dom (places (heap st)))).
    set (l := {| place_id := "direct_overhead"; place_pose := lp;
                 place_approach := getGripperTranslation 0.05 0.15 1.0;
                 place_retreat := getGripperTranslation 0.05 0.15 (-1.0);
                 post_place_posture := getGripperPosture GRIPPER_OPEN |}).
    set (h1 := {| poses := <[lp := with_orientation (qfe 0 1.57 0) ps]> (poses (heap st));
                  grasps := grasps (heap st);
                  places := <[ll := l]> (places (heap st)) |}).
    assert (Hnext : getPlaceLocations_next qfe (PlaceStart lp) (heap st)
                    = Some (Some ll, PlaceLoop ll tilts, h1)).
    { cbn [getPlaceLocations_next]. unfold set_orientation. by rewrite Hps. }
    assert (Hread : read_place h1 ll = Some (overhead_place qfe ps)).
    { unfold read_place, h1. simpl. rewrite lookup_insert_eq. simpl.
      by rewrite lookup_insert_eq. }
    rewrite (place_loop_yield qfe _ _ _ _ _ _ _ _ _ _ Hnext Hread).
    cbv zeta. destruct (place_action _ (world st)) as [code w1]. cbn [fst snd].
    destruct (code =? 1)%Z.
    + intros [= <- <-]. eexists [_; _], _. simpl.
      split; [by rewrite <- app_assoc|]. split; [reflexivity|].
      rewrite lookup_insert_eq. split; [done|]. by apply same_place_with_orientation.
    + intros Hrun.
      apply (place_loop_pose placer name tilts ll l (with_orientation (qfe 0 1.57 0) ps))
        in Hrun as (evs & Ht & Hpose & Hsame).
      * simpl in Ht, Hpose.
        eexists (_ :: _ :: evs),
          (default (with_orientation (qfe 0 1.57 0) ps) (last (place_poses evs))).
        split; [by rewrite Ht, <- !app_assoc|].
        split; [|split; [exact Hpose | by destruct Hsame]].
        unfold place_poses. simpl. rewrite last_cons. by destruct (last _).
      * simpl. by rewrite lookup_insert_eq.
      * simpl. by rewrite lookup_insert_eq.
Qed.
End Aliasing.

(** ** The outcomes of a move *)

Section Paths.
Context {W : Type} `{Platform W}.
Variable qfe : Q -> Q -> Q -> Quaternion.
Variable SQUARE_SIZE : Q.
Variable castling_extras : gmap string string.

Lemma primary_move_returns n move board col_t rank_t fr (st st' : State W) r :
  primary_move qfe SQUARE_SIZE castling_extras
               (execute qfe SQUARE_SIZE castling_extras n) n move board
               col_t rank_t fr st = Ret r st' →
  ∃ fr_piece st_t, fr = Some fr_piece
    ∧ trace st `prefix_of` trace st_t
    ∧ st' = tucked st_t
    ∧ match r with
      | Some p => p = getPose SQUARE_SIZE col_t rank_t board
                             (point_z (position (piece_pose fr_piece)))
      | None => success st_t = false
      end.
Proof.
  unfold primary_move. intros Hrun.
  apply bind_Ret in Hrun as (fr_piece & s1 & Hfr & Hrun).
  destruct fr as [piece|]; [|done]. injection Hfr as <- <-.
  apply bind_Ret in Hrun as (moved & s2 & Hmove & Hrun).
  apply steady_move_piece in Hmove as [_ Hpre].
  exists piece. destruct moved; simpl in Hrun.
  - apply bind_Ret in Hrun as ([] & s3 & Hextra & Hrun).
    apply bind_Ret in Hrun as ([] & s4 & Htuck & [= <- <-]).
    rewrite tuck_run in Htuck. injection Htuck as <-.
    exists s3. split; [done|]. split; [|done]. etrans; [exact Hpre|].
    destruct (castling_extras !! move) as [extra|]; [|by injection Hextra as <-].
    apply bind_Ret in Hextra as (r' & s5 & Hnested & Hlog).
    apply falling_execute in Hnested as [_ Hpre'].
    etrans; [exact Hpre'|]. destruct r' as [p|].
    + by injection Hlog as <-.
    + injection Hlog as <-. by apply prefix_app_r.
  - rewrite abort_run in Hrun. injection Hrun as <- <-.
    exists (set_success false (record (EvLog LogErr "Failed to move my piece") s2)).
    split; [done|]. split; [|done]. simpl. etrans; [exact Hpre|]. by apply prefix_app_r.
Qed.

Lemma execute_returns n move board (st st' : State W) r col_f rank_f col_t rank_t :
  toPosition board (String.substring 0 2 move) = (col_f, rank_f) →
  toPosition board (String.substring 2 (String.length move - 2) move)
    = (col_t, rank_t) →
  execute qfe SQUARE_SIZE castling_extras n move board st = Ret r st' →
  ∃ fr st_t, getPiece board col_f rank_f = Some fr
    ∧ trace st `prefix_of` trace st_t
    ∧ st' = tucked st_t
    ∧ match r with
      | Some p => p = getPose SQUARE_SIZE col_t rank_t board
                             (point_z (position (piece_pose fr)))
      | None => success st_t = false
      end.
Proof.
  intros Hfrom Hto. destruct n as [|n]; [done|].
  rewrite execute_S, Hfrom, Hto. cbv zeta.
  destruct (getPiece board col_t rank_t) as [to_piece|];
    [|by apply primary_move_returns].
  intros Hrun.
  apply bind_Ret in Hrun as (fr_piece & s1 & Hfr & Hrun).
  destruct (getPiece board col_f rank_f) as [piece|] eqn:Hpiece; [|done].
  injection Hfr as <- <-.
  apply bind_Ret in Hrun as (moved & s2 & Hmove & Hrun).
  apply steady_move_piece in Hmove as [_ Hpre].
  destruct moved; simpl in Hrun.
  - apply primary_move_returns in Hrun as (fr' & st_t & [= <-] & Hpre' & Hst & Hr).
    exists piece, st_t. split; [done|]. split; [by etrans | done].
  - rewrite abort_run in Hrun. injection Hrun as <- <-.
    exists piece,
      (set_success false (record (EvLog LogErr "Failed to move captured piece") s2)).
    split; [done|]. split; [|done]. simpl. etrans; [exact Hpre|]. by apply prefix_app_r.
Qed.

(** X12: what a call of [execute] can return.  A call that returns found
    a piece on the source square, and its result is either [None], with
    [success] cleared, or the pose [getPose] gives for the destination
    square at the height of that piece: for a capture and for a castling
    move too, whatever became of the extra. *)
Theorem execute_result_pose (n : nat) (move : string) (board : Board)
    (st st' : State W) (r : option Pose) (col_f rank_f col_t rank_t : Z) :
  toPosition board (String.substring 0 2 move) = (col_f, rank_f) →
  toPosition board (String.substring 2 (String.length move - 2) move)
    = (col_t, rank_t) →
  execute qfe SQUARE_SIZE castling_extras n move board st = Ret r st' →
  ∃ fr, getPiece board col_f rank_f = Some fr
    ∧ match r with
      | Some p => p = getPose SQUARE_SIZE col_t rank_t board
                             (point_z (position (piece_pose fr)))
      | None => success st' = false
      end.
Proof.
  intros Hfrom Hto Hrun.
  destruct (execute_returns _ _ _ _ _ _ _ _ _ _ Hfrom Hto Hrun)
    as (fr & st_t & Hfr & _ & -> & Hr).
  exists fr. split; [done|]. by destruct r.
Qed.

(** X13: every call of [execute] that returns ends by tucking the arm:
    the last thing it does is to send the tuck goal, on success and on
    failure alike. *)
Theorem execute_ends_tucked (n : nat) (move : string) (board : Board)
    (st st' : State W) (r : option Pose) :
  execute qfe SQUARE_SIZE castling_extras n move board st = Ret r st' →
  ∃ tr code, trace st' = tr ++ [EvMoveGroup tuck_goal code]
    ∧ trace st `prefix_of` tr.
Proof.
  intros Hrun.
  destruct (toPosition board (String.substring 0 2 move)) as [col_f rank_f] eqn:Hfrom.
  destruct (toPosition board (String.substring 2 (String.length move - 2) move))
    as [col_t rank_t] eqn:Hto.
  destruct (execute_returns _ _ _ _ _ _ _ _ _ _ Hfrom Hto Hrun)
    as (fr & st_t & _ & Hpre & -> & _).
  by eexists _, _.
Qed.

(** X14: a move from an empty square.  [board.getPiece] gives [None] for
    the source square and the first use of it, [fr.header], raises
    [AttributeError], with or without a piece on the destination square.
    Nothing has been sent or published, [success] is as it was and the arm
    is not tucked. *)
Theorem execute_from_empty_square (n : nat) (move : string) (board : Board)
    (st : State W) (col_f rank_f : Z) :
  toPosition board (String.substring 0 2 move) = (col_f, rank_f) →
  getPiece board col_f rank_f = None →
  execute qfe SQUARE_SIZE castling_extras (S n) move board st
  = Raise AttributeError st.
Proof.
  intros Hfrom Hfr. rewrite execute_S, Hfrom.
  destruct (toPosition board (String.substring 2 (String.length move - 2) move))
    as [col_t rank_t].
  cbv zeta. rewrite Hfr.
  destruct (getPiece board col_t rank_t); reflexivity.
Qed.
End Paths.

(** ** Exceptions *)

Section Raises.
Context {W : Type} `{Platform W}.
Variable qfe : Q -> Q -> Q -> Quaternion.
Variable SQUARE_SIZE : Q.
Variable castling_extras : gmap string string.
Variable P : Exn -> Prop.



Lemma raises_never {A} (m : M W A) :
  (∀ st, ∃ a st', m st = Ret a st') → raises_only W P m.
Proof. intros Hm st e st' Hrun. destruct (Hm st) as (a & st1 & Hret). congruence. Qed.







Lemma raises_set_failed : raises_only W P set_failed.
Proof. apply raises_never. intros st. by eexists _, _. Qed.







End Raises.

Section Exceptions.
Context {W : Type} `{Platform W}.
Variable qfe : Q -> Q -> Q -> Quaternion.
Variable SQUARE_SIZE : Q.
Variable castling_extras : gmap string string.



End Exceptions.

(** ** MotionManager *)

Section Motion.
Context {W : Type} `{Platform W}.

Lemma joint_constraints_zip joints : ∀ positions tolerance,
  joint_constraints joints positions tolerance
  = if decide (length joints ≤ length positions)%nat then
      Some (zip_with (λ j p, {| joint_name := j; joint_position := p;
                                tolerance_above := tolerance;
                                tolerance_below := tolerance;
                                weight := 1.0 |})
                     joints positions)
    else None.
Proof.
  induction joints as [|j joints IH]; intros [|p positions] tolerance;
    cbn [joint_constraints zip_with length]; try rewrite IH;
    repeat case_decide; try done; lia.
Qed.

(** X16: [moveToJointPosition] and the lengths of its two lists.  With
    fewer positions than joint names, [positions[i]] raises [IndexError]
    while the constraints are being built: no goal is sent and nothing
    changes.  Otherwise exactly one goal is sent, with one constraint per
    joint name; positions beyond the last joint name are dropped without
    notice.  [tuck] and [untuck] pass seven names and seven positions, so
    they always get their goal out. *)
Theorem moveToJointPosition_lengths (group : string) (joints : list string)
    (positions : list Q) (tolerance : Q) (st : State W) :
  let g := joint_goal group joints positions tolerance in
  moveToJointPosition group joints positions tolerance st
  = (if decide (length joints ≤ length positions)%nat then
       Ret (move_group_action g (world st)).1
           (record (EvMoveGroup g (move_group_action g (world st)).1)
                   (set_world (move_group_action g (world st)).2 st))
     else Raise IndexError st)
  ∧ (∀ gs, goal_constraints g = [gs] → length gs = length joints `min` length positions)
  ∧ (∃ code w, tuck st = Ret tt (record (EvMoveGroup (joint_goal arm_group joint_names joints_tucked 0.01) code) (set_world w st)))
  ∧ (∃ code w, untuck st = Ret tt (record (EvMoveGroup (joint_goal arm_group joint_names joints_untucked 0.01) code) (set_world w st))).
Proof.
  cbv zeta. split; [|split; [|split]].
  - unfold moveToJointPosition. rewrite joint_constraints_zip.
    destruct (decide (length joints ≤ length positions)%nat); [|done].
    unfold joint_goal. by destruct (move_group_action _ (world st)).
  - intros gs [= <-]. by rewrite length_zip_with.
  - unfold tuck, bind, moveToJointPosition. simpl.
    destruct (move_group_action _ (world st)) as [code w]. by eexists _, _.
  - unfold untuck, bind, moveToJointPosition. simpl.
    destruct (move_group_action _ (world st)) as [code w]. by eexists _, _.
Qed.

(** X17: [MotionManager.moveToPose] on an object as the constructor
    leaves it.  The constructor keeps the listener as [_listener]; the
    method reads [self.listener], which the object does not have, so the
    call raises [AttributeError] before it has transformed the pose or
    sent anything, whatever the rest of the method would do. *)
Theorem moveToPose_raises (rest : PyValue -> PoseStamped -> M W Z)
    (group frame : string) (pose_stamped : PoseStamped) (st : State W) :
  let self := MotionManager_init group frame in
  moveToPose rest self pose_stamped st = Raise AttributeError st
  ∧ self !! "listener" = None
  ∧ self !! "_listener" = Some PyListener.
Proof. cbv zeta. split; [done|]. split; by vm_compute. Qed.

End Motion.

(** ** The log of the retries *)

Section Lines.
Context {W : Type} `{Platform W}.
Variable qfe : Q -> Q -> Q -> Quaternion.

Lemma retry_pickups_lines goals : ∀ i w,
  let r := retry_pickups i goals w in
  ∃ k, (k ≤ length goals)%nat
    ∧ info_lines r.1.2
      = failure_lines "Failed Pick attempt " i k
        ++ (if r.1.1 then ["Pick succeeded"] else [])
    ∧ length (pickup_submissions r.1.2) = (if r.1.1 then S k else k)
    ∧ errors_of r.1.2 = [].
Proof.
  induction goals as [|g goals IH]; intros i w; cbv zeta.
  - by exists 0%nat.
  - cbn [retry_pickups]. destruct (pickup_action g w) as [code w1].
    destruct (code =? 1)%Z.
    + exists 0%nat. simpl. split; [lia | done].
    + specialize (IH (S i) w1). cbv zeta in IH.
      destruct (retry_pickups (S i) goals w1) as [[b evs] w2].
      destruct IH as (k & Hk & Hlines & Hsub & Herr). simpl in *.
      exists (S k). split; [lia|]. unfold info_lines in *. simpl.
      rewrite Hlines. split; [done|]. split; [|done].
      rewrite Hsub. by destruct b.
Qed.

Lemma retry_places_lines goals : ∀ i w,
  let r := retry_places i goals w in
  ∃ k, (k ≤ length goals)%nat
    ∧ info_lines r.1.2
      = failure_lines "Failed place attempt " i k
        ++ (if r.1.1 then ["Place succeeded"] else [])
    ∧ length (place_submissions r.1.2) = (if r.1.1 then S k else k)
    ∧ errors_of r.1.2 = [].
Proof.
  induction goals as [|g goals IH]; intros i w; cbv zeta.
  - by exists 0%nat.
  - cbn [retry_places]. destruct (place_action g w) as [code w1].
    destruct (code =? 1)%Z.
    + exists 0%nat. simpl. split; [lia | done].
    + specialize (IH (S i) w1). cbv zeta in IH.
      destruct (retry_places (S i) goals w1) as [[b evs] w2].
      destruct IH as (k & Hk & Hlines & Hsub & Herr). simpl in *.
      exists (S k). split; [lia|]. unfold info_lines in *. simpl.
      rewrite Hlines. split; [done|]. split; [|done].
      rewrite Hsub. by destruct b.
Qed.

(** X18: [pickup] and [place] on a live pose always return, and what
    they log tells the attempts apart: one info line per refused goal,
    numbered from 1 in the order of the goals, then the success line if a
    goal was accepted; they send one goal more than they log failures when
    they return [True] and as many when they return [False]; they never
    log at error level. *)
Theorem attempts_are_numbered (picker : PickupManager) (placer : PlaceManager)
    (name : string) (lp : nat) (ps : PoseStamped) (st : State W) :
  poses (heap st) !! lp = Some ps →
  (∃ b st' evs k, pickup qfe picker name lp st = Ret b st'
     ∧ trace st' = trace st ++ evs
     ∧ (k ≤ 21)%nat
     ∧ info_lines evs
       = failure_lines "Failed Pick attempt " 1 k
         ++ (if b then ["Pick succeeded"] else [])
     ∧ length (pickup_submissions evs) = (if b then S k else k)
     ∧ errors_of evs = [])
  ∧ (∃ b st' evs k, place qfe placer name lp st = Ret b st'
     ∧ trace st' = trace st ++ evs
     ∧ (k ≤ 21)%nat
     ∧ info_lines evs
       = failure_lines "Failed place attempt " 1 k
         ++ (if b then ["Place succeeded"] else [])
     ∧ length (place_submissions evs) = (if b then S k else k)
     ∧ errors_of evs = []).
Proof.
  intros Hps. split.
  - destruct (pickup_refines qfe picker name lp ps st Hps) as [h' Href].
    cbv zeta in Href.
    destruct (retry_pickups_lines (PickupGoal_of picker name <$> grasp_values qfe ps)
                1 (world st)) as (k & Hk & Hlines & Hsub & Herr).
    eexists _, _, _, k. split; [exact Href|]. split; [done|]. split; [exact Hk|].
    done.
  - destruct (place_refines qfe placer name lp ps st Hps) as [h' Href].
    cbv zeta in Href.
    destruct (retry_places_lines (PlaceGoal_of placer name <$> place_values qfe ps)
                1 (world st)) as (k & Hk & Hlines & Hsub & Herr).
    eexists _, _, _, k. split; [exact Href|]. split; [done|]. split; [exact Hk|].
    done.
Qed.
End Lines.

(** ** More runs on the scripted platform *)

(** X8 at work: the table is added to an empty scene; the monitor reports
    it at the first look. *)
Lemma addBox_returns_listed_witness :
  ∃ st', addBox (W:=SimWorld) 2 FIXED_FRAME "table" 0.4572 0.4572 0.1
                0.2286 0.2286 (-0.05) (sim_state [] []) = Ret tt st'
         ∧ "table" ∈ om_collision (objects st').
Proof.
  assert (Hrun : ∃ st', addBox (W:=SimWorld) 2 FIXED_FRAME "table" 0.4572 0.4572 0.1
                          0.2286 0.2286 (-0.05) (sim_state [] []) = Ret tt st').
  { eexists. vm_compute. reflexivity. }
  destruct Hrun as [st' Hrun]. exists st'. split; [exact Hrun|].
  exact (proj1 (addBox_returns_listed (W:=SimWorld) 2 FIXED_FRAME "table"
                  0.4572 0.4572 0.1 0.2286 0.2286 (-0.05) (sim_state [] []) st' Hrun)).
Defined.

(** X9 at work: removing a name the tracker never listed. *)
Lemma remove_returns_unlisted_witness :
  ∃ st', remove (W:=SimWorld) 2 FIXED_FRAME "piece" (sim_state [] []) = Ret tt st'
         ∧ "piece" ∉ om_collision (objects st').
Proof.
  assert (Hrun : ∃ st', remove (W:=SimWorld) 2 FIXED_FRAME "piece" (sim_state [] [])
                        = Ret tt st').
  { eexists. vm_compute. reflexivity. }
  destruct Hrun as [st' Hrun]. exists st'. split; [exact Hrun|].
  exact (proj1 (remove_returns_unlisted (W:=SimWorld) 2 FIXED_FRAME "piece"
                  (sim_state [] []) st' Hrun)).
Defined.

(** X10 at work: nothing is ever heard from the scene monitor. *)
Lemma addBox_stalls_witness :
  addBox (W:=unit) 5 FIXED_FRAME "table" 0.4572 0.4572 0.1 0.2286 0.2286 (-0.05)
         {| heap := empty_heap; world := tt; objects := new_ObjectManager;
            success := true; trace := [] |}
  = OutOfFuel.
Proof.
  apply (addBox_stalls (W:=unit) 5 FIXED_FRAME "table").
  - intros w. reflexivity.
  - simpl. apply not_elem_of_nil.
Defined.

(** X11 at work: e2 to e4, the third grasp is accepted and no place
    location is. *)
Lemma move_piece_picks_before_placing_witness :
  ∃ st' e1 e2,
    move_piece (W:=SimWorld) sim_quaternion sim_SQUARE_SIZE 2
      (piece_pose (sim_piece 4 2))
      (getPose sim_SQUARE_SIZE 4 4 (sim_board [(4, 2)%Z]) 0.03)
      (sim_state [(-1)%Z; (-1)%Z; 1%Z] []) = Ret true st'
    ∧ trace st' = trace (sim_state [(-1)%Z; (-1)%Z; 1%Z] []) ++ e1 ++ e2
    ∧ Forall (λ e, scene_or_pick e = true) e1
    ∧ Forall (λ e, place_only e = true) e2.
Proof.
  assert (Hrun : ∃ st',
    move_piece (W:=SimWorld) sim_quaternion sim_SQUARE_SIZE 2
      (piece_pose (sim_piece 4 2))
      (getPose sim_SQUARE_SIZE 4 4 (sim_board [(4, 2)%Z]) 0.03)
      (sim_state [(-1)%Z; (-1)%Z; 1%Z] []) = Ret true st').
  { eexists. vm_compute. reflexivity. }
  destruct Hrun as [st' Hrun].
  destruct (move_piece_picks_before_placing (W:=SimWorld) sim_quaternion
              sim_SQUARE_SIZE 2 (piece_pose (sim_piece 4 2))
              (getPose sim_SQUARE_SIZE 4 4 (sim_board [(4, 2)%Z]) 0.03)
              (sim_state [(-1)%Z; (-1)%Z; 1%Z] []) st' true Hrun)
    as (e1 & e2 & Ht & Hp1 & Hp2 & _).
  exists st', e1, e2. split; [exact Hrun|]. split; [exact Ht|].
  split; [exact Hp1 | exact Hp2].
Defined.

(** X12 at work: white castles short and no grasp of the rook succeeds;
    the call still returns the pose of g1, the king's square. *)
Lemma execute_result_pose_witness :
  ∃ st' fr,
    sim_execute 4 "e1g1" (sim_board [(4, 1); (7, 1)]%Z) (sim_state [1%Z] [1%Z])
    = Ret (Some (getPose sim_SQUARE_SIZE 6 1 (sim_board [(4, 1); (7, 1)]%Z) 0.03)) st'
    ∧ getPiece (sim_board [(4, 1); (7, 1)]%Z) 4 1 = Some fr.
Proof.
  assert (Hrun : ∃ st',
    sim_execute 4 "e1g1" (sim_board [(4, 1); (7, 1)]%Z) (sim_state [1%Z] [1%Z])
    = Ret (Some (getPose sim_SQUARE_SIZE 6 1 (sim_board [(4, 1); (7, 1)]%Z) 0.03)) st').
  { eexists. vm_compute. reflexivity. }
  destruct Hrun as [st' Hrun].
  destruct (execute_result_pose (W:=SimWorld) sim_quaternion sim_SQUARE_SIZE
              sim_castling_extras 4 "e1g1" (sim_board [(4, 1); (7, 1)]%Z)
              (sim_state [1%Z] [1%Z]) st' _ 4 1 6 1 eq_refl eq_refl Hrun)
    as (fr & Hfr & _).
  exists st', fr. split; [exact Hrun | exact Hfr].
Defined.

(** X13 at work: no grasp succeeds; the call fails and the tuck goal is
    the last thing sent. *)
Lemma execute_ends_tucked_witness :
  ∃ st' tr code,
    sim_execute 3 "e2e4" (sim_board [(4, 2)%Z]) (sim_state [] []) = Ret None st'
    ∧ trace st' = tr ++ [EvMoveGroup tuck_goal code].
Proof.
  assert (Hrun : ∃ st',
    sim_execute 3 "e2e4" (sim_board [(4, 2)%Z]) (sim_state [] []) = Ret None st').
  { eexists. vm_compute. reflexivity. }
  destruct Hrun as [st' Hrun].
  destruct (execute_ends_tucked (W:=SimWorld) sim_quaternion sim_SQUARE_SIZE
              sim_castling_extras 3 "e2e4" (sim_board [(4, 2)%Z])
              (sim_state [] []) st' None Hrun) as (tr & code & Ht & _).
  exists st', tr, code. split; [exact Hrun | exact Ht].
Defined.

(** X14 at work: e2 to e4 on an empty board. *)
Lemma execute_from_empty_square_witness :
  sim_execute 3 "e2e4" (sim_board []) (sim_state [] [])
  = Raise AttributeError (sim_state [] []).
Proof.
  apply (execute_from_empty_square (W:=SimWorld) sim_quaternion sim_SQUARE_SIZE
           sim_castling_extras 2 "e2e4" (sim_board []) (sim_state [] []) 4 2).
  - reflexivity.
  - reflexivity.
Defined.

(** X18 at work: the pickup server refuses two grasps and accepts the
    third. *)
Lemma attempts_are_numbered_witness :
  let st0 := sim_state [(-1)%Z; (-1)%Z; 1%Z] [] in
  let '(lp, h) := alloc_pose sim_pose (heap st0) in
  ∃ st' evs,
    pickup sim_quaternion arm_pick "piece" lp (set_heap h st0) = Ret true st'
    ∧ trace st' = evs
    ∧ info_lines evs
      = ["Failed Pick attempt 1"; "Failed Pick attempt 2"; "Pick succeeded"].
Proof.
  cbv zeta.
  pose proof (alloc_pose_lookup sim_pose (heap (sim_state [(-1)%Z; (-1)%Z; 1%Z] [])))
    as Hps.
  pose proof (attempts_are_numbered (W:=SimWorld) sim_quaternion arm_pick arm_place
                "piece"
                (alloc_pose sim_pose (heap (sim_state [(-1)%Z; (-1)%Z; 1%Z] []))).1
                sim_pose
                (set_heap
                   (alloc_pose sim_pose (heap (sim_state [(-1)%Z; (-1)%Z; 1%Z] []))).2
                   (sim_state [(-1)%Z; (-1)%Z; 1%Z] [])) Hps) as [T _].
  destruct (alloc_pose sim_pose (heap (sim_state [(-1)%Z; (-1)%Z; 1%Z] [])))
    as [lp h] eqn:Halloc.
  simpl in T. destruct T as (b & st' & evs & k & Hrun & Ht & _).
  assert (Hrun' : ∃ st'', pickup (W:=SimWorld) sim_quaternion arm_pick "piece" lp
             (set_heap h (sim_state [(-1)%Z; (-1)%Z; 1%Z] [])) = Ret true st''
             ∧ info_lines (trace st'')
               = ["Failed Pick attempt 1"; "Failed Pick attempt 2"; "Pick succeeded"]).
  { injection Halloc as <- <-. eexists. split; vm_compute; reflexivity. }
  destruct Hrun' as (st'' & Hrun' & Hlines).
  exists st'', (trace st''). split; [exact Hrun'|]. split; [reflexivity | exact Hlines].
Defined.

(** X19 at work: e2 to e4 on the scripted platform; every object is
    reported at the first look, so each is published once. *)
Lemma move_piece_scene_updates_witness :
  ∃ st' evs,
    move_piece (W:=SimWorld) sim_quaternion sim_SQUARE_SIZE 2
      (piece_pose (sim_piece 4 2))
      (getPose sim_SQUARE_SIZE 4 4 (sim_board [(4, 2)%Z]) 0.03)
      (sim_state [1%Z] [1%Z]) = Ret true st'
    ∧ trace st' = evs
    ∧ object_id <$> published evs = ["table"; "table"; "piece"; "piece"]
    ∧ operation <$> published evs = [REMOVE; ADD; REMOVE; ADD].
Proof.
  assert (Hrun : ∃ st',
    move_piece (W:=SimWorld) sim_quaternion sim_SQUARE_SIZE 2
      (piece_pose (sim_piece 4 2))
      (getPose sim_SQUARE_SIZE 4 4 (sim_board [(4, 2)%Z]) 0.03)
      (sim_state [1%Z] [1%Z]) = Ret true st'
    ∧ object_id <$> published (trace st') = ["table"; "table"; "piece"; "piece"]
    ∧ operation <$> published (trace st') = [REMOVE; ADD; REMOVE; ADD]).
  { eexists. split; [vm_compute; reflexivity|]. split; vm_compute; reflexivity. }
  destruct Hrun as (st' & Hrun & Hids & Hops).
  destruct (move_piece_scene_updates (W:=SimWorld) sim_quaternion sim_SQUARE_SIZE 2
              (piece_pose (sim_piece 4 2))
              (getPose sim_SQUARE_SIZE 4 4 (sim_board [(4, 2)%Z]) 0.03)
              (sim_state [1%Z] [1%Z]) st' true Hrun) as (evs & _).
  exists st', (trace st'). split; [exact Hrun|]. split; [reflexivity|].
  split; [exact Hids | exact Hops].
Defined.

(** X20 at work: the same squares at two heights. *)
Lemma move_piece_ignores_height_witness :
  move_piece (W:=SimWorld) sim_quaternion sim_SQUARE_SIZE 2
    (position_at 0.25 0.08 0.5) (position_at 0.25 0.2 0.5) (sim_state [1%Z] [1%Z])
  = move_piece (W:=SimWorld) sim_quaternion sim_SQUARE_SIZE 2
      (position_at 0.25 0.08 0.03) (position_at 0.25 0.2 0.03) (sim_state [1%Z] [1%Z]).
Proof.
  apply (move_piece_ignores_height (W:=SimWorld) sim_quaternion sim_SQUARE_SIZE 2
           (position_at 0.25 0.08 0.03) (position_at 0.25 0.2 0.03)
           (position_at 0.25 0.08 0.5) (position_at 0.25 0.2 0.5)
           (sim_state [1%Z] [1%Z])); reflexivity.
Defined.


(** X22 at work: the third grasp is accepted; the pose handed in is left
    with the third candidate's orientation. *)
Lemma caller_pose_is_overwritten_witness :
  let st0 := sim_state [(-1)%Z; (-1)%Z; 1%Z] [] in
  ∃ st' sent,
    pickup sim_quaternion arm_pick "piece" (alloc_pose sim_pose (heap st0)).1
           (set_heap (alloc_pose sim_pose (heap st0)).2 st0) = Ret true st'
    ∧ poses (heap st') !! (alloc_pose sim_pose (heap st0)).1 = Some sent
    ∧ same_place sent sim_pose
    ∧ orientation (pose sent) = sim_quaternion 0 (1.57 - 0.05) (-0.78).
Proof.
  cbv zeta.
  assert (Hrun : ∃ st' sent,
    pickup (W:=SimWorld) sim_quaternion arm_pick "piece"
           (alloc_pose sim_pose (heap (sim_state [(-1)%Z; (-1)%Z; 1%Z] []))).1
           (set_heap (alloc_pose sim_pose (heap (sim_state [(-1)%Z; (-1)%Z; 1%Z] []))).2
                     (sim_state [(-1)%Z; (-1)%Z; 1%Z] [])) = Ret true st'
    ∧ poses (heap st')
        !! (alloc_pose sim_pose (heap (sim_state [(-1)%Z; (-1)%Z; 1%Z] []))).1
      = Some sent
    ∧ orientation (pose sent) = sim_quaternion 0 (1.57 - 0.05) (-0.78)).
  { eexists _, _. split; [vm_compute; reflexivity|]. split; vm_compute; reflexivity. }
  destruct Hrun as (st' & sent & Hrun & Hsent & Hq).
  destruct (caller_pose_is_overwritten (W:=SimWorld) sim_quaternion arm_pick arm_place
              "piece"
              (alloc_pose sim_pose (heap (sim_state [(-1)%Z; (-1)%Z; 1%Z] []))).1
              sim_pose
              (set_heap (alloc_pose sim_pose (heap (sim_state [(-1)%Z; (-1)%Z; 1%Z] []))).2
                        (sim_state [(-1)%Z; (-1)%Z; 1%Z] []))
              st' true
              (alloc_pose_lookup sim_pose (heap (sim_state [(-1)%Z; (-1)%Z; 1%Z] []))))
    as [T _].
  destruct (T Hrun) as (evs & sent' & _ & _ & Hsent' & Hsame).
  exists st', sent. split; [exact Hrun|]. split; [exact Hsent|]. split; [|exact Hq].
  rewrite Hsent in Hsent'. by injection Hsent' as ->.
Defined.

(** ** Castling extras and captures, by the kind of failure *)

Section Calm.
Context {W : Type} `{Platform W}.
Variable qfe : Q -> Q -> Q -> Quaternion.
Variable SQUARE_SIZE : Q.

Lemma errors_of_app tr1 tr2 : errors_of (tr1 ++ tr2) = errors_of tr1 ++ errors_of tr2.
Proof. apply omap_app. Qed.

Lemma errors_of_snoc tr e :
  errors_of [e] = [] → errors_of (tr ++ [e]) = errors_of tr.
Proof. intros He. by rewrite errors_of_app, He, app_nil_r. Qed.

Lemma calm_bind {A B} (m : M W A) (k : A -> M W B) :
  calm W m → (∀ a, calm W (k a)) → calm W (bind m k).
Proof.
  intros Hm Hk st b st' Hrun. apply bind_Ret in Hrun as (a & st1 & Hm1 & Hk1).
  apply Hm in Hm1. apply Hk in Hk1. congruence.
Qed.

Lemma calm_ret {A} (a : A) : calm W (ret a).
Proof. by intros st a' st' [= <- <-]. Qed.

Lemma calm_info msg : calm W (log LogInfo msg).
Proof. intros st a st' [= <- <-]. simpl. by apply errors_of_snoc. Qed.

Lemma calm_debug msg : calm W (log LogDebug msg).
Proof. intros st a st' [= <- <-]. simpl. by apply errors_of_snoc. Qed.

Lemma calm_rospy_now : calm W rospy_now.
Proof. by intros st a st' [= <- <-]. Qed.

Lemma calm_rospy_sleep d : calm W (rospy_sleep d).
Proof. intros st a st' [= <- <-]. simpl. by apply errors_of_snoc. Qed.

Lemma calm_pub_publish o : calm W (pub_publish o).
Proof. intros st a st' [= <- <-]. simpl. by apply errors_of_snoc. Qed.

Lemma calm_listener_transformPose frame ps : calm W (listener_transformPose frame ps).
Proof. by intros st a st' [= <- <-]. Qed.

Lemma calm_new_PoseStamped ps : calm W (new_PoseStamped ps).
Proof.
  intros st a st'. unfold new_PoseStamped. destruct (alloc_pose ps (heap st)).
  by intros [= <- <-].
Qed.

Lemma calm_getKnownCollisionObjects : calm W getKnownCollisionObjects.
Proof.
  intros st a st'. unfold getKnownCollisionObjects.
  destruct (scene_feed (world st)). by intros [= <- <-].
Qed.

Lemma calm_remove n frame name : calm W (remove n frame name).
Proof.
  unfold remove.
  apply calm_bind; [apply calm_rospy_now | intros t].
  apply calm_bind; [apply calm_pub_publish | intros _].
  generalize (removal_object t frame name). unfold removal_object. intros o.
  induction n as [|n IH]; [by intros st a st'|]. cbn [remove_wait].
  apply calm_bind; [apply calm_getKnownCollisionObjects | intros known].
  destruct (bool_decide _); [|apply calm_ret].
  apply calm_bind; [apply calm_debug | intros _].
  apply calm_bind; [apply calm_pub_publish | intros _].
  apply calm_bind; [apply calm_rospy_sleep | intros _]. exact IH.
Qed.

Lemma calm_addBox n frame name sx sy sz x y z :
  calm W (addBox n frame name sx sy sz x y z).
Proof.
  unfold addBox.
  apply calm_bind; [apply calm_rospy_now | intros t].
  apply calm_bind; [apply calm_pub_publish | intros _].
  generalize (box_object t frame name sx sy sz x y z). unfold box_object. intros o.
  induction n as [|n IH]; [by intros st a st'|]. cbn [addBox_wait].
  apply calm_bind; [apply calm_getKnownCollisionObjects | intros known].
  destruct (bool_decide _); [apply calm_ret|].
  apply calm_bind; [apply calm_debug | intros _].
  apply calm_bind; [apply calm_pub_publish | intros _].
  apply calm_bind; [apply calm_rospy_sleep | intros _]. exact IH.
Qed.

Lemma calm_pickup_loop n self name : ∀ gen i,
  calm W (pickup_loop qfe n self name gen i).
Proof.
  induction n as [|n IH]; intros gen i st a st'; [done|].
  cbn [pickup_loop].
  destruct (getGrasps_next qfe gen (heap st)) as [[[[lg|] gen'] h1]|]; [| |done].
  - destruct (read_grasp h1 lg) as [grasp|]; [|done].
    destruct (pickup_action _ (world st)) as [code w1].
    destruct (code =? 1)%Z.
    + intros [= <- <-]. simpl. by rewrite !errors_of_snoc.
    + intros Hrec. apply IH in Hrec. rewrite Hrec. simpl. by rewrite !errors_of_snoc.
  - by intros [= <- <-].
Qed.

Lemma calm_place_loop n self name : ∀ gen i,
  calm W (place_loop qfe n self name gen i).
Proof.
  induction n as [|n IH]; intros gen i st a st'; [done|].
  cbn [place_loop].
  destruct (getPlaceLocations_next qfe gen (heap st)) as [[[[ll|] gen'] h1]|]; [| |done].
  - destruct (read_place h1 ll) as [location|]; [|done].
    destruct (place_action _ (world st)) as [code w1].
    destruct (code =? 1)%Z.
    + intros [= <- <-]. simpl. by rewrite !errors_of_snoc.
    + intros Hrec. apply IH in Hrec. rewrite Hrec. simpl. by rewrite !errors_of_snoc.
  - by intros [= <- <-].
Qed.

Lemma calm_move_piece n start_pose end_pose :
  calm W (move_piece qfe SQUARE_SIZE n start_pose end_pose).
Proof.
  unfold move_piece, addCube.
  repeat first
    [ apply calm_remove | apply calm_addBox | apply calm_pickup_loop
    | apply calm_place_loop | apply calm_info | apply calm_rospy_now
    | apply calm_rospy_sleep | apply calm_listener_transformPose
    | apply calm_new_PoseStamped | apply calm_ret
    | match goal with |- calm W (if ?b then _ else _) => destruct b end
    | apply calm_bind; [|intros ?] ].
Qed.
End Calm.

Section Kinds.
Context {W : Type} `{Platform W}.
Variable qfe : Q -> Q -> Q -> Quaternion.
Variable SQUARE_SIZE : Q.
Variable castling_extras : gmap string string.

Lemma tucked_run (st : State W) : tuck st = Ret tt (tucked st).
Proof. apply tuck_run. Qed.

(** A sub-move that reports failure tried all 21 grasps and sent no place
    goal. *)
Lemma move_piece_False n start_pose end_pose (st st' : State W) :
  move_piece qfe SQUARE_SIZE n start_pose end_pose st = Ret false st' →
  length (pickup_submissions (trace st'))
  = (length (pickup_submissions (trace st)) + 21)%nat
  ∧ place_submissions (trace st') = place_submissions (trace st).
Proof.
  intros Hrun.
  apply move_piece_split in Hrun as (st1 & e0 & Ht0 & Hp0 & pt & Hrun).
  apply pick_and_place_run in Hrun as (e1 & e2 & Ht & Hp1 & _ & _ & -> & Hall).
  apply scene_only_submissions in Hp0 as (Hpick0 & Hplace0 & _).
  apply pick_only_submissions in Hp1 as (Hplace1 & _).
  rewrite Ht, Ht0, app_nil_r. split.
  - rewrite !pickup_submissions_app, !length_app, Hpick0, Hall. simpl. lia.
  - by rewrite !place_submissions_app, Hplace0, Hplace1, !app_nil_r.
Qed.

(** A move between two squares, the second empty, with no castling extra:
    [execute] is one sub-move and what its result decides. *)
Lemma execute_plain n move board (st st_m : State W) col_f rank_f col_t rank_t
    fr moved :
  toPosition board (String.substring 0 2 move) = (col_f, rank_f) →
  toPosition board (String.substring 2 (String.length move - 2) move)
    = (col_t, rank_t) →
  getPiece board col_f rank_f = Some fr →
  getPiece board col_t rank_t = None →
  castling_extras !! move = None →
  let to_pose := getPose SQUARE_SIZE col_t rank_t board
                         (point_z (position (piece_pose fr))) in
  move_piece qfe SQUARE_SIZE n (piece_pose fr) to_pose st = Ret moved st_m →
  execute qfe SQUARE_SIZE castling_extras (S n) move board st
  = if moved then Ret (Some to_pose) (tucked st_m)
    else Ret None (tucked (set_success false
                             (record (EvLog LogErr "Failed to move my piece") st_m))).
Proof.
  intros Hfrom Hto Hfr Hempty Hextra to_pose Hmove.
  rewrite execute_S, Hfrom, Hto. cbv zeta. rewrite Hfr, Hempty.
  unfold primary_move. unfold bind at 1. cbn [attr_of ret].
  unfold bind at 1. fold to_pose. rewrite Hmove. destruct moved; cbn [negb].
  - rewrite Hextra. unfold bind at 1. unfold bind at 1. cbn [ret].
    by rewrite tucked_run.
  - by rewrite abort_run.
Qed.

(** C3 (as amended): a move with a castling extra, once its primary
    sub-move has succeeded.  Whatever the nested call for the extra
    returns, the outer call does not abort: it tucks and returns the
    primary move's destination pose, and it logs an error of its own
    exactly when the nested call returned no pose.  When the extra is a
    move of the rook from its square to an empty one and its sub-move finds
    no grasp (all 21 pickup goals refused, no place goal sent), the nested
    call logs its error, clears [success], which the planner shares with
    the outer call, tucks and returns no pose: the overall move is marked
    failed although it returns a pose.  When that sub-move reports success
    the nested call returns the rook's pose, logs no error and leaves
    [success] as it was. *)
Theorem castling_extra_failure_is_logged (n : nat) (move extra : string)
    (board : Board) (st st_c st1 st2 : State W) (col_f rank_f col_t rank_t : Z)
    (fr : ChessPiece) (r : option Pose) :
  toPosition board (String.substring 0 2 move) = (col_f, rank_f) →
  toPosition board (String.substring 2 (String.length move - 2) move)
    = (col_t, rank_t) →
  getPiece board col_f rank_f = Some fr →
  castling_extras !! move = Some extra →
  match getPiece board col_t rank_t with
  | None => st_c = st
  | Some captured =>
      move_piece qfe SQUARE_SIZE n (piece_pose captured) (off_board_pose SQUARE_SIZE fr) st
      = Ret true st_c
  end →
  let to_pose := getPose SQUARE_SIZE col_t rank_t board
                         (point_z (position (piece_pose fr))) in
  move_piece qfe SQUARE_SIZE n (piece_pose fr) to_pose st_c = Ret true st1 →
  execute qfe SQUARE_SIZE castling_extras n extra board st1 = Ret r st2 →
  (∃ st3, execute qfe SQUARE_SIZE castling_extras (S n) move board st
          = Ret (Some to_pose) st3
     ∧ st3 = tucked (match r with
                     | None => record (EvLog LogErr "Failed to carry out castling extra") st2
                     | Some _ => st2
                     end)
     ∧ success st3 = success st2
     ∧ errors_of (trace st3)
       = errors_of (trace st2)
         ++ match r with
            | None => ["Failed to carry out castling extra"]
            | Some _ => []
            end
     ∧ (r = None → success st2 = false))
  ∧ (∀ n' col_f' rank_f' col_t' rank_t' rook moved st_m,
       n = S n' →
       toPosition board (String.substring 0 2 extra) = (col_f', rank_f') →
       toPosition board (String.substring 2 (String.length extra - 2) extra)
         = (col_t', rank_t') →
       getPiece board col_f' rank_f' = Some rook →
       getPiece board col_t' rank_t' = None →
       castling_extras !! extra = None →
       let rook_pose := getPose SQUARE_SIZE col_t' rank_t' board
                                (point_z (position (piece_pose rook))) in
       move_piece qfe SQUARE_SIZE n' (piece_pose rook) rook_pose st1 = Ret moved st_m →
       if moved then
         r = Some rook_pose
         ∧ st2 = tucked st_m
         ∧ success st2 = success st1
         ∧ errors_of (trace st2) = errors_of (trace st1)
       else
         r = None
         ∧ st2 = tucked (set_success false
                           (record (EvLog LogErr "Failed to move my piece") st_m))
         ∧ success st2 = false
         ∧ errors_of (trace st2) = errors_of (trace st1) ++ ["Failed to move my piece"]
         ∧ length (pickup_submissions (trace st_m))
           = (length (pickup_submissions (trace st1)) + 21)%nat
         ∧ place_submissions (trace st_m) = place_submissions (trace st1)).
Proof.
  intros Hfrom Hto Hfr Hextra Hcap to_pose Hmove Hnested. split.
  - assert (Hprimary :
      primary_move qfe SQUARE_SIZE castling_extras
                   (execute qfe SQUARE_SIZE castling_extras n) n move board
                   col_t rank_t (Some fr) st_c
      = Ret (Some to_pose)
            (tucked (match r with
                     | None => record (EvLog LogErr "Failed to carry out castling extra") st2
                     | Some _ => st2
                     end))).
    { unfold primary_move. unfold bind at 1. cbn [attr_of ret].
      unfold bind at 1. fold to_pose. rewrite Hmove. cbn [negb]. rewrite Hextra.
      unfold bind at 1. unfold bind at 1. rewrite Hnested.
      destruct r as [p|].
      - cbn [ret]. unfold bind at 1. by rewrite tucked_run.
      - unfold log at 1. unfold bind at 1. by rewrite tucked_run. }
    eexists. split; [|split; [reflexivity|]].
    + rewrite execute_S, Hfrom, Hto. cbv zeta. rewrite Hfr.
      destruct (getPiece board col_t rank_t) as [captured|].
      * unfold bind at 1. cbn [attr_of ret]. unfold bind at 1. rewrite Hcap.
        cbn [negb]. exact Hprimary.
      * subst st_c. exact Hprimary.
    + split; [by destruct r|]. split.
      * destruct r; simpl; rewrite !errors_of_app; simpl; by rewrite ?app_nil_r.
      * intros ->. by eapply execute_None_failed.
  - intros n' col_f' rank_f' col_t' rank_t' rook moved st_m -> Hfrom' Hto' Hrook
           Hempty Hplain rook_pose Hrook_move.
    rewrite (execute_plain _ _ _ _ _ _ _ _ _ _ _ Hfrom' Hto' Hrook Hempty Hplain
               Hrook_move) in Hnested.
    pose proof (steady_move_piece _ _ _ _ _ _ _ _ Hrook_move) as [Hflag _].
    pose proof (calm_move_piece _ _ _ _ _ _ _ _ Hrook_move) as Hcalm.
    destruct moved; injection Hnested as <- <-.
    + split; [done|]. split; [done|]. split; [done|].
      simpl. by rewrite errors_of_app, Hcalm, app_nil_r.
    + destruct (move_piece_False _ _ _ _ _ Hrook_move) as [Hpicks Hplaces].
      split; [done|]. split; [done|]. split; [done|]. split; [|done].
      simpl. rewrite !errors_of_app, Hcalm. simpl. by rewrite app_nil_r.
Qed.
End Kinds.

(** C3 at work: white castles short; the king is moved, then no grasp of
    the rook succeeds.  The call returns the king's destination pose, with
    both errors logged and [success] cleared. *)
Lemma castling_extra_failure_is_logged_witness :
  ∃ st3, sim_execute 3 "e1g1" (sim_board [(4, 1); (7, 1)]%Z) (sim_state [1%Z] [1%Z])
         = Ret (Some (getPose sim_SQUARE_SIZE 6 1 (sim_board [(4, 1); (7, 1)]%Z) 0.03)) st3
         ∧ success st3 = false
         ∧ errors_of (trace st3)
           = ["Failed to move my piece"; "Failed to carry out castling extra"].
Proof.
  edestruct (castling_extra_failure_is_logged (W:=SimWorld) sim_quaternion
               sim_SQUARE_SIZE sim_castling_extras 2 "e1g1" "h1f1"
               (sim_board [(4, 1); (7, 1)]%Z) (sim_state [1%Z] [1%Z]))
    as [(st3 & Hrun & _ & Hflag & Herr & _) Hrook].
  - vm_compute. reflexivity.
  - vm_compute. reflexivity.
  - vm_compute. reflexivity.
  - vm_compute. reflexivity.
  - vm_compute. reflexivity.
  - vm_compute. reflexivity.
  - vm_compute. reflexivity.
  - edestruct (Hrook 1%nat 7%Z 1%Z 5%Z 1%Z (sim_piece 7 1) false)
      as (_ & _ & _ & Herr2 & _).
    + reflexivity.
    + vm_compute. reflexivity.
    + vm_compute. reflexivity.
    + vm_compute. reflexivity.
    + vm_compute. reflexivity.
    + vm_compute. reflexivity.
    + vm_compute. reflexivity.
    + exists st3. split; [exact Hrun|]. split; [by rewrite Hflag|].
      rewrite Herr, Herr2. vm_compute. reflexivity.
Defined.
